(** * Vault Steward: the text patch engine, the suggestion filters,
    the change log and the oracle-response parser

  A shallow embedding of the TypeScript sources

    - [services/vault-operations.ts]  ([VaultOperations])
    - [engines/linking-engine.ts]     ([LinkingEngine])
    - [engines/tagging-engine.ts]     ([TaggingEngine])
    - [services/changelog-service.ts] ([ChangelogService])
    - [services/claude-service.ts]    ([ClaudeService])

  A JavaScript string is represented by the list of its code units.
  For the notes, the suggestions and the text of an oracle response the
  embedding covers code units below 256 (the Latin-1 range): on that
  range [toLowerCase], the [i] flag of a regular expression, the class
  [\s] and [trim] all act code unit by code unit, and the definitions
  below follow them exactly.  The strings inside a parsed response hold
  any 16-bit code unit, since an escape of the response can name it. *)

From Stdlib Require Import ZArith QArith List Ascii String Bool Lia.
From stdpp Require Import base option list gmap strings pretty.
Import ListNotations.

Close Scope Q_scope.
Local Open Scope bool_scope.
#[local] Set Warnings "-clear-no-such-hyp".

(* ================================================================== *)
(** ** JavaScript strings *)
(* ================================================================== *)

Module JsString.

(** The code units of a string literal. *)
Definition js (s : string) : list ascii := list_ascii_of_string s.
Arguments js s%_string.

Definition code (c : ascii) : N := N_of_ascii c.

Definition ceqb (a b : ascii) : bool := Ascii.eqb a b.

(** The line feed, written [\n] in the source, and the double quote. *)
Definition LF : ascii := "010"%char.
Definition DQ : ascii := "034"%char.

(** The code units of a literal in which each apostrophe stands for a
    double quote. *)
Definition jsq (s : string) : list ascii :=
  map (fun c => if Ascii.eqb c "'" then DQ else c) (list_ascii_of_string s).

(** [String.prototype.toLowerCase] on one Latin-1 code unit: [A-Z] and
    [U+00C0 .. U+00DE] without the multiplication sign [U+00D7]. *)
Definition lc (c : ascii) : ascii :=
  let n := code c in
  if ((65 <=? n) && (n <=? 90))%N
     || ((192 <=? n) && (n <=? 222) && negb (n =? 215))%N
  then ascii_of_N (n + 32) else c.

Definition toLowerCase (s : list ascii) : list ascii := map lc s.

(** [\s] of a regular expression, also what [trim] strips: TAB, LF, VT,
    FF, CR, SP and NBSP. *)
Definition isSpace (c : ascii) : bool :=
  let n := code c in
  ((9 <=? n) && (n <=? 13) || (n =? 32) || (n =? 160))%N.

(** Line terminators: [.] does not match them, and with the [m] flag
    [^] and [$] match next to them. *)
Definition isLineTerminator (c : ascii) : bool :=
  let n := code c in ((n =? 10) || (n =? 13))%N.

Definition isLetter (c : ascii) : bool :=
  let n := code c in
  ((65 <=? n) && (n <=? 90) || (97 <=? n) && (n <=? 122))%N.

Definition isDigit (c : ascii) : bool :=
  let n := code c in ((48 <=? n) && (n <=? 57))%N.

(** [t.length > 0]. *)
Definition nonEmpty {A : Type} (t : list A) : bool :=
  match t with [] => false | _ :: _ => true end.

(** String equality [===]. *)
Fixpoint streq (a b : list ascii) : bool :=
  match a, b with
  | [], [] => true
  | x :: a', y :: b' => ceqb x y && streq a' b'
  | _, _ => false
  end.

(** [s.startsWith(p)]. *)
Fixpoint startsWith (p s : list ascii) : bool :=
  match p, s with
  | [], _ => true
  | x :: p', y :: s' => ceqb x y && startsWith p' s'
  | _ :: _, [] => false
  end.

(** [p] matches at the head of [s] up to case: what a literal pattern
    with the [i] flag accepts at one position. *)
Fixpoint startsWithCI (p s : list ascii) : bool :=
  match p, s with
  | [], _ => true
  | x :: p', y :: s' => ceqb (lc x) (lc y) && startsWithCI p' s'
  | _ :: _, [] => false
  end.

(** [s.indexOf(p)] as an option: the least offset at which [p] occurs. *)
Fixpoint find (p s : list ascii) : option nat :=
  if startsWith p s then Some 0
  else match s with
       | [] => None
       | _ :: s' => S <$> find p s'
       end.

(** The least offset at which [p] occurs up to case. *)
Fixpoint findCI (p s : list ascii) : option nat :=
  if startsWithCI p s then Some 0
  else match s with
       | [] => None
       | _ :: s' => S <$> findCI p s'
       end.

(** [s.indexOf(p)]: [-1] when [p] does not occur. *)
Definition indexOf (p s : list ascii) : Z :=
  match find p s with
  | Some i => Z.of_nat i
  | None => (-1)%Z
  end.

(** [s.includes(p)]. *)
Definition includes (p s : list ascii) : bool := bool_decide (is_Some (find p s)).

(** [s.trimEnd()], [s.trimStart()] and [s.trim()]. *)
Fixpoint trimStart (s : list ascii) : list ascii :=
  match s with
  | c :: s' => if isSpace c then trimStart s' else s
  | [] => []
  end.

Definition trimEnd (s : list ascii) : list ascii := rev (trimStart (rev s)).

Definition trim (s : list ascii) : list ascii := trimEnd (trimStart s).

(** [s.split(sep)] for a separator of one code unit: never empty, the
    pieces between the separators in order. *)
Fixpoint split (sep : ascii) (s : list ascii) : list (list ascii) :=
  match s with
  | [] => [[]]
  | c :: s' =>
      if ceqb c sep then [] :: split sep s'
      else match split sep s' with
           | piece :: pieces => (c :: piece) :: pieces
           | [] => [[c]]
           end
  end.

(** [pieces.join(sep)]. *)
Fixpoint join (sep : list ascii) (pieces : list (list ascii)) : list ascii :=
  match pieces with
  | [] => []
  | [p] => p
  | p :: rest => p ++ sep ++ join sep rest
  end.

End JsString.
Import JsString.

(* ================================================================== *)
(** ** JavaScript numbers *)
(* ================================================================== *)

(** A number is the exact value of a double, an infinity, or NaN.  The
  code only compares numbers and takes [Math.min] and [Math.max] of
  them; both are exact on doubles, so rationals carry them. *)
Inductive num : Type :=
| Fin (q : Q)
| PInf
| NInf
| NaN.

Module Num.

(** [x < y]: false as soon as one side is NaN. *)
Definition lt (x y : num) : bool :=
  match x, y with
  | NaN, _ | _, NaN => false
  | NInf, NInf => false
  | NInf, _ => true
  | _, NInf => false
  | PInf, _ => false
  | Fin _, PInf => true
  | Fin a, Fin b => negb (Qle_bool b a)
  end.

(** [x <= y]. *)
Definition le (x y : num) : bool :=
  match x, y with
  | NaN, _ | _, NaN => false
  | NInf, _ => true
  | _, PInf => true
  | _, NInf => false
  | PInf, Fin _ => false
  | Fin a, Fin b => Qle_bool a b
  end.

(** [Math.max(x, y)] and [Math.min(x, y)]: NaN when either is. *)
Definition max (x y : num) : num :=
  match x, y with
  | NaN, _ | _, NaN => NaN
  | _, _ => if lt x y then y else x
  end.

Definition min (x y : num) : num :=
  match x, y with
  | NaN, _ | _, NaN => NaN
  | _, _ => if lt y x then y else x
  end.

Definition zero : num := Fin 0.
Definition one : num := Fin 1.
Definition half : num := Fin (1 # 2).

End Num.

(* ================================================================== *)
(** ** Suggestions ([types/claude.ts]) *)
(* ================================================================== *)

Record SuggestedLink : Type := mkLink {
targetText : list ascii;
linkTarget : list ascii;
link_reasoning : list ascii;
link_confidence : num
}.

Inductive TagLocation : Type := frontmatter | inline.

Definition isFrontmatter (l : TagLocation) : bool :=
  match l with frontmatter => true | inline => false end.

Record SuggestedTag : Type := mkTag {
tag : list ascii;
location : TagLocation;
tag_reasoning : list ascii;
tag_confidence : num
}.

(* ================================================================== *)
(** ** The text patch engine ([VaultOperations]) *)
(* ================================================================== *)

Module VaultOperations.

(** *** Links *)

(** [[^\]]*\]\]] at the head of [s]: the run of code units other than
    a closing bracket ends at the first closing bracket, which must
    open ["]]"]. *)
Fixpoint closesLink (s : list ascii) : bool :=
  match s with
  | [] => false
  | c :: s' =>
      if ceqb c "]" then
        match s' with
        | d :: _ => ceqb d "]"
        | [] => false
        end
      else closesLink s'
  end.

(** [[^\]]*T[^\]]*\]\]] with the [i] flag at the head of [s]: after
    some run without closing bracket, [t] up to case, then
    [closesLink]. *)
Fixpoint insideSpan (t s : list ascii) : bool :=
  (startsWithCI t s && closesLink (drop (length t) s))
  || match s with
     | [] => false
     | c :: s' => if ceqb c "]" then false else insideSpan t s'
     end.

(** [alreadyLinkedRegex.test(result)] for
    [new RegExp(`\\[\\[[^\\]]*${escapeRegex(t)}[^\\]]*\\]\\]`, 'i')].
    [escapeRegex] escapes every syntax character, so [t] stands for
    itself. *)
Fixpoint alreadyLinked (t s : list ascii) : bool :=
  match s with
  | [] => false
  | c :: s' =>
      (ceqb c "["
       && match s' with
          | d :: s'' => ceqb d "[" && insideSpan t s''
          | [] => false
          end)
      || alreadyLinked t s'
  end.

(** The body of the loop of [applyLinks] for one suggestion. *)
Definition applyLink (result : list ascii) (link : SuggestedLink) : list ascii :=
  if includes (js "[[" ++ linkTarget link ++ js "]]") result
     || includes (js "[[" ++ linkTarget link ++ js "|") result
  then result
  else if alreadyLinked (targetText link) result then result
  else
    (* [new RegExp(escapeRegex(targetText), 'gi').exec(result)] *)
    match findCI (targetText link) result with
    | Some index =>
        let match0 := take (length (targetText link)) (drop index result) in
        let before := take index result in
        let after := drop (index + length match0) result in
        let displayText :=
          if negb (streq (toLowerCase match0) (toLowerCase (linkTarget link)))
          then linkTarget link ++ js "|" ++ match0
          else linkTarget link in
        before ++ js "[[" ++ displayText ++ js "]]" ++ after
    | None => result
    end.

(** The sort key of a suggestion: the first offset of its target text
    in the content, both lowered; [-1] when absent. *)
Definition position (content : list ascii) (link : SuggestedLink) : Z :=
  indexOf (toLowerCase (targetText link)) (toLowerCase content).

(** [[...links].sort((a, b) => posB - posA)]: a stable sort by
    descending position. *)
Fixpoint insertLink (content : list ascii) (a : SuggestedLink)
    (sorted : list SuggestedLink) : list SuggestedLink :=
  match sorted with
  | [] => [a]
  | b :: rest =>
      if (position content b <=? position content a)%Z
      then a :: b :: rest
      else b :: insertLink content a rest
  end.

Definition sortLinks (content : list ascii) (links : list SuggestedLink)
    : list SuggestedLink :=
  foldr (fun a sorted => insertLink content a sorted) [] links.

Definition applyLinks (content : list ascii) (links : list SuggestedLink)
    : list ascii :=
  fold_left applyLink (sortLinks content links) content.

(** *** String.prototype.replace *)

Definition digitValue (c : ascii) : nat := N.to_nat (code c - 48).

Definition capture (captures : list (option (list ascii))) (n : nat)
    : list ascii :=
  match captures !! (n - 1) with
  | Some (Some group) => group
  | _ => []
  end.

(** [GetSubstitution] of ECMAScript for a pattern without named groups:
    the replacement text of one match, with [$$], [$&], [$`], [$'],
    [$n] and [$nn] expanded.  A two-digit index beyond the number of
    groups is read as a one-digit index followed by a digit; an index
    that names no group stays as written. *)
Fixpoint getSubstitution (matched before after : list ascii)
    (captures : list (option (list ascii))) (template : list ascii)
    : list ascii :=
  let go := getSubstitution matched before after captures in
  let m := length captures in
  match template with
  | [] => []
  | c :: rest =>
      if negb (ceqb c "$") then c :: go rest
      else
        match rest with
        | [] => [c]
        | d :: rest' =>
            if ceqb d "$" then "$"%char :: go rest'
            else if ceqb d "`" then before ++ go rest'
            else if ceqb d "&" then matched ++ go rest'
            else if ceqb d "'" then after ++ go rest'
            else if isDigit d then
              let one :=
                if (1 <=? digitValue d) && (digitValue d <=? m)
                then capture captures (digitValue d) ++ go rest'
                else c :: d :: go rest' in
              match rest' with
              | e :: rest'' =>
                  if isDigit e then
                    let index := 10 * digitValue d + digitValue e in
                    if m <? index then one
                    else if 1 <=? index
                         then capture captures index ++ go rest''
                         else c :: d :: e :: go rest''
                  else one
              | [] => one
              end
            else c :: go rest
        end
  end.

(** *** Tags *)

(** [content.match(/^---\n([\s\S]*?)\n---/)]: the capture and the text
    after the match.  There is no [m] flag, so the match starts the
    content, and the lazy group ends at the first line feed followed by
    three dashes. *)
Definition frontmatterMatch (content : list ascii)
    : option (list ascii * list ascii) :=
  if startsWith (js "---" ++ [LF]) content then
    let body := drop 4 content in
    match find (LF :: js "---") body with
    | Some i => Some (take i body, drop (i + 4) body)
    | None => None
    end
  else None.

(** The first offset at which [p] starts a line ([^] with the [m]
    flag: the start of the text or just after a line terminator). *)
Fixpoint findAtLineStart (p : list ascii) (lineStart : bool)
    (s : list ascii) : option nat :=
  if lineStart && startsWith p s then Some 0
  else match s with
       | [] => None
       | c :: s' => S <$> findAtLineStart p (isLineTerminator c) s'
       end.

(** [.*] followed by [$] with the [m] flag: up to the end of the line. *)
Fixpoint lineOf (s : list ascii) : list ascii :=
  match s with
  | [] => []
  | c :: s' => if isLineTerminator c then [] else c :: lineOf s'
  end.

(** The capture of [/^tags:\s*(\[.*?\]|.*?)$/m] in the header: [\s*]
    takes all the white space after the colon, line terminators
    included.  From there the first alternative succeeds exactly when
    the rest of the line opens with a bracket and ends with a closing
    one, and then captures the rest of the line; otherwise the second
    alternative captures the rest of the line.  Either way the capture
    is the rest of the line, and [\s*] never gives anything back since
    the second alternative cannot fail. *)
Definition tagsField (header : list ascii) : option (list ascii) :=
  (fun i => lineOf (trimStart (drop (i + 5) header)))
    <$> findAtLineStart (js "tags:") true header.

(** [value.slice(1, -1)]. *)
Definition slice1m1 (value : list ascii) : list ascii :=
  removelast (tail value).


Definition parseFrontmatterTags (value : list ascii) : list (list ascii) :=
  if startsWith (js "[") value then
    List.filter nonEmpty (map trim (split "," (slice1m1 value)))
  else
    List.filter nonEmpty [trim value].

(** [[a-zA-Z0-9_/-]]. *)
Definition isTagChar (c : ascii) : bool :=
  isLetter c || isDigit c || ceqb c "_" || ceqb c "/" || ceqb c "-".

Fixpoint tagRun (s : list ascii) : list ascii :=
  match s with
  | c :: s' => if isTagChar c then c :: tagRun s' else []
  | [] => []
  end.

(** One attempt of [inlineTagRegex] at the head of [s]: the start of the
    content or one white space, then [#], then the capture, a letter
    followed by the longest run of [[a-zA-Z0-9_/-]].  The result is the
    capture and the length of the match; [atStart] tells whether the
    head of [s] is the start of the content. *)
Definition inlineTagAt (atStart : bool) (s : list ascii)
    : option (list ascii * nat) :=
  match s with
  | c :: s' =>
      if atStart && ceqb c "#" then
        match s' with
        | l :: s'' =>
            if isLetter l then Some (l :: tagRun s'', 2 + length (tagRun s''))
            else None
        | [] => None
        end
      else if isSpace c then
        match s' with
        | h :: l :: s'' =>
            if ceqb h "#" && isLetter l
            then Some (l :: tagRun s'', 3 + length (tagRun s''))
            else None
        | _ => None
        end
      else None
  | [] => None
  end.

(** The captures of the successive [inlineTagRegex.exec(content)] under
    the [g] flag: [skip] code units still belong to the previous match. *)
Fixpoint inlineTagMatches (atStart : bool) (skip : nat) (s : list ascii)
    : list (list ascii) :=
  match s with
  | [] => []
  | _ :: s' =>
      match skip with
      | S k => inlineTagMatches false k s'
      | O =>
          match inlineTagAt atStart s with
          | Some (name, len) => name :: inlineTagMatches false (len - 1) s'
          | None => inlineTagMatches false 0 s'
          end
      end
  end.

Definition extractExistingTags (content : list ascii) : list (list ascii) :=
  let headerTags :=
    match frontmatterMatch content with
    | Some (header, _) =>
        match tagsField header with
        | Some value => parseFrontmatterTags value
        | None => []
        end
    | None => []
    end in
  headerTags ++ inlineTagMatches true 0 content.

(** [frontmatter.replace(/^tags:.*$/m, newTagsLine)]: the first line that
    starts with [tags:] is replaced; the pattern has no group. *)
Definition replaceTagsLine (header newTagsLine : list ascii) : list ascii :=
  match findAtLineStart (js "tags:") true header with
  | Some i =>
      let matched := js "tags:" ++ lineOf (drop (i + 5) header) in
      let before := take i header in
      let after := drop (i + length matched) header in
      before ++ getSubstitution matched before after [] newTagsLine ++ after
  | None => header
  end.

Definition tagsLine (tags : list (list ascii)) : list ascii :=
  js "tags: [" ++ join (js ", ") tags ++ js "]".

Definition addFrontmatterTags (content : list ascii)
    (tags : list (list ascii)) : list ascii :=
  match frontmatterMatch content with
  | Some (header, rest) =>
      let frontmatter :=
        match tagsField header with
        | Some value =>
            let existingTags := parseFrontmatterTags value in
            let existingLower := map toLowerCase existingTags in
            let newTags :=
              List.filter
                (fun t => negb (existsb (streq (toLowerCase t)) existingLower))
                tags in
            let allTags := existingTags ++ newTags in
            replaceTagsLine header (tagsLine allTags)
        | None => header ++ [LF] ++ tagsLine tags
        end in
      (* [content.replace(frontmatterRegex, `---\n${frontmatter}\n---`)] *)
      let matched := js "---" ++ [LF] ++ header ++ [LF] ++ js "---" in
      getSubstitution matched [] rest [Some header]
        (js "---" ++ [LF] ++ frontmatter ++ [LF] ++ js "---")
      ++ rest
  | None =>
      js "---" ++ [LF] ++ tagsLine tags ++ [LF] ++ js "---" ++ [LF; LF]
      ++ content
  end.

(** [tag.tag.startsWith('#') ? tag.tag.slice(1) : tag.tag]. *)
Definition tagName (t : SuggestedTag) : list ascii :=
  if startsWith (js "#") (tag t) then drop 1 (tag t) else tag t.

Definition tagExists (existingTags : list (list ascii)) (name : list ascii)
    : bool :=
  existsb (fun t => streq (toLowerCase t) (toLowerCase name)) existingTags.

Definition applyTags (content : list ascii) (tags : list SuggestedTag)
    : list ascii :=
  let existingTags := extractExistingTags content in
  let fresh :=
    List.filter (fun t => negb (tagExists existingTags (tagName t))) tags in
  let frontmatterTags :=
    map tagName (List.filter (fun t => isFrontmatter (location t)) fresh) in
  let inlineTags :=
    map (fun t => js "#" ++ tagName t)
        (List.filter (fun t => negb (isFrontmatter (location t))) fresh) in
  let result :=
    if nonEmpty frontmatterTags then addFrontmatterTags content frontmatterTags
    else content in
  if nonEmpty inlineTags
  then trimEnd result ++ [LF; LF] ++ join (js " ") inlineTags
  else result.

End VaultOperations.

(* ================================================================== *)
(** ** The link filter ([LinkingEngine]) *)
(* ================================================================== *)

Module LinkingEngine.

(** One attempt of [/\[\[([^\]]+)\]\]/] at the head of [s]: the whole
    match.  The greedy run takes every code unit up to the first
    closing bracket and cannot give any back. *)
Fixpoint linkRun (s : list ascii) : option (list ascii) :=
  match s with
  | [] => None
  | c :: s' =>
      if ceqb c "]" then
        match s' with
        | d :: _ => if ceqb d "]" then Some [] else None
        | [] => None
        end
      else (fun run => c :: run) <$> linkRun s'
  end.

Definition linkAt (s : list ascii) : option (list ascii) :=
  match s with
  | c :: d :: s' =>
      if ceqb c "[" && ceqb d "[" then
        match linkRun s' with
        | Some (x :: run) => Some (js "[[" ++ (x :: run) ++ js "]]")
        | _ => None
        end
      else None
  | _ => None
  end.

(** The successive results of [linkRegex.exec(content)] under the [g]
    flag: [skip] code units still belong to the previous match. *)
Fixpoint linkMatches (skip : nat) (s : list ascii) : list (list ascii) :=
  match s with
  | [] => []
  | _ :: s' =>
      match skip with
      | S k => linkMatches k s'
      | O =>
          match linkAt s with
          | Some m => m :: linkMatches (length m - 1) s'
          | None => linkMatches 0 s'
          end
      end
  end.

Definition isInsideLink (content : list ascii) (link : SuggestedLink) : bool :=
  existsb
    (fun m => includes (toLowerCase (targetText link)) (toLowerCase m))
    (linkMatches 0 content).

(** The decision taken for one suggestion in the loop of [filterLinks]:
    [true] sends it to [toApply], [false] to [toSkip]. *)
Definition acceptLink (confidenceThreshold : num) (content : list ascii)
    (existingNotes : list (list ascii)) (link : SuggestedLink) : bool :=
  if Num.lt (link_confidence link) confidenceThreshold then false
  else if negb (existsb (streq (linkTarget link)) existingNotes) then false
  else if includes (js "[[" ++ linkTarget link ++ js "]]") content then false
  else if negb (includes (toLowerCase (targetText link)) (toLowerCase content))
  then false
  else if isInsideLink content link then false
  else true.

Record LinkFilterResult : Type := {
  toApply : list SuggestedLink;
  toSkip : list SuggestedLink
}.

Definition filterLinks (confidenceThreshold : num)
    (links : list SuggestedLink) (content : list ascii)
    (existingNotes : list (list ascii)) : LinkFilterResult :=
  fold_left
    (fun acc link =>
       if acceptLink confidenceThreshold content existingNotes link
       then {| toApply := toApply acc ++ [link]; toSkip := toSkip acc |}
       else {| toApply := toApply acc; toSkip := toSkip acc ++ [link] |})
    links {| toApply := []; toSkip := [] |}.

End LinkingEngine.


(* ================================================================== *)
(** ** The tag filter ([TaggingEngine]) *)
(* ================================================================== *)

Record VaultContext : Type := {
  existingNotes : list (list ascii);
  existingTags : list (list ascii);
  predefinedTags : list (list ascii);
  whitelistWords : list (list ascii);
  blacklistWords : list (list ascii)
}.

Module TaggingEngine.

(** The capture of [tagsMatch]: its pattern differs from the one of
    [tagsField] only in the group, here a greedy run of [.] up to [$],
    so the capture is again the rest of the line after the white space
    that follows the colon. *)
Definition isTagInFrontmatter (content tagWithoutHash : list ascii) : bool :=
  match VaultOperations.frontmatterMatch content with
  | None => false
  | Some (header, _) =>
      match VaultOperations.tagsField header with
      | None => false
      | Some tagsLine =>
          includes (toLowerCase tagWithoutHash) (toLowerCase tagsLine)
      end
  end.

(** [tag.tag.startsWith('#') ? tag.tag : `#${tag.tag}`]. *)
Definition normalizedTag (t : SuggestedTag) : list ascii :=
  if startsWith (js "#") (tag t) then tag t else js "#" ++ tag t.

(** The decision taken for one suggestion in the loop of [filterTags]. *)
Definition acceptTag (confidenceThreshold : num) (allowNewTags : bool)
    (content : list ascii) (context : VaultContext) (t : SuggestedTag)
    : bool :=
  let normalized := normalizedTag t in
  if Num.lt (tag_confidence t) confidenceThreshold then false
  else if includes normalized content then false
  else if isTagInFrontmatter content (drop 1 normalized) then false
  else if existsb
            (fun w => includes (toLowerCase w) (toLowerCase normalized))
            (blacklistWords context)
  then false
  else if negb allowNewTags then
    let existsInVault := existsb (streq normalized) (existingTags context) in
    let isPredefined :=
      existsb
        (fun p => streq (toLowerCase p) (toLowerCase normalized)
                  || streq (toLowerCase p) (toLowerCase (drop 1 normalized)))
        (predefinedTags context) in
    if negb existsInVault && negb isPredefined then false else true
  else true.

Record TagFilterResult : Type := {
  toApply : list SuggestedTag;
  toSkip : list SuggestedTag
}.

Definition filterTags (confidenceThreshold : num) (allowNewTags : bool)
    (tags : list SuggestedTag) (content : list ascii)
    (context : VaultContext) : TagFilterResult :=
  fold_left
    (fun acc t =>
       if acceptTag confidenceThreshold allowNewTags content context t
       then {| toApply := toApply acc ++ [t]; toSkip := toSkip acc |}
       else {| toApply := toApply acc; toSkip := toSkip acc ++ [t] |})
    tags {| toApply := []; toSkip := [] |}.

(** [setConfidenceThreshold]: the threshold is clamped on the way in. *)
Definition setConfidenceThreshold (threshold : num) : num :=
  Num.max Num.zero (Num.min Num.one threshold).

End TaggingEngine.

(* ================================================================== *)
(** ** The change log ([ChangelogService]) *)
(* ================================================================== *)

Module ChangelogService.

Inductive ChangeType : Type :=
| link_added | tag_added | content_modified | file_renamed | file_moved.

Inductive ChangeDetails : Type :=
| LinkAddedDetails (originalText linkTarget : list ascii) (line start stop : Z)
| TagAddedDetails (tag : list ascii) (location : TagLocation)
| ContentModifiedDetails (summary : list ascii)
| FileRenamedDetails (oldName newName : list ascii)
| FileMovedDetails (oldPath newPath : list ascii).

Record ChangeEntry : Type := {
  id : string;
  timestamp : Z;
  type : ChangeType;
  filePath : string;
  description : list ascii;
  beforeContent : option (list ascii);
  afterContent : option (list ascii);
  details : ChangeDetails
}.

Record ChangelogSession : Type := {
  sessionId : string;
  startTime : Z;
  endTime : option Z;
  changes : list ChangeEntry
}.

Record ChangelogStorage : Type := {
  version : Z;
  sessions : list ChangelogSession
}.

(** What [vault.getAbstractFileByPath] finds at a path: a file with its
    content, or a folder.  [TLogFile stored] is the [TFile] whose content
    is the text [JSON.stringify(stored, null, 2)], the only text that
    [saveChangelog] writes; [JSON.parse] reads [stored] back from it. *)
Inductive TAbstractFile : Type :=
| TFile (content : list ascii)
| TLogFile (stored : ChangelogStorage)
| TFolder.

(** The service together with the vault it works on. *)
Record state : Type := {
  vault : gmap string TAbstractFile;
  currentSession : option ChangelogSession;
  storage : ChangelogStorage
}.

Definition CHANGELOG_FOLDER : string := ".vault-steward".
Definition CHANGELOG_FILE : string := "changelog.json".

(** [`${CHANGELOG_FOLDER}/${CHANGELOG_FILE}`]. *)
Definition changelogPath : string :=
  CHANGELOG_FOLDER +:+ "/" +:+ CHANGELOG_FILE.

Definition MAX_SESSIONS : nat := 50.

(** The storage that the change log file holds, when the service has
    written one. *)
Definition persisted (st : state) : option ChangelogStorage :=
  match vault st !! changelogPath with
  | Some (TLogFile stored) => Some stored
  | _ => None
  end.

(** [saveChangelog]: [vault.modify] when the path holds a file,
    [vault.create] otherwise.  [create] fails when the path holds a
    folder; nothing is written then, and the error that the call raises
    there is not followed further. *)
Definition saveChangelog (st : state) : state :=
  match vault st !! changelogPath with
  | Some TFolder => st
  | _ =>
      {| vault := <[changelogPath := TLogFile (storage st)]> (vault st);
         currentSession := currentSession st;
         storage := storage st |}
  end.

(** [`${Date.now()}-${Math.random().toString(36).substr(2, 9)}`]: the
    clock reading [now] and the random suffix [random] come from the
    environment. *)
Definition generateId (now : Z) (random : string) : string :=
  pretty now +:+ "-" +:+ random.

Definition withSessions (sessions' : list ChangelogSession)
    (s : ChangelogStorage) : ChangelogStorage :=
  {| version := version s; sessions := sessions' |}.

Definition withChanges (changes' : list ChangeEntry)
    (s : ChangelogSession) : ChangelogSession :=
  {| sessionId := sessionId s; startTime := startTime s;
     endTime := endTime s; changes := changes' |}.

Definition startSession (now : Z) (random : string) (startNow : Z)
    (st : state) : string * state :=
  let sessionId := generateId now random in
  (sessionId,
   {| vault := vault st;
      currentSession :=
        Some {| sessionId := sessionId; startTime := startNow;
                endTime := None; changes := [] |};
      storage := storage st |}).

(** [sessions.slice(-MAX_SESSIONS)]. *)
Definition lastSessions (sessions : list ChangelogSession)
    : list ChangelogSession :=
  drop (length sessions - MAX_SESSIONS) sessions.

Definition endSession (now : Z) (st : state) : state :=
  match currentSession st with
  | Some session =>
      let session :=
        {| sessionId := sessionId session; startTime := startTime session;
           endTime := Some now; changes := changes session |} in
      if 0 <? length (changes session) then
        let pushed := sessions (storage st) ++ [session] in
        let pruned :=
          if MAX_SESSIONS <? length pushed then lastSessions pushed
          else pushed in
        let saved :=
          saveChangelog
            {| vault := vault st; currentSession := Some session;
               storage := withSessions pruned (storage st) |} in
        {| vault := vault saved; currentSession := None;
           storage := storage saved |}
      else
        {| vault := vault st; currentSession := None;
           storage := storage st |}
  | None => st
  end.

Definition pushChange (entry : ChangeEntry) (st : state) : state :=
  match currentSession st with
  | Some session =>
      {| vault := vault st;
         currentSession := Some (withChanges (changes session ++ [entry]) session);
         storage := storage st |}
  | None => st
  end.

Definition recordBefore (now : Z) (random : string) (stamp : Z)
    (filePath : string) (content : list ascii) (st : state)
    : string * state :=
  let changeId := generateId now random in
  (changeId,
   pushChange
     {| id := changeId; timestamp := stamp; type := content_modified;
        filePath := filePath; description := js "Pending...";
        beforeContent := Some content; afterContent := None;
        details := ContentModifiedDetails [] |}
     st).

Definition hasId (changeId : string) (c : ChangeEntry) : bool :=
  bool_decide (id c = changeId).

(** [changes.find(c => c.id === changeId)] followed by the assignments to
    the entry found: the first entry with that id is completed in place. *)
Fixpoint completeChange (changeId : string) (afterContent : list ascii)
    (type : ChangeType) (description : list ascii) (details : ChangeDetails)
    (changes : list ChangeEntry) : list ChangeEntry :=
  match changes with
  | [] => []
  | c :: rest =>
      if hasId changeId c then
        {| id := id c; timestamp := timestamp c; type := type;
           filePath := filePath c; description := description;
           beforeContent := beforeContent c;
           afterContent := Some afterContent; details := details |} :: rest
      else c :: completeChange changeId afterContent type description details rest
  end.

Definition recordAfter (changeId : string) (afterContent : list ascii)
    (type : ChangeType) (description : list ascii) (details : ChangeDetails)
    (st : state) : state :=
  match currentSession st with
  | None => st
  | Some session =>
      {| vault := vault st;
         currentSession :=
           Some (withChanges
                   (completeChange changeId afterContent type description
                      details (changes session))
                   session);
         storage := storage st |}
  end.

Definition recordChange (now : Z) (random : string) (stamp : Z)
    (filePath : string) (type : ChangeType) (description : list ascii)
    (details : ChangeDetails) (beforeContent afterContent : option (list ascii))
    (st : state) : string * state :=
  let changeId := generateId now random in
  (changeId,
   pushChange
     {| id := changeId; timestamp := stamp; type := type;
        filePath := filePath; description := description;
        beforeContent := beforeContent; afterContent := afterContent;
        details := details |}
     st).

Definition getSession (sessionId' : string) (st : state)
    : option ChangelogSession :=
  List.find (fun s => bool_decide (sessionId s = sessionId')) (sessions (storage st)).

(** The loop at the head of [rollbackChange]: the first session one of
    whose changes has the id, with the first such change. *)
Fixpoint findChange (changeId : string) (sessions : list ChangelogSession)
    : option (ChangeEntry * ChangelogSession) :=
  match sessions with
  | [] => None
  | session :: rest =>
      match List.find (hasId changeId) (changes session) with
      | Some change => Some (change, session)
      | None => findChange changeId rest
      end
  end.

(** [targetSession.changes = targetSession.changes.filter(...)]: the
    session found by [findChange] is an element of [storage.sessions],
    and the assignment shows there. *)
Fixpoint removeChange (changeId : string) (sessions : list ChangelogSession)
    : list ChangelogSession :=
  match sessions with
  | [] => []
  | session :: rest =>
      match List.find (hasId changeId) (changes session) with
      | Some _ =>
          withChanges
            (List.filter (fun c => negb (hasId changeId c)) (changes session))
            session
          :: rest
      | None => session :: removeChange changeId rest
      end
  end.

(** The truth value of an optional string: [undefined] and the empty
    string are both falsy. *)
Definition truthy (content : option (list ascii)) : option (list ascii) :=
  match content with
  | Some (c :: s) => Some (c :: s)
  | _ => None
  end.

(** The end of both rollbacks: the notes have been written, the sessions
    kept are assigned to [storage.sessions], and [saveChangelog] runs. *)
Definition save (sessions' : list ChangelogSession) (vault' : gmap string TAbstractFile)
    (st : state) : state :=
  saveChangelog
    {| vault := vault'; currentSession := currentSession st;
       storage := withSessions sessions' (storage st) |}.

Definition rollbackChange (changeId : string) (st : state) : bool * state :=
  match findChange changeId (sessions (storage st)) with
  | None => (false, st)
  | Some (targetChange, _) =>
      match truthy (beforeContent targetChange) with
      | None => (false, st)
      | Some before =>
          match vault st !! filePath targetChange with
          | Some (TFile _ | TLogFile _) =>
              let restored := <[filePath targetChange := TFile before]> (vault st) in
              let removed := removeChange changeId (sessions (storage st)) in
              let kept := List.filter (fun s => 0 <? length (changes s)) removed in
              (true, save kept restored st)
          | _ => (false, st)
          end
      end
  end.

(** The body of the loop of [rollbackSession] for one change: the vault
    and the count after it. *)
Definition rollbackOne (acc : gmap string TAbstractFile * nat)
    (change : ChangeEntry) : gmap string TAbstractFile * nat :=
  match truthy (beforeContent change) with
  | Some before =>
      match acc.1 !! filePath change with
      | Some (TFile _ | TLogFile _) =>
          (<[filePath change := TFile before]> acc.1, S acc.2)
      | _ => acc
      end
  | None => acc
  end.

Definition rollbackSession (sessionId' : string) (st : state) : nat * state :=
  match getSession sessionId' st with
  | None => (0, st)
  | Some session =>
      let changesToRollback := rev (changes session) in
      let '(restored, rolledBack) :=
        fold_left rollbackOne changesToRollback (vault st, 0) in
      let kept :=
        List.filter (fun s => negb (bool_decide (sessionId s = sessionId')))
                    (sessions (storage st)) in
      (rolledBack, save kept restored st)
  end.

(** [vault.modify(file, content)] as the patch engines call it. *)
Definition writeNote (path : string) (content : list ascii) (st : state)
    : state :=
  match vault st !! path with
  | Some (TFile _ | TLogFile _) =>
      {| vault := <[path := TFile content]> (vault st);
         currentSession := currentSession st;
         storage := storage st |}
  | _ => st
  end.

(** [loadChangelog], called by [initialize]: the storage is read back from
    the change log file when there is one.  A file at that path whose text
    the service did not write is read as one that [JSON.parse] refuses. *)
Definition loadChangelog (st : state) : state :=
  match vault st !! changelogPath with
  | Some (TLogFile stored) =>
      {| vault := vault st; currentSession := currentSession st;
         storage := stored |}
  | Some (TFile _) =>
      {| vault := vault st; currentSession := currentSession st;
         storage := {| version := 1; sessions := [] |} |}
  | _ => st
  end.

(** [ensureChangelogFolder]: the folder is created when nothing is at its
    path. *)
Definition ensureChangelogFolder (st : state) : state :=
  match vault st !! CHANGELOG_FOLDER with
  | None =>
      {| vault := <[CHANGELOG_FOLDER := TFolder]> (vault st);
         currentSession := currentSession st;
         storage := storage st |}
  | Some _ => st
  end.

Definition initialize (st : state) : state :=
  loadChangelog (ensureChangelogFolder st).

End ChangelogService.

(* ================================================================== *)
(** ** The oracle response ([ClaudeService]) *)
(* ================================================================== *)

Module ClaudeService.

#[local] Set Warnings "-register-all".

(** The strings of a parsed response are lists of 16-bit code units: in a
    string literal an escape [\uXXXX] names any of them, also those above
    [00FF], where the characters of the response text itself lie. *)
Definition wide (s : list ascii) : list N := map code s.

(** A value as [JSON.parse] builds it.  The members of an object are in
    source order; a later member with the same name overrides.
    [JMinusZero] is the number [-0], which [JSON.parse] builds from
    literals such as [-0] or [-1e-400]. *)
Inductive json : Type :=
| JNull
| JBool (b : bool)
| JNumber (n : num)
| JMinusZero
| JString (s : list N)
| JArray (items : list json)
| JObject (members : list (list N * json)).

(** The outcome of an evaluation that may throw. *)
Inductive completion (A : Type) : Type :=
| Normal (a : A)
| Throw.
Arguments Normal {A} a.
Arguments Throw {A}.

Definition bind {A B : Type} (c : completion A) (k : A -> completion B)
    : completion B :=
  match c with
  | Normal a => k a
  | Throw => Throw
  end.

Notation "'let!' x := c 'in' k" := (bind c (fun x => k))
  (at level 10, x name, c at level 100, k at level 200).

Fixpoint mapThrow {A B : Type} (f : A -> completion B) (l : list A)
    : completion (list B) :=
  match l with
  | [] => Normal []
  | a :: rest =>
      let! b := f a in
      let! bs := mapThrow f rest in
      Normal (b :: bs)
  end.

(** *** JSON.parse *)

Definition isJsonSpace (c : ascii) : bool :=
  ceqb c " " || ceqb c "009" || ceqb c "010" || ceqb c "013".

Fixpoint skipSpace (s : list ascii) : list ascii :=
  match s with
  | c :: s' => if isJsonSpace c then skipSpace s' else s
  | [] => []
  end.

Definition hexValue (c : ascii) : option N :=
  let n := code c in
  if isDigit c then Some (n - 48)%N
  else if ((97 <=? n) && (n <=? 102))%N then Some (n - 87)%N
  else if ((65 <=? n) && (n <=? 70))%N then Some (n - 55)%N
  else None.

(** The code unit of a single-character escape. *)
Definition unescape (c : ascii) : option ascii :=
  if ceqb c DQ then Some DQ
  else if ceqb c "\" then Some "\"%char
  else if ceqb c "/" then Some "/"%char
  else if ceqb c "b" then Some "008"%char
  else if ceqb c "f" then Some "012"%char
  else if ceqb c "n" then Some "010"%char
  else if ceqb c "r" then Some "013"%char
  else if ceqb c "t" then Some "009"%char
  else None.

Definition consFst {A B : Type} (c : A) (r : list A * B)
    : list A * B := (c :: r.1, r.2).

(** The code units of a string literal after its opening quote, and the
    text after the closing quote.  An escape [\uXXXX] stands for the code
    unit [XXXX], whatever it is; a surrogate is kept as it is written. *)
Fixpoint parseChars (s : list ascii) : option (list N * list ascii) :=
  match s with
  | [] => None
  | c :: s' =>
      if ceqb c DQ then Some ([], s')
      else if ceqb c "\" then
        match s' with
        | e :: s'' =>
            if ceqb e "u" then
              match s'' with
              | h1 :: h2 :: h3 :: h4 :: s''' =>
                  match hexValue h1, hexValue h2, hexValue h3, hexValue h4 with
                  | Some a, Some b, Some c', Some d =>
                      consFst (((a * 16 + b) * 16 + c') * 16 + d)%N
                        <$> parseChars s'''
                  | _, _, _, _ => None
                  end
              | _ => None
              end
            else
              match unescape e with
              | Some u => consFst (code u) <$> parseChars s''
              | None => None
              end
        | [] => None
        end
      else if (code c <? 32)%N then None
      else consFst (code c) <$> parseChars s'
  end.

Fixpoint digitRun (s : list ascii) : list ascii * list ascii :=
  match s with
  | c :: s' => if isDigit c then consFst c (digitRun s') else ([], s)
  | [] => ([], [])
  end.

Definition digitsValue (ds : list ascii) : Z :=
  fold_left (fun acc d => (acc * 10 + Z.of_N (code d - 48))%Z) ds 0%Z.

(** [x * 2 ^ k] for [0 <= k], and [x] otherwise. *)
Definition scale2 (x k : Z) : Z :=
  if (0 <=? k)%Z then (x * 2 ^ k)%Z else x.

(** The integer nearest to [a / b], the even one of two that are equally
    near. *)
Definition roundHalfEven (a b : Z) : Z :=
  let q := (a / b)%Z in
  let r := (a mod b)%Z in
  if (2 * r <? b)%Z then q
  else if (b <? 2 * r)%Z then (q + 1)%Z
  else if Z.even q then q
  else (q + 1)%Z.

(** The double nearest to [a / b], for [0 <= a] and [0 < b]: the Number
    value of IEEE 754 binary64, round to nearest, ties to even, which is
    how a decimal literal is read.  [e] is the binary exponent of [a / b]
    and [k] the exponent of the last place of a double of that size (53
    significant bits, and [-1074] for the subnormal ones); the result is
    [n * 2 ^ k], and [Infinity] from [2 ^ 1024] on. *)
Definition toDouble (a b : Z) : num :=
  if (a =? 0)%Z then Fin 0
  else
    let e0 := (Z.log2 a - Z.log2 b)%Z in
    let e := if (scale2 b e0 <=? scale2 a (- e0))%Z then e0 else (e0 - 1)%Z in
    let k := Z.max (e - 52) (-1074) in
    let n := roundHalfEven (scale2 a (- k)) (scale2 b k) in
    if (0 <=? k)%Z then
      if (2 ^ 1024 <=? n * 2 ^ k)%Z then PInf
      else Fin (inject_Z (n * 2 ^ k))
    else Fin (Qred (Qmake n (Z.to_pos (2 ^ (- k))))).

(** The Number value of the literal [mantissa * 10 ^ exponent], with its
    sign. *)
Definition numberValue (negative : bool) (mantissa exponent : Z) : json :=
  let double :=
    if (0 <=? exponent)%Z then toDouble (mantissa * 10 ^ exponent) 1
    else toDouble mantissa (10 ^ (- exponent)) in
  match double with
  | Fin q =>
      if Qeq_bool q 0 then (if negative then JMinusZero else JNumber (Fin 0))
      else JNumber (Fin (if negative then Qopp q else q))
  | PInf => JNumber (if negative then NInf else PInf)
  | other => JNumber other
  end.

(** A number literal at the head of [s], and the text after it. *)
Definition parseNumber (s : list ascii) : option (json * list ascii) :=
  let '(negative, s1) :=
    match s with
    | c :: s' => if ceqb c "-" then (true, s') else (false, s)
    | [] => (false, s)
    end in
  let '(int, s2) := digitRun s1 in
  let intOk :=
    match int with
    | [] => false
    | [_] => true
    | d :: _ => negb (ceqb d "0")
    end in
  if negb intOk then None
  else
    let fracPart :=
      match s2 with
      | c :: s' =>
          if ceqb c "." then
            let '(frac, s3) := digitRun s' in
            if nonEmpty frac then Some (frac, s3) else None
          else Some ([], s2)
      | [] => Some ([], s2)
      end in
    match fracPart with
    | None => None
    | Some (frac, s3) =>
        let expPart :=
          match s3 with
          | c :: s' =>
              if ceqb c "e" || ceqb c "E" then
                let '(expNegative, s4) :=
                  match s' with
                  | g :: s'' =>
                      if ceqb g "-" then (true, s'')
                      else if ceqb g "+" then (false, s'')
                      else (false, s')
                  | [] => (false, s')
                  end in
                let '(ex, s5) := digitRun s4 in
                if nonEmpty ex
                then Some (if expNegative then (- digitsValue ex)%Z
                           else digitsValue ex, s5)
                else None
              else Some (0%Z, s3)
          | [] => Some (0%Z, s3)
          end in
        match expPart with
        | None => None
        | Some (exponent, rest) =>
            Some (numberValue negative (digitsValue (int ++ frac))
                    (exponent - Z.of_nat (length frac)),
                  rest)
        end
    end.

(** The elements of an array after its opening bracket, up to the closing
    one; [value] parses one element and [n] bounds their number. *)
Fixpoint parseElements (value : list ascii -> option (json * list ascii))
    (n : nat) (s : list ascii) : option (list json * list ascii) :=
  match n with
  | O => None
  | S n' =>
      match value (skipSpace s) with
      | None => None
      | Some (v, s1) =>
          match skipSpace s1 with
          | c :: s2 =>
              if ceqb c "," then
                (fun r => (v :: r.1, r.2)) <$> parseElements value n' s2
              else if ceqb c "]" then Some ([v], s2)
              else None
          | [] => None
          end
      end
  end.

(** The members of an object after its opening brace, up to the closing
    one. *)
Fixpoint parseMembers (value : list ascii -> option (json * list ascii))
    (n : nat) (s : list ascii)
    : option (list (list N * json) * list ascii) :=
  match n with
  | O => None
  | S n' =>
      match skipSpace s with
      | q :: s0 =>
          if ceqb q DQ then
            match parseChars s0 with
            | None => None
            | Some (key, s1) =>
                match skipSpace s1 with
                | c :: s2 =>
                    if ceqb c ":" then
                      match value (skipSpace s2) with
                      | None => None
                      | Some (v, s3) =>
                          match skipSpace s3 with
                          | d :: s4 =>
                              if ceqb d "," then
                                (fun r => ((key, v) :: r.1, r.2))
                                  <$> parseMembers value n' s4
                              else if ceqb d "}" then Some ([(key, v)], s4)
                              else None
                          | [] => None
                          end
                      end
                    else None
                | [] => None
                end
            end
          else None
      | [] => None
      end
  end.

(** One value at the head of [s] and the text after it; [fuel] bounds the
    nesting depth. *)
Fixpoint parseValue (fuel : nat) (s : list ascii) : option (json * list ascii) :=
  match fuel with
  | O => None
  | S fuel' =>
      match s with
      | [] => None
      | c :: s' =>
          if ceqb c "{" then
            match skipSpace s' with
            | d :: s'' =>
                if ceqb d "}" then Some (JObject [], s'')
                else (fun r => (JObject r.1, r.2))
                       <$> parseMembers (parseValue fuel') (length s) s'
            | [] => None
            end
          else if ceqb c "[" then
            match skipSpace s' with
            | d :: s'' =>
                if ceqb d "]" then Some (JArray [], s'')
                else (fun r => (JArray r.1, r.2))
                       <$> parseElements (parseValue fuel') (length s) s'
            | [] => None
            end
          else if ceqb c DQ then
            (fun r => (JString r.1, r.2)) <$> parseChars s'
          else if startsWith (js "true") s then Some (JBool true, drop 4 s)
          else if startsWith (js "false") s then Some (JBool false, drop 5 s)
          else if startsWith (js "null") s then Some (JNull, drop 4 s)
          else parseNumber s
      end
  end.

(** [JSON.parse(text)]: [None] stands for the [SyntaxError]. *)
Definition JSON_parse (text : list ascii) : option json :=
  match parseValue (S (length text)) (skipSpace text) with
  | Some (v, rest) =>
      match skipSpace rest with
      | [] => Some v
      | _ :: _ => None
      end
  | None => None
  end.

(** *** Reading the parsed value *)

(** [members[key]] on an object: the last member of that name. *)
Fixpoint getMember (key : list N) (members : list (list N * json))
    : option json :=
  match members with
  | [] => None
  | (k, v) :: rest =>
      match getMember key rest with
      | Some v' => Some v'
      | None => if bool_decide (k = key) then Some v else None
      end
  end.

(** [v.key] for one of the names read by this service: a [TypeError] on
    [null], [undefined] ([None]) on anything that is not an object. *)
Definition getProp (key : string) (v : json) : completion (option json) :=
  match v with
  | JNull => Throw
  | JObject members => Normal (getMember (wide (js key)) members)
  | _ => Normal None
  end.

(** [typeof x === 'string' ? x : ''].  *)
Definition stringOr (x : option json) : list N :=
  match x with
  | Some (JString s) => s
  | _ => []
  end.

(** [Math.min(1, Math.max(0, typeof x === 'number' ? x : 0.5))]; of [0]
    and [-0], [Math.max] returns [0]. *)
Definition clampConfidence (x : option json) : num :=
  let rawConfidence :=
    match x with
    | Some (JNumber n) => n
    | Some JMinusZero => Num.zero
    | _ => Num.half
    end in
  Num.min Num.one (Num.max Num.zero rawConfidence).

(** The object that [validateLink] returns: the fields of a
    [SuggestedLink], with the strings of the parsed response. *)
Module Link.
Record t : Type := {
  targetText : list N;
  linkTarget : list N;
  reasoning : list N;
  confidence : num
}.
End Link.

(** The object that [validateTag] returns. *)
Module Tag.
Record t : Type := {
  tag : list N;
  location : TagLocation;
  reasoning : list N;
  confidence : num
}.
End Tag.

Definition validateLink (link : json) : completion Link.t :=
  let! confidence := getProp "confidence" link in
  let! targetText := getProp "targetText" link in
  let! linkTarget := getProp "linkTarget" link in
  let! reasoning := getProp "reasoning" link in
  Normal {| Link.targetText := stringOr targetText;
            Link.linkTarget := stringOr linkTarget;
            Link.reasoning := stringOr reasoning;
            Link.confidence := clampConfidence confidence |}.

Definition validateTag (t : json) : completion Tag.t :=
  let! confidence := getProp "confidence" t in
  let! name := getProp "tag" t in
  let! loc := getProp "location" t in
  let! reasoning := getProp "reasoning" t in
  Normal {| Tag.tag := stringOr name;
            Tag.location :=
              match loc with
              | Some (JString s) =>
                  if bool_decide (s = wide (js "inline")) then inline
                  else frontmatter
              | _ => frontmatter
              end;
            Tag.reasoning := stringOr reasoning;
            Tag.confidence := clampConfidence confidence |}.

Record NoteAnalysisResult : Type := {
  suggestedLinks : list Link.t;
  suggestedTags : list Tag.t;
  keyConcepts : list json;
  summary : list N
}.

Definition emptyResult : NoteAnalysisResult :=
  {| suggestedLinks := []; suggestedTags := []; keyConcepts := []; summary := [] |}.

(** The offset of the last occurrence of [c]. *)
Fixpoint lastIndexOf (c : ascii) (s : list ascii) : option nat :=
  match s with
  | [] => None
  | d :: s' =>
      match lastIndexOf c s' with
      | Some i => Some (S i)
      | None => if ceqb d c then Some 0 else None
      end
  end.

(** [responseText.match(/\{[\s\S]*\}/)]: from the first opening brace, the
    greedy run reaches the last closing brace. *)
Definition jsonMatch (responseText : list ascii) : option (list ascii) :=
  match find (js "{") responseText with
  | None => None
  | Some i =>
      let fromBrace := drop i responseText in
      match lastIndexOf "}" fromBrace with
      | Some j => Some (take (S j) fromBrace)
      | None => None
      end
  end.

(** The object literal returned inside the [try] block, from the parsed
    value. *)
Definition buildResult (parsed : json) : completion NoteAnalysisResult :=
  let! links := getProp "suggestedLinks" parsed in
  let! links' := match links with
                 | Some (JArray items) => mapThrow validateLink items
                 | _ => Normal []
                 end in
  let! tags := getProp "suggestedTags" parsed in
  let! tags' := match tags with
                | Some (JArray items) => mapThrow validateTag items
                | _ => Normal []
                end in
  let! concepts := getProp "keyConcepts" parsed in
  let! summary := getProp "summary" parsed in
  Normal {| suggestedLinks := links';
            suggestedTags := tags';
            keyConcepts :=
              match concepts with
              | Some (JArray items) => items
              | _ => []
              end;
            summary := stringOr summary |}.

(** The [try] block of [parseAnalysisResponse]. *)
Definition parseBody (responseText : list ascii)
    : completion NoteAnalysisResult :=
  match jsonMatch responseText with
  | None => Throw
  | Some block =>
      match JSON_parse block with
      | None => Throw
      | Some parsed => buildResult parsed
      end
  end.

(** [parseAnalysisResponse]: the [catch] clause returns the empty result. *)
Definition parseAnalysisResponse (responseText : list ascii)
    : NoteAnalysisResult :=
  match parseBody responseText with
  | Normal result => result
  | Throw => emptyResult
  end.

End ClaudeService.


(* ================================================================== *)
(** * Vocabulary of the statements *)
(* ================================================================== *)

(** A confidence within [[0, 1]]. *)
Definition inUnit (n : num) : bool := Num.le Num.zero n && Num.le n Num.one.

(** The property [key] of a parsed value, [undefined] when it is not an
    object. *)
Definition field (key : string) (v : ClaudeService.json) : option ClaudeService.json :=
  match v with
  | ClaudeService.JObject members =>
      ClaudeService.getMember (ClaudeService.wide (js key)) members
  | _ => None
  end.

(** The elements of a property that is an array, none for any other
    property and for a missing one. *)
Definition elements (x : option ClaudeService.json) : list ClaudeService.json :=
  match x with
  | Some (ClaudeService.JArray items) => items
  | _ => []
  end.

(** *** JSON texts *)

(** A thing with the white space before and after it. *)
Definition padded (A : Type) : Type := (list ascii * A * list ascii)%type.

#[local] Set Warnings "-register-all".

(** A JSON text as a tree.  [DNumber] holds the sign of a number literal
    and the digits of its integer part, of its fraction and of its
    exponent; each element of an array and each name and value of an
    object comes with the white space around it, an empty array or
    object with the white space between its brackets. *)
Inductive doc : Type :=
| DNull
| DBool (b : bool)
| DNumber (negative : bool) (int frac : list ascii)
    (exponent : option (bool * list ascii))
| DString (s : list N)
| DArray (pad : list ascii) (items : list (padded doc))
| DObject (pad : list ascii)
    (members : list (padded (list N) * padded doc)).

Definition hexDigit (n : N) : ascii :=
  nth (N.to_nat n) (js "0123456789abcdef") "0"%char.

(** One code unit inside a string literal: the quote and the backslash
    after a backslash, the other code units from [0020] to [00FF] as
    they are, and every other one as [\uXXXX]. *)
Definition printUnit (u : N) : list ascii :=
  if ((u =? 34) || (u =? 92))%N then ["\"%char; ascii_of_N u]
  else if ((32 <=? u) && (u <? 256))%N then [ascii_of_N u]
  else ["\"%char; "u"%char; hexDigit (u / 4096); hexDigit (u / 256 mod 16);
        hexDigit (u / 16 mod 16); hexDigit (u mod 16)].

Definition printString (s : list N) : list ascii :=
  DQ :: flat_map printUnit s ++ [DQ].

Definition printNumber (negative : bool) (int frac : list ascii)
    (exponent : option (bool * list ascii)) : list ascii :=
  (if negative then js "-" else [])
  ++ int
  ++ match frac with
     | [] => []
     | _ :: _ => "."%char :: frac
     end
  ++ match exponent with
     | None => []
     | Some (expNegative, ex) =>
         "e"%char :: (if expNegative then js "-" else []) ++ ex
     end.

Fixpoint joinWith (sep : ascii) (l : list (list ascii)) : list ascii :=
  match l with
  | [] => []
  | x :: rest =>
      match rest with
      | [] => x
      | _ :: _ => x ++ sep :: joinWith sep rest
      end
  end.

Definition printPadded {A : Type} (f : A -> list ascii) (p : padded A)
    : list ascii :=
  p.1.1 ++ f p.1.2 ++ p.2.

(** The text of the tree. *)
Fixpoint print (d : doc) : list ascii :=
  match d with
  | DNull => js "null"
  | DBool b => if b then js "true" else js "false"
  | DNumber negative int frac exponent => printNumber negative int frac exponent
  | DString s => printString s
  | DArray pad items =>
      "["%char
      :: match items with
         | [] => pad
         | _ :: _ =>
             joinWith ","
               (map (fun '(w1, d', w2) => w1 ++ print d' ++ w2) items)
         end
      ++ ["]"%char]
  | DObject pad members =>
      "{"%char
      :: match members with
         | [] => pad
         | _ :: _ =>
             joinWith ","
               (map (fun '(key, (w1, d', w2)) =>
                       printPadded printString key
                       ++ ":"%char :: w1 ++ print d' ++ w2)
                    members)
         end
      ++ ["}"%char]
  end.

(** The value that the text stands for. *)
Fixpoint valueOf (d : doc) : ClaudeService.json :=
  match d with
  | DNull => ClaudeService.JNull
  | DBool b => ClaudeService.JBool b
  | DNumber negative int frac exponent =>
      ClaudeService.numberValue negative
        (ClaudeService.digitsValue (int ++ frac))
        (match exponent with
         | None => 0
         | Some (expNegative, ex) =>
             if expNegative then - ClaudeService.digitsValue ex
             else ClaudeService.digitsValue ex
         end - Z.of_nat (length frac))
  | DString s => ClaudeService.JString s
  | DArray _ items =>
      ClaudeService.JArray (map (fun '(_, d', _) => valueOf d') items)
  | DObject _ members =>
      ClaudeService.JObject
        (map (fun '((_, key, _), (_, d', _)) => (key, valueOf d')) members)
  end.

Definition isPad (w : list ascii) : bool := forallb ClaudeService.isJsonSpace w.

Definition isDigits (ds : list ascii) : bool := forallb isDigit ds.

Definition isUnits (s : list N) : bool := forallb (fun u => (u <? 65536)%N) s.

(** The tree is a JSON text: white space where white space is meant,
    digits where digits are, no leading zero, 16-bit code units. *)
Fixpoint wellFormed (d : doc) : bool :=
  match d with
  | DNull | DBool _ => true
  | DNumber _ int frac exponent =>
      isDigits int
      && match int with
         | [] => false
         | [_] => true
         | c :: _ => negb (ceqb c "0")
         end
      && isDigits frac
      && match exponent with
         | None => true
         | Some (_, ex) => isDigits ex && nonEmpty ex
         end
  | DString s => isUnits s
  | DArray pad items =>
      isPad pad
      && forallb (fun '(w1, d', w2) => isPad w1 && wellFormed d' && isPad w2)
                 items
  | DObject pad members =>
      isPad pad
      && forallb (fun '((k1, key, k2), (w1, d', w2)) =>
                    isPad k1 && isUnits key && isPad k2
                    && isPad w1 && wellFormed d' && isPad w2)
                 members
  end.

(** The nesting depth of the tree. *)
Fixpoint depth (d : doc) : nat :=
  match d with
  | DArray _ items => S (list_max (map (fun '(_, d', _) => depth d') items))
  | DObject _ members =>
      S (list_max (map (fun '(_, (_, d', _)) => depth d') members))
  | _ => 0
  end.

(** What may follow a value: nothing, white space, a comma or a closing
    bracket. *)
Definition delimited (rest : list ascii) : bool :=
  match rest with
  | [] => true
  | c :: _ =>
      ClaudeService.isJsonSpace c || ceqb c "," || ceqb c "]" || ceqb c "}"
  end.

(** A character that opens a value. *)
Definition opens (c : ascii) : bool :=
  ceqb c "{" || ceqb c "[" || ceqb c DQ || ceqb c "t" || ceqb c "f"
  || ceqb c "n" || ceqb c "-" || isDigit c.

(** No number inside the value is NaN; [JSON.parse] builds such values
    only. *)
Fixpoint noNaN (v : ClaudeService.json) : bool :=
  match v with
  | ClaudeService.JNumber NaN => false
  | ClaudeService.JArray items => forallb noNaN items
  | ClaudeService.JObject members => forallb (fun m => noNaN m.2) members
  | _ => true
  end.

(** The vault with the notes of [vault] whose change log file holds
    [stored] (no such file when there is none). *)
Definition withLog (stored : option ChangelogService.ChangelogStorage)
    (vault : gmap string ChangelogService.TAbstractFile)
    : gmap string ChangelogService.TAbstractFile :=
  match stored with
  | Some s =>
      <[ChangelogService.changelogPath := ChangelogService.TLogFile s]> vault
  | None => delete ChangelogService.changelogPath vault
  end.

(** [new ChangelogService(app)]: the service as its constructor leaves
    it. *)
Definition created (vault : gmap string ChangelogService.TAbstractFile)
    : ChangelogService.state :=
  {| ChangelogService.vault := vault;
     ChangelogService.currentSession := None;
     ChangelogService.storage :=
       {| ChangelogService.version := 1; ChangelogService.sessions := [] |} |}.

(** The service as its constructor leaves it, over the notes of [vault]
    and a change log file that holds [persisted] (no file when there is
    none). *)
Definition construct (vault : gmap string ChangelogService.TAbstractFile)
    (persisted : option ChangelogService.ChangelogStorage)
    : ChangelogService.state :=
  created (withLog persisted vault).

(** One call on the service, or one change made to the notes from
    outside.  [Restart] is the plugin loaded again: a new service, then
    [initialize]. *)
Inductive call : Type :=
| Restart
| StartSession (now : Z) (random : string) (startNow : Z)
| EndSession (now : Z)
| RecordBefore (now : Z) (random : string) (stamp : Z) (filePath : string)
    (content : list ascii)
| RecordAfter (changeId : string) (afterContent : list ascii)
    (type : ChangelogService.ChangeType) (description : list ascii)
    (details : ChangelogService.ChangeDetails)
| RecordChange (now : Z) (random : string) (stamp : Z) (filePath : string)
    (type : ChangelogService.ChangeType) (description : list ascii)
    (details : ChangelogService.ChangeDetails)
    (beforeContent afterContent : option (list ascii))
| RollbackChange (changeId : string)
| RollbackSession (sessionId : string)
| WriteNote (path : string) (content : list ascii)
| SetNote (path : string) (node : option ChangelogService.TAbstractFile).

(** The notes are the files of the vault other than the change log file,
    which is the service's own: the patch engines write Markdown notes,
    and no change from outside is made to the change log file. *)
Definition isNote (path : string) : bool :=
  negb (bool_decide (path = ChangelogService.changelogPath)).

Definition exec (st : ChangelogService.state) (c : call) : ChangelogService.state :=
  match c with
  | Restart =>
      ChangelogService.initialize (created (ChangelogService.vault st))
  | StartSession now random startNow =>
      (ChangelogService.startSession now random startNow st).2
  | EndSession now => ChangelogService.endSession now st
  | RecordBefore now random stamp filePath content =>
      (ChangelogService.recordBefore now random stamp filePath content st).2
  | RecordAfter changeId afterContent type description details =>
      ChangelogService.recordAfter changeId afterContent type description
        details st
  | RecordChange now random stamp filePath type description details before after =>
      (ChangelogService.recordChange now random stamp filePath type description
         details before after st).2
  | RollbackChange changeId => (ChangelogService.rollbackChange changeId st).2
  | RollbackSession sessionId => (ChangelogService.rollbackSession sessionId st).2
  | WriteNote path content =>
      if isNote path then ChangelogService.writeNote path content st else st
  | SetNote path node =>
      if isNote path then
        {| ChangelogService.vault :=
             match node with
             | Some n => <[path := n]> (ChangelogService.vault st)
             | None => delete path (ChangelogService.vault st)
             end;
           ChangelogService.currentSession := ChangelogService.currentSession st;
           ChangelogService.storage := ChangelogService.storage st |}
      else st
  end.

Definition run (calls : list call) (st : ChangelogService.state)
    : ChangelogService.state :=
  fold_left exec calls st.

(** A call that records into the open session or touches the notes,
    leaving the session open. *)
Definition inSession (c : call) : bool :=
  match c with
  | RecordBefore _ _ _ _ _ | RecordAfter _ _ _ _ _
  | RecordChange _ _ _ _ _ _ _ _ _ | WriteNote _ _ | SetNote _ _ => true
  | _ => false
  end.

Definition noEmptySession (s : ChangelogService.ChangelogStorage) : Prop :=
  Forall (fun session => ChangelogService.changes session <> [])
         (ChangelogService.sessions s).

(** No change known to the service carries the id. *)
Definition freshId (changeId : string) (st : ChangelogService.state) : Prop :=
  Forall
    (fun session =>
       Forall (fun c => ChangelogService.id c <> changeId)
              (ChangelogService.changes session))
    (ChangelogService.sessions (ChangelogService.storage st)
     ++ match ChangelogService.currentSession st with
        | Some session => [session]
        | None => []
        end).

(** Neither the storage in memory nor the persisted one holds a session
    without changes. *)
Definition noEmptyState (st : ChangelogService.state) : Prop :=
  noEmptySession (ChangelogService.storage st)
  /\ forall stored, ChangelogService.persisted st = Some stored ->
                    noEmptySession stored.

(** A vault with the one note [a.md]. *)
Definition oneNote (content : list ascii)
    : gmap string ChangelogService.TAbstractFile :=
  {[ "a.md"%string := ChangelogService.TFile content ]}.

(** The first change with the id in a list of changes is about [path]
    and holds [content] as its prior state. *)
Definition recorded (changeId path : string) (content : list ascii)
    (changes : list ChangelogService.ChangeEntry) : Prop :=
  exists c,
    List.find (ChangelogService.hasId changeId) changes = Some c
    /\ ChangelogService.filePath c = path
    /\ ChangelogService.beforeContent c = Some content.

(** A vault with the three notes [a.md], [b.md] and [c.md]. *)
Definition threeNotes (a b c : list ascii)
    : gmap string ChangelogService.TAbstractFile :=
  <["a.md"%string := ChangelogService.TFile a]>
    (<["b.md"%string := ChangelogService.TFile b]>
       (<["c.md"%string := ChangelogService.TFile c]> ∅)).

(** A square bracket. *)
Definition isBracket (c : ascii) : bool := ceqb c "[" || ceqb c "]".

(** A text without square bracket. *)
Definition noBracket (s : list ascii) : bool :=
  forallb (fun c => negb (isBracket c)) s.

(** A suggestion whose target text and link target hold no square
    bracket. *)
Definition plainLink (l : SuggestedLink) : bool :=
  noBracket (targetText l) && noBracket (linkTarget l).

(** Every ["[["] of the content opens a link span: after it, the first
    closing bracket opens ["]]"]. *)
Fixpoint linksClosed (s : list ascii) : bool :=
  match s with
  | [] => true
  | c :: s' =>
      (if ceqb c "[" then
         match s' with
         | d :: q => if ceqb d "[" then VaultOperations.closesLink q else true
         | [] => true
         end
       else true)
      && linksClosed s'
  end.

(** The text holds a link span ["[[run]]"], with no closing bracket in
    [run], whose [run] satisfies [P]. *)
Definition hasSpan (P : list ascii -> Prop) (r : list ascii) : Prop :=
  exists p run q,
    r = p ++ js "[[" ++ run ++ js "]]" ++ q /\ ~ In "]"%char run /\ P run.

(** The span of a link to [target]: ["[[target]]"] or ["[[target|...]]"]. *)
Definition linksTo (target : list ascii) (run : list ascii) : Prop :=
  run = target \/ exists alias, run = target ++ js "|" ++ alias.

(** The span holds the target text [t] up to case. *)
Definition holds (t : list ascii) (run : list ascii) : Prop :=
  exists x m y, run = x ++ m ++ y /\ toLowerCase m = toLowerCase t.

(** The conditions under which [applyLink] leaves the text alone, the
    first one in terms of spans. *)
Definition settled (r : list ascii) (l : SuggestedLink) : Prop :=
  hasSpan (linksTo (linkTarget l)) r
  \/ hasSpan (holds (targetText l)) r
  \/ findCI (targetText l) r = None.

(** A well-formed tag name: what the capture of [inlineTagRegex] can be,
    a letter followed by letters, digits, [_], [/] and [-]. *)
Definition validTagName (name : list ascii) : bool :=
  match name with
  | c :: rest => isLetter c && forallb VaultOperations.isTagChar rest
  | [] => false
  end.

(** A suggestion whose tag, without its leading [#], is a well-formed tag
    name. *)
Definition plainTag (t : SuggestedTag) : bool :=
  validTagName (VaultOperations.tagName t).

(** The header block of the content, if there is one, holds neither [$]
    nor [#]. *)
Definition plainHeader (content : list ascii) : bool :=
  match VaultOperations.frontmatterMatch content with
  | Some (header, _) =>
      forallb (fun c => negb (ceqb c "$") && negb (ceqb c "#")) header
  | None => true
  end.

(** The fence that closes the header block. *)
Definition fence : list ascii := LF :: js "---".

(** The tag [name] stands in the text as an inline tag: at the start of
    the text or after a white space, and followed by nothing that could
    continue it. *)
Definition tagEnds (post : list ascii) : Prop :=
  match post with
  | [] => True
  | c :: _ => VaultOperations.isTagChar c = false
  end.

Definition tagAtHead (name s : list ascii) : Prop :=
  exists post, s = "#"%char :: name ++ post /\ tagEnds post.

Definition tagLater (name s : list ascii) : Prop :=
  exists pre w post,
    s = pre ++ w :: "#"%char :: name ++ post
    /\ isSpace w = true /\ tagEnds post.

Definition inlineTagIn (name s : list ascii) : Prop :=
  validTagName name = true /\ (tagAtHead name s \/ tagLater name s).

(** The tag [name] is listed in the tag field of the header block. *)
Definition headerTagIn (name s : list ascii) : Prop :=
  exists header rest value,
    VaultOperations.frontmatterMatch s = Some (header, rest)
    /\ VaultOperations.tagsField header = Some value
    /\ In name (VaultOperations.parseFrontmatterTags value).

(** The code units of [x] are among those of [y]. *)
Definition within (x y : list ascii) : Prop := forall c, In c x -> In c y.

(** A code unit that is neither [$] nor a line terminator. *)
Definition lineChar (c : ascii) : Prop :=
  c <> "$"%char /\ isLineTerminator c = false.

(** The content carries a tag that equals [name] up to case, in the tag
    field of its header block or inline. *)
Definition tagKnown (name s : list ascii) : Prop :=
  exists e,
    toLowerCase e = toLowerCase name /\ (headerTagIn e s \/ inlineTagIn e s).

(* ================================================================== *)
(** * Properties *)
(* ================================================================== *)

(** ** The scenario of the link pipeline *)

(** C1, as stated: the filter would accept the suggestion and the patch
    would give the alias form.  The patch gives the plain form, so the
    statement fails. *)
Lemma C1_alias_form_refuted :
  ~ (LinkingEngine.toApply
       (LinkingEngine.filterLinks (Fin (7 # 10))
          [mkLink (js "cats") (js "Cats") [] (Fin (9 # 10))]
          (js "I love cats.") [js "Cats"])
     = [mkLink (js "cats") (js "Cats") [] (Fin (9 # 10))]
     /\ VaultOperations.applyLinks (js "I love cats.")
          [mkLink (js "cats") (js "Cats") [] (Fin (9 # 10))]
        = js "I love [[Cats|cats]].").
Proof.
  intros [_ H]. vm_compute in H. discriminate H.
Qed.

(** C1, amended: with content ["I love cats."], the suggestion
    [{targetText: "cats", linkTarget: "Cats", confidence: 0.9}], the known
    targets [["Cats"]] and threshold 0.7, [filterLinks] accepts the
    suggestion and [applyLinks] gives ["I love [[Cats]]."]: the plain
    form, since the matched text and the target are equal up to case. *)
Theorem C1_scenario (reasoning : list ascii) :
  let suggestion := mkLink (js "cats") (js "Cats") reasoning (Fin (9 # 10)) in
  LinkingEngine.filterLinks (Fin (7 # 10)) [suggestion]
    (js "I love cats.") [js "Cats"]
  = {| LinkingEngine.toApply := [suggestion]; LinkingEngine.toSkip := [] |}
  /\ VaultOperations.applyLinks (js "I love cats.") [suggestion]
     = js "I love [[Cats]].".
Proof.
  split; reflexivity.
Qed.

(** The alias form is what a match that differs from the target beyond
    case gets. *)
Example alias_form_kittens :
  VaultOperations.applyLinks (js "I love kittens.")
    [mkLink (js "kittens") (js "Cats") [] (Fin (9 # 10))]
  = js "I love [[Cats|kittens]].".
Proof. reflexivity. Qed.

(* ================================================================== *)
(** ** Facts about strings *)
(* ================================================================== *)

Section StringFacts.

Implicit Types (s p t r : list ascii) (c d : ascii).

Lemma ceqb_true c d : ceqb c d = true <-> c = d.
Proof. apply Ascii.eqb_eq. Qed.

Lemma ceqb_refl c : ceqb c c = true.
Proof. by apply ceqb_true. Qed.

Lemma ceqb_false c d : ceqb c d = false <-> c <> d.
Proof. apply Ascii.eqb_neq. Qed.

Lemma streq_true s t : streq s t = true <-> s = t.
Proof.
  revert t. induction s as [|c s IH]; intros [|d t]; simpl; try done.
  rewrite andb_true_iff, ceqb_true, IH. naive_solver.
Qed.

Lemma streq_refl s : streq s s = true.
Proof. by apply streq_true. Qed.

Lemma startsWith_true p s : startsWith p s = true <-> exists r, s = p ++ r.
Proof.
  revert s. induction p as [|c p IH]; intros s; simpl.
  - split; eauto.
  - destruct s as [|d s]; [naive_solver|].
    rewrite andb_true_iff, ceqb_true, IH. naive_solver.
Qed.

Lemma startsWith_app p r : startsWith p (p ++ r) = true.
Proof. apply startsWith_true. eauto. Qed.

Lemma find_Some p s i :
  find p s = Some i -> exists a b, s = a ++ p ++ b /\ length a = i.
Proof.
  revert i. induction s as [|c s IH]; intros i; simpl.
  - destruct (startsWith p []) eqn:E; [|done].
    intros [= <-]. apply startsWith_true in E as [r ->]. by exists [], r.
  - destruct (startsWith p (c :: s)) eqn:E.
    + intros [= <-]. apply startsWith_true in E as [r ->]. by exists [], r.
    + destruct (find p s) as [j|]; [|done]. simpl. intros [= <-].
      destruct (IH j eq_refl) as (a & b & -> & <-). by exists (c :: a), b.
Qed.

Lemma find_None p s a b : find p s = None -> s <> a ++ p ++ b.
Proof.
  revert a. induction s as [|c s IH]; intros a; simpl.
  - destruct (startsWith p []) eqn:E; [done|]. intros _ H.
    symmetry in H. apply app_eq_nil in H as [-> H]. apply app_eq_nil in H as [-> _].
    done.
  - destruct (startsWith p (c :: s)) eqn:E; [done|].
    destruct (find p s) eqn:F; [done|]. intros _ H.
    destruct a as [|c' a]; simpl in H.
    + rewrite H, startsWith_app in E. done.
    + injection H as -> H. by eapply IH.
Qed.

Lemma includes_true p s : includes p s = true <-> exists a b, s = a ++ p ++ b.
Proof.
  unfold includes. rewrite bool_decide_eq_true. split.
  - intros [i H]. apply find_Some in H. naive_solver.
  - intros (a & b & ->). destruct (find p (a ++ p ++ b)) eqn:E; [eauto|].
    by eapply find_None in E.
Qed.

Lemma includes_app p a b : includes p (a ++ p ++ b) = true.
Proof. apply includes_true. eauto. Qed.

Lemma toLowerCase_app s t : toLowerCase (s ++ t) = toLowerCase s ++ toLowerCase t.
Proof. apply map_app. Qed.

Lemma toLowerCase_length s : length (toLowerCase s) = length s.
Proof. apply length_map. Qed.

Lemma toLowerCase_eq_length s t :
  toLowerCase s = toLowerCase t -> length s = length t.
Proof. intros H. by rewrite <- (toLowerCase_length s), H, toLowerCase_length. Qed.

Lemma startsWithCI_true p s :
  startsWithCI p s = true
  <-> exists t r, s = t ++ r /\ toLowerCase t = toLowerCase p.
Proof.
  revert s. induction p as [|c p IH]; intros s; simpl.
  - split; [by exists [], s|done].
  - destruct s as [|d s].
    + split; [done|]. intros ([|] & r & ? & ?); done.
    + rewrite andb_true_iff, ceqb_true, IH. split.
      * intros (Hc & t & r & -> & Ht). exists (d :: t), r. simpl. by rewrite Hc, Ht.
      * intros ([|d' t] & r & H & Ht); [done|]. simpl in *. simplify_eq. eauto.
Qed.

Lemma findCI_nil s : findCI [] s = Some 0.
Proof. by destruct s. Qed.

Lemma findCI_Some p s i :
  findCI p s = Some i ->
  exists a t b, s = a ++ t ++ b /\ length a = i
                /\ toLowerCase t = toLowerCase p.
Proof.
  revert i. induction s as [|c s IH]; intros i; simpl.
  - destruct (startsWithCI p []) eqn:E; [|done]. intros [= <-].
    apply startsWithCI_true in E as (t & r & -> & Ht). by exists [], t, r.
  - destruct (startsWithCI p (c :: s)) eqn:E.
    + intros [= <-]. apply startsWithCI_true in E as (t & r & -> & Ht).
      by exists [], t, r.
    + destruct (findCI p s) as [j|]; [|done]. simpl. intros [= <-].
      destruct (IH j eq_refl) as (a & t & b & -> & <- & Ht).
      by exists (c :: a), t, b.
Qed.

Lemma findCI_None p s a t b :
  findCI p s = None -> toLowerCase t = toLowerCase p -> s <> a ++ t ++ b.
Proof.
  intros H Ht. revert a H. induction s as [|c s IH]; intros a; simpl.
  - destruct (startsWithCI p []) eqn:E; [done|]. intros _ H.
    symmetry in H. apply app_eq_nil in H as [-> H]. apply app_eq_nil in H as [-> _].
    destruct p; done.
  - destruct (startsWithCI p (c :: s)) eqn:E; [done|].
    destruct (findCI p s) eqn:F; [done|]. intros _ H.
    destruct a as [|c' a]; simpl in H.
    + assert (startsWithCI p (c :: s) = true); [|congruence].
      apply startsWithCI_true. rewrite H. eauto.
    + injection H as -> H. by eapply IH.
Qed.

End StringFacts.

(* ================================================================== *)
(** ** A suggestion with an empty target text *)
(* ================================================================== *)

(** C5, as stated: a suggestion whose target text is empty would leave
    every content unchanged.  On ["abc"] it puts a link in front. *)
Lemma C5_empty_target_applied :
  VaultOperations.applyLinks (js "abc")
    [mkLink [] (js "Cats") [] (Fin (9 # 10))]
  = js "[[Cats|]]abc"
  /\ VaultOperations.applyLinks (js "abc")
       [mkLink [] (js "Cats") [] (Fin (9 # 10))]
     <> js "abc".
Proof. split; [reflexivity|]. vm_compute. discriminate. Qed.

(** C5, amended: a suggestion with an empty target text is not rejected.
    The empty pattern matches at offset 0, so [applyLinks] puts
    ["[[linkTarget|]]"] (["[[]]"] for an empty link target) in front of
    the content; the content comes back unchanged only when it already
    links the target or already holds some link span. *)
Theorem C5_empty_target (content target reasoning : list ascii)
    (confidence : num) :
  VaultOperations.applyLinks content [mkLink [] target reasoning confidence]
  = if includes (js "[[" ++ target ++ js "]]") content
       || includes (js "[[" ++ target ++ js "|") content
       || VaultOperations.alreadyLinked [] content
    then content
    else js "[[" ++ target ++ (if nonEmpty target then js "|" else [])
         ++ js "]]" ++ content.
Proof.
  unfold VaultOperations.applyLinks. simpl.
  unfold VaultOperations.applyLink. simpl targetText. simpl linkTarget.
  destruct (includes _ content || includes _ content); [done|]. simpl orb.
  destruct (VaultOperations.alreadyLinked [] content); [done|].
  rewrite findCI_nil. simpl.
  destruct target as [|c l]; simpl; [done|].
  by rewrite <- !app_assoc.
Qed.

(** The filter lets such a suggestion through when the content holds no
    link: every string includes the empty string. *)
Example empty_target_accepted :
  LinkingEngine.acceptLink (Fin (7 # 10)) (js "abc") [js "Cats"]
    (mkLink [] (js "Cats") [] (Fin (9 # 10))) = true.
Proof. reflexivity. Qed.

(* ================================================================== *)
(** ** Confidence gating *)
(* ================================================================== *)

Section Filters.

Lemma Num_lt_le_trans x y z :
  Num.lt x y = true -> Num.le y z = true -> Num.lt x z = true.
Proof.
  destruct x as [a| | |], y as [b| | |], z as [c| | |]; simpl; try done.
  rewrite !negb_true_iff. intros Hab Hbc.
  apply Qle_bool_iff in Hbc.
  destruct (Qle_bool c a) eqn:Hca; [|done].
  apply Qle_bool_iff in Hca.
  assert (Qle_bool b a = true); [|congruence].
  apply Qle_bool_iff. by eapply Qle_trans.
Qed.

Lemma filter_fold {A R : Type} (accept : A -> bool) (mk : list A -> list A -> R)
    (yes no : R -> list A) (l : list A) (acc : R) :
  (forall a b, yes (mk a b) = a) -> (forall a b, no (mk a b) = b) ->
  (forall r, mk (yes r) (no r) = r) ->
  fold_left
    (fun acc x => if accept x then mk (yes acc ++ [x]) (no acc)
                  else mk (yes acc) (no acc ++ [x]))
    l acc
  = mk (yes acc ++ List.filter accept l)
       (no acc ++ List.filter (fun x => negb (accept x)) l).
Proof.
  intros Hy Hn Hmk. revert acc. induction l as [|x l IH]; intros acc; simpl.
  - by rewrite !app_nil_r, Hmk.
  - rewrite IH. destruct (accept x); simpl; rewrite Hy, Hn, <- ?app_assoc; done.
Qed.

Lemma filterLinks_filter threshold links content notes :
  LinkingEngine.filterLinks threshold links content notes
  = {| LinkingEngine.toApply :=
         List.filter (LinkingEngine.acceptLink threshold content notes) links;
       LinkingEngine.toSkip :=
         List.filter
           (fun l => negb (LinkingEngine.acceptLink threshold content notes l))
           links |}.
Proof.
  unfold LinkingEngine.filterLinks.
  by rewrite (filter_fold _ LinkingEngine.Build_LinkFilterResult
                LinkingEngine.toApply LinkingEngine.toSkip);
    [|done|done|intros []].
Qed.

Lemma filterTags_filter threshold allow tags content context :
  TaggingEngine.filterTags threshold allow tags content context
  = {| TaggingEngine.toApply :=
         List.filter (TaggingEngine.acceptTag threshold allow content context) tags;
       TaggingEngine.toSkip :=
         List.filter
           (fun t => negb (TaggingEngine.acceptTag threshold allow content context t))
           tags |}.
Proof.
  unfold TaggingEngine.filterTags.
  by rewrite (filter_fold _ TaggingEngine.Build_TagFilterResult
                TaggingEngine.toApply TaggingEngine.toSkip);
    [|done|done|intros []].
Qed.

Lemma filter_sublist {A : Type} (f g : A -> bool) (l : list A) :
  (forall x, f x = true -> g x = true) ->
  sublist (List.filter f l) (List.filter g l).
Proof.
  intros Hfg. induction l as [|x l IH]; simpl; [constructor|].
  destruct (f x) eqn:Hf.
  - rewrite (Hfg x Hf). by constructor.
  - destruct (g x); [by constructor|done].
Qed.

Lemma acceptLink_below threshold content notes l :
  Num.lt (link_confidence l) threshold = true ->
  LinkingEngine.acceptLink threshold content notes l = false.
Proof. unfold LinkingEngine.acceptLink. by intros ->. Qed.

Lemma acceptTag_below threshold allow content context t :
  Num.lt (tag_confidence t) threshold = true ->
  TaggingEngine.acceptTag threshold allow content context t = false.
Proof. unfold TaggingEngine.acceptTag. by intros ->. Qed.

Lemma acceptLink_mono t1 t2 content notes l :
  Num.le t1 t2 = true ->
  LinkingEngine.acceptLink t2 content notes l = true ->
  LinkingEngine.acceptLink t1 content notes l = true.
Proof.
  intros Hle. unfold LinkingEngine.acceptLink.
  destruct (Num.lt (link_confidence l) t1) eqn:H1; [|by destruct (Num.lt _ t2)].
  by rewrite (Num_lt_le_trans _ _ _ H1 Hle).
Qed.

Lemma acceptTag_mono t1 t2 allow content context t :
  Num.le t1 t2 = true ->
  TaggingEngine.acceptTag t2 allow content context t = true ->
  TaggingEngine.acceptTag t1 allow content context t = true.
Proof.
  intros Hle. unfold TaggingEngine.acceptTag.
  destruct (Num.lt (tag_confidence t) t1) eqn:H1; [|by destruct (Num.lt _ t2)].
  by rewrite (Num_lt_le_trans _ _ _ H1 Hle).
Qed.

End Filters.

(** C8: for thresholds [t1 <= t2], what either filter accepts at [t2] is
    a sublist of what it accepts at [t1], hence never longer; and a
    suggestion whose confidence is below the threshold goes to [toSkip]
    and not to [toApply], whatever the other conditions. *)
Theorem C8_confidence_monotonicity (t1 t2 : num) :
  Num.le t1 t2 = true ->
  (forall links content notes,
      let at1 := LinkingEngine.toApply
                   (LinkingEngine.filterLinks t1 links content notes) in
      let at2 := LinkingEngine.toApply
                   (LinkingEngine.filterLinks t2 links content notes) in
      sublist at2 at1 /\ at2 ⊆ at1 /\ length at2 <= length at1)
  /\ (forall allow tags content context,
      let at1 := TaggingEngine.toApply
                   (TaggingEngine.filterTags t1 allow tags content context) in
      let at2 := TaggingEngine.toApply
                   (TaggingEngine.filterTags t2 allow tags content context) in
      sublist at2 at1 /\ at2 ⊆ at1 /\ length at2 <= length at1)
  /\ (forall links content notes l,
      In l links -> Num.lt (link_confidence l) t2 = true ->
      In l (LinkingEngine.toSkip (LinkingEngine.filterLinks t2 links content notes))
      /\ ~ In l (LinkingEngine.toApply
                   (LinkingEngine.filterLinks t2 links content notes)))
  /\ (forall allow tags content context t,
      In t tags -> Num.lt (tag_confidence t) t2 = true ->
      In t (TaggingEngine.toSkip
              (TaggingEngine.filterTags t2 allow tags content context))
      /\ ~ In t (TaggingEngine.toApply
                   (TaggingEngine.filterTags t2 allow tags content context))).
Proof.
  intros Hle. repeat split.
  - rewrite !filterLinks_filter. simpl.
    apply filter_sublist. intros l. by apply acceptLink_mono.
  - rewrite !filterLinks_filter. simpl. apply sublist_subseteq.
    apply filter_sublist. intros l. by apply acceptLink_mono.
  - rewrite !filterLinks_filter. simpl. apply sublist_length.
    apply filter_sublist. intros l. by apply acceptLink_mono.
  - rewrite !filterTags_filter. simpl.
    apply filter_sublist. intros l. by apply acceptTag_mono.
  - rewrite !filterTags_filter. simpl. apply sublist_subseteq.
    apply filter_sublist. intros l. by apply acceptTag_mono.
  - rewrite !filterTags_filter. simpl. apply sublist_length.
    apply filter_sublist. intros l. by apply acceptTag_mono.
  - rewrite filterLinks_filter. simpl. apply filter_In. split; [done|].
    by rewrite acceptLink_below.
  - rewrite filterLinks_filter. simpl. rewrite filter_In.
    rewrite acceptLink_below by done. naive_solver.
  - rewrite filterTags_filter. simpl. apply filter_In. split; [done|].
    by rewrite acceptTag_below.
  - rewrite filterTags_filter. simpl. rewrite filter_In.
    rewrite acceptTag_below by done. naive_solver.
Qed.

(** The theorem at thresholds 0.5 and 0.7, on a suggestion of confidence
    0.6: accepted at 0.5, skipped at 0.7. *)
Lemma C8_confidence_monotonicity_witness :
  Num.le (Fin (5 # 10)) (Fin (7 # 10)) = true
  /\ sublist
       (LinkingEngine.toApply
          (LinkingEngine.filterLinks (Fin (7 # 10))
             [mkLink (js "cats") (js "Cats") [] (Fin (6 # 10))]
             (js "I love cats.") [js "Cats"]))
       (LinkingEngine.toApply
          (LinkingEngine.filterLinks (Fin (5 # 10))
             [mkLink (js "cats") (js "Cats") [] (Fin (6 # 10))]
             (js "I love cats.") [js "Cats"])).
Proof.
  split; [reflexivity|].
  exact (proj1 (proj1 (C8_confidence_monotonicity (Fin (5 # 10)) (Fin (7 # 10))
                         eq_refl)
                  [mkLink (js "cats") (js "Cats") [] (Fin (6 # 10))]
                  (js "I love cats.") [js "Cats"])).
Defined.

(* ================================================================== *)
(** ** The oracle boundary *)
(* ================================================================== *)

Section Oracle.

Import ClaudeService.

Lemma clamp_unit (n : num) :
  n <> NaN -> inUnit (Num.min Num.one (Num.max Num.zero n)) = true.
Proof.
  destruct n as [q| | |]; try done; intros _.
  unfold Num.max, Num.zero. simpl Num.lt.
  destruct (Qle_bool q 0) eqn:E0; simpl negb; cbv iota; [done|].
  unfold Num.min, Num.one. simpl Num.lt.
  destruct (Qle_bool 1 q) eqn:E1; simpl negb; cbv iota; [done|].
  unfold inUnit, Num.le, Num.zero, Num.one.
  apply andb_true_iff. split; apply Qle_bool_iff; apply Qlt_le_weak, Qnot_le_lt;
    intros H; apply Qle_bool_iff in H; congruence.
Qed.

Lemma Qle_bool_false (a b : Q) : Qle_bool a b = false <-> (b < a)%Q.
Proof.
  split.
  - intros H. apply Qnot_le_lt. intros Hle. apply Qle_bool_iff in Hle. congruence.
  - intros H. destruct (Qle_bool a b) eqn:E; [|done].
    apply Qle_bool_iff in E. by apply Qlt_not_le in H.
Qed.

(** The three cases of the clamp. *)
Lemma clamp_cases (n : num) :
  (Num.le n Num.zero = true -> Num.min Num.one (Num.max Num.zero n) = Num.zero)
  /\ (Num.le Num.one n = true -> Num.min Num.one (Num.max Num.zero n) = Num.one)
  /\ (Num.lt Num.zero n = true -> Num.lt n Num.one = true ->
      Num.min Num.one (Num.max Num.zero n) = n).
Proof.
  destruct n as [q| | |]; try (by repeat split).
  unfold Num.min, Num.max, Num.zero, Num.one, Num.le, Num.lt.
  repeat split.
  - intros H. rewrite H. by simpl.
  - intros H. apply Qle_bool_iff in H.
    assert (Qle_bool q 0 = false) as ->.
    { apply Qle_bool_false. eapply Qlt_le_trans; [|exact H]. done. }
    simpl. apply Qle_bool_iff in H. by rewrite H.
  - intros H0 H1. rewrite H0. simpl. by rewrite H1.
Qed.

Lemma clampConfidence_unit (x : option json) :
  x <> Some (JNumber NaN) -> inUnit (clampConfidence x) = true.
Proof.
  intros Hx. unfold clampConfidence.
  destruct x as [[]|]; try done. apply clamp_unit. congruence.
Qed.

Lemma clampConfidence_default (x : option json) :
  (forall n, x <> Some (JNumber n)) -> x <> Some JMinusZero ->
  clampConfidence x = Num.half.
Proof.
  intros Hx Hz. destruct x as [[]|]; try done. by destruct (Hx n).
Qed.

Lemma getMember_noNaN key members v :
  forallb (fun m => noNaN m.2) members = true ->
  getMember key members = Some v -> noNaN v = true.
Proof.
  induction members as [|[k w] ms IH]; simpl; [done|].
  rewrite andb_true_iff. intros [Hw Hms].
  destruct (getMember key ms) as [v'|].
  - intros [= <-]. by apply IH.
  - destruct (bool_decide (k = key)); [|done]. by intros [= <-].
Qed.

Lemma field_noNaN key v w :
  noNaN v = true -> field key v = Some w -> noNaN w = true.
Proof.
  destruct v; simpl; try done. intros H. by apply getMember_noNaN.
Qed.

(** A property is read without error from every value but [null]. *)
Lemma getProp_field key v : v <> JNull -> getProp key v = Normal (field key v).
Proof. by destruct v. Qed.

Lemma field_confidence_noNaN v :
  noNaN v = true -> field "confidence" v <> Some (JNumber NaN).
Proof.
  intros Hv H. by apply (field_noNaN _ _ _ Hv) in H.
Qed.

Lemma validateLink_fields v :
  v <> JNull ->
  validateLink v
  = Normal {| Link.targetText := stringOr (field "targetText" v);
              Link.linkTarget := stringOr (field "linkTarget" v);
              Link.reasoning := stringOr (field "reasoning" v);
              Link.confidence := clampConfidence (field "confidence" v) |}.
Proof. intros Hv. unfold validateLink. by rewrite !getProp_field. Qed.

Lemma validateTag_fields v :
  v <> JNull ->
  validateTag v
  = Normal {| Tag.tag := stringOr (field "tag" v);
              Tag.location :=
                match field "location" v with
                | Some (JString s) =>
                    if bool_decide (s = wide (js "inline")) then inline
                    else frontmatter
                | _ => frontmatter
                end;
              Tag.reasoning := stringOr (field "reasoning" v);
              Tag.confidence := clampConfidence (field "confidence" v) |}.
Proof. intros Hv. unfold validateTag. by rewrite !getProp_field. Qed.

Lemma validateLink_Normal v l : validateLink v = Normal l -> v <> JNull.
Proof. by intros H ->. Qed.

Lemma validateTag_Normal v t : validateTag v = Normal t -> v <> JNull.
Proof. by intros H ->. Qed.

Lemma mapThrow_Forall2 {A B : Type} (f : A -> completion B) (l : list A)
    (l' : list B) :
  mapThrow f l = Normal l' <-> Forall2 (fun a b => f a = Normal b) l l'.
Proof.
  revert l'. induction l as [|a l IH]; intros l'; simpl.
  - split; [by intros [= <-]; constructor|]. by inversion 1.
  - destruct (f a) as [b|] eqn:Hb; simpl.
    + destruct (mapThrow f l) as [bs|] eqn:Hbs; simpl.
      * split.
        -- intros [= <-]. constructor; [done|]. by apply IH.
        -- inversion 1 as [|? b' ? bs' Hb' Hbs']; subst.
           apply IH in Hbs'. congruence.
      * split; [done|]. inversion 1 as [|? b' ? bs' Hb' Hbs']; subst.
        by apply IH in Hbs'.
    + split; [done|]. inversion 1; congruence.
Qed.

(** [map] stops at the first entry on which the callback throws. *)
Lemma mapThrow_Throw {A B : Type} (f : A -> completion B) (l : list A) (a : A) :
  In a l -> f a = Throw -> mapThrow f l = Throw.
Proof.
  intros Ha Hf. induction l as [|x l IH]; simpl; [done|].
  destruct Ha as [->|Ha]; [by rewrite Hf|].
  destruct (f x); simpl; [|done]. by rewrite IH.
Qed.

Lemma mapThrow_total {A B : Type} (f : A -> completion B) (g : A -> B)
    (l : list A) :
  (forall a, In a l -> f a = Normal (g a)) -> mapThrow f l = Normal (map g l).
Proof.
  induction l as [|x l IH]; intros H; simpl; [done|].
  rewrite (H x) by (by left). simpl. rewrite IH; [done|].
  intros a Ha. apply H. by right.
Qed.

Lemma forallb_Forall_true {A : Type} (f : A -> bool) (l : list A) :
  forallb f l = true -> Forall (fun x => f x = true) l.
Proof.
  induction l as [|x l IH]; simpl; [constructor|].
  rewrite andb_true_iff. intros [? ?]. constructor; eauto.
Qed.

(** What the parser builds holds no NaN. *)

Lemma toDouble_noNaN a b : toDouble a b <> NaN.
Proof. unfold toDouble. by repeat case_match. Qed.

Lemma numberValue_noNaN negative mantissa exponent :
  noNaN (numberValue negative mantissa exponent) = true.
Proof.
  unfold numberValue.
  destruct (if (0 <=? exponent)%Z then _ else _) as [q| | |] eqn:E;
    try (by repeat case_match).
  destruct (0 <=? exponent)%Z; by apply toDouble_noNaN in E.
Qed.

Lemma parseNumber_noNaN s v r : parseNumber s = Some (v, r) -> noNaN v = true.
Proof.
  unfold parseNumber. intros H.
  repeat (case_match; simplify_eq; try done); apply numberValue_noNaN.
Qed.

Lemma parseElements_noNaN value n s items r :
  (forall s v r, value s = Some (v, r) -> noNaN v = true) ->
  parseElements value n s = Some (items, r) -> forallb noNaN items = true.
Proof.
  intros Hv. revert s items r. induction n as [|n IH]; intros s items r; simpl;
    [done|].
  destruct (value (skipSpace s)) as [[v s1]|] eqn:E; [|done].
  destruct (skipSpace s1) as [|c s2]; [done|].
  destruct (ceqb c ",").
  - destruct (parseElements value n s2) as [[items' r']|] eqn:E'; [|done].
    simpl. intros [= <- <-]. simpl. rewrite (Hv _ _ _ E). eauto.
  - destruct (ceqb c "]"); [|done]. intros [= <- <-]. simpl.
    by rewrite (Hv _ _ _ E).
Qed.

Lemma parseMembers_noNaN value n s members r :
  (forall s v r, value s = Some (v, r) -> noNaN v = true) ->
  parseMembers value n s = Some (members, r) ->
  forallb (fun m => noNaN m.2) members = true.
Proof.
  intros Hv. revert s members r.
  induction n as [|n IH]; intros s members r; simpl; [done|].
  destruct (skipSpace s) as [|q s0]; [done|].
  destruct (ceqb q DQ); [|done].
  destruct (parseChars s0) as [[key s1]|]; [|done].
  destruct (skipSpace s1) as [|c s2]; [done|].
  destruct (ceqb c ":"); [|done].
  destruct (value (skipSpace s2)) as [[v s3]|] eqn:E; [|done].
  destruct (skipSpace s3) as [|d s4]; [done|].
  destruct (ceqb d ",").
  - destruct (parseMembers value n s4) as [[ms r']|] eqn:E'; [|done].
    simpl. intros [= <- <-]. simpl. rewrite (Hv _ _ _ E). eauto.
  - destruct (ceqb d "}"); [|done]. intros [= <- <-]. simpl.
    by rewrite (Hv _ _ _ E).
Qed.

Lemma parseValue_noNaN fuel s v r :
  parseValue fuel s = Some (v, r) -> noNaN v = true.
Proof.
  revert s v r. induction fuel as [|fuel IH]; intros s v r; simpl; [done|].
  destruct s as [|c s']; [done|].
  destruct (ceqb c "{").
  { destruct (skipSpace s') as [|d s'']; [done|].
    destruct (ceqb d "}"); [by intros [= <- <-]|].
    destruct (parseMembers _ _ _) as [[ms r']|] eqn:E; [|done].
    simpl. intros [= <- <-]. simpl. eapply parseMembers_noNaN; [|done]. apply IH. }
  destruct (ceqb c "[").
  { destruct (skipSpace s') as [|d s'']; [done|].
    destruct (ceqb d "]"); [by intros [= <- <-]|].
    destruct (parseElements _ _ _) as [[items r']|] eqn:E; [|done].
    simpl. intros [= <- <-]. simpl. eapply parseElements_noNaN; [|done]. apply IH. }
  destruct (ceqb c DQ).
  { destruct (parseChars s') as [[]|]; [|done]. simpl. by intros [= <- <-]. }
  repeat match goal with
         | |- context [if ?b then Some _ else _] =>
             destruct b; [by intros [= <- <-]|]
         end.
  apply parseNumber_noNaN.
Qed.

Lemma JSON_parse_noNaN text v : JSON_parse text = Some v -> noNaN v = true.
Proof.
  unfold JSON_parse.
  destruct (parseValue _ _) as [[w r]|] eqn:E; [|done].
  destruct (skipSpace r); [|done]. intros [= <-]. by eapply parseValue_noNaN.
Qed.

(** A text that opens with a brace parses as an object or not at all. *)
Lemma JSON_parse_object s v :
  JSON_parse ("{"%char :: s) = Some v -> exists members, v = JObject members.
Proof.
  unfold JSON_parse. cbn [skipSpace]. change (isJsonSpace "{") with false.
  cbv iota. cbn [length parseValue]. change (ceqb "{" "{") with true. cbv iota.
  destruct (skipSpace s) as [|d s'']; [done|].
  destruct (ceqb d "}").
  - destruct (skipSpace s''); [|done]. intros [= <-]. by eexists.
  - destruct (parseMembers _ _ _) as [[ms r]|]; [|done]. simpl.
    destruct (skipSpace r); [|done]. intros [= <-]. by eexists.
Qed.

Lemma validateLink_unit v l :
  noNaN v = true -> validateLink v = Normal l ->
  inUnit (Link.confidence l) = true.
Proof.
  intros Hv H. pose proof (validateLink_Normal _ _ H) as Hn.
  rewrite validateLink_fields in H by done. injection H as <-. simpl.
  by apply clampConfidence_unit, field_confidence_noNaN.
Qed.

Lemma validateTag_unit v t :
  noNaN v = true -> validateTag v = Normal t ->
  inUnit (Tag.confidence t) = true.
Proof.
  intros Hv H. pose proof (validateTag_Normal _ _ H) as Hn.
  rewrite validateTag_fields in H by done. injection H as <-. simpl.
  by apply clampConfidence_unit, field_confidence_noNaN.
Qed.

Lemma elements_noNaN key v :
  noNaN v = true -> Forall (fun w => noNaN w = true) (elements (field key v)).
Proof.
  intros Hv. destruct (field key v) as [[]|] eqn:E; try by constructor.
  apply (field_noNaN _ _ _ Hv) in E. by apply forallb_Forall_true.
Qed.

(** The result built from a parsed object: it throws exactly on a [null]
    entry of one of the two suggestion lists, and otherwise each field is
    read with its default. *)
Lemma buildResult_object members :
  let parsed := JObject members in
  let links := elements (field "suggestedLinks" parsed) in
  let tags := elements (field "suggestedTags" parsed) in
  (In JNull links \/ In JNull tags -> buildResult parsed = Throw)
  /\ (~ In JNull links -> ~ In JNull tags ->
      exists links' tags',
        buildResult parsed
        = Normal {| suggestedLinks := links'; suggestedTags := tags';
                    keyConcepts := elements (field "keyConcepts" parsed);
                    summary := stringOr (field "summary" parsed) |}
        /\ Forall2 (fun v l => validateLink v = Normal l) links links'
        /\ Forall2 (fun v t => validateTag v = Normal t) tags tags').
Proof.
  intros parsed links tags.
  assert (forall (B : Type) (f : json -> completion B) x,
            match x with
            | Some (JArray items) => mapThrow f items
            | _ => Normal []
            end = mapThrow f (elements x)) as Hel.
  { intros B f x. by destruct x as [[]|]. }
  unfold buildResult. rewrite !getProp_field by done. cbn [bind].
  rewrite !Hel. fold parsed. fold links tags. split.
  - intros [H|H].
    + by rewrite (mapThrow_Throw validateLink links JNull H).
    + destruct (mapThrow validateLink links); cbn [bind]; [|done].
      by rewrite (mapThrow_Throw validateTag tags JNull H).
  - intros Hl Ht.
    destruct (mapThrow validateLink links) as [links'|] eqn:E1.
    + destruct (mapThrow validateTag tags) as [tags'|] eqn:E2.
      * cbn [bind]. exists links', tags'. split; [by destruct (field "keyConcepts" parsed) as [[]|]|].
        split; by apply mapThrow_Forall2.
      * exfalso. revert E2.
        rewrite (mapThrow_total validateTag
                   (fun v => {| Tag.tag := stringOr (field "tag" v);
                                Tag.location :=
                                  match field "location" v with
                                  | Some (JString s) =>
                                      if bool_decide (s = wide (js "inline"))
                                      then inline else frontmatter
                                  | _ => frontmatter
                                  end;
                                Tag.reasoning := stringOr (field "reasoning" v);
                                Tag.confidence :=
                                  clampConfidence (field "confidence" v) |}));
          [done|].
        intros a Ha. apply validateTag_fields. by intros ->.
    + exfalso. revert E1.
      rewrite (mapThrow_total validateLink
                 (fun v => {| Link.targetText := stringOr (field "targetText" v);
                              Link.linkTarget := stringOr (field "linkTarget" v);
                              Link.reasoning := stringOr (field "reasoning" v);
                              Link.confidence :=
                                clampConfidence (field "confidence" v) |}));
        [done|].
      intros a Ha. apply validateLink_fields. by intros ->.
Qed.

Lemma null_entry_dec (l : list json) : In JNull l \/ ~ In JNull l.
Proof.
  induction l as [|a l [IH|IH]]; [right; by intros []|left; by right|].
  destruct a; try (right; intros [?|?]; [done|by apply IH]). left. by left.
Qed.

(** Every suggestion of a result is the normal form of an entry of the
    parsed value. *)
Lemma buildResult_entries parsed result :
  noNaN parsed = true -> buildResult parsed = Normal result ->
  Forall (fun l => exists v, noNaN v = true /\ validateLink v = Normal l)
         (suggestedLinks result)
  /\ Forall (fun t => exists v, noNaN v = true /\ validateTag v = Normal t)
            (suggestedTags result).
Proof.
  intros Hp. destruct parsed; try done;
    try (by intros [= <-]; split; constructor).
  destruct (buildResult_object members) as [Hthrow Hnormal].
  intros H.
  destruct (null_entry_dec (elements (field "suggestedLinks" (JObject members))))
    as [Hl|Hl]; [rewrite Hthrow in H by (by left); done|].
  destruct (null_entry_dec (elements (field "suggestedTags" (JObject members))))
    as [Ht|Ht]; [rewrite Hthrow in H by (by right); done|].
  destruct (Hnormal Hl Ht) as (links' & tags' & E & H1 & H2).
  rewrite E in H. injection H as <-. simpl.
  pose proof (elements_noNaN "suggestedLinks" _ Hp) as N1.
  pose proof (elements_noNaN "suggestedTags" _ Hp) as N2.
  split.
  - clear -H1 N1. induction H1; [constructor|].
    inversion_clear N1. constructor; eauto.
  - clear -H2 N2. induction H2; [constructor|].
    inversion_clear N2. constructor; eauto.
Qed.

Lemma parseAnalysisResponse_entries text :
  Forall (fun l => exists v, noNaN v = true /\ validateLink v = Normal l)
         (suggestedLinks (parseAnalysisResponse text))
  /\ Forall (fun t => exists v, noNaN v = true /\ validateTag v = Normal t)
            (suggestedTags (parseAnalysisResponse text)).
Proof.
  unfold parseAnalysisResponse, parseBody.
  destruct (jsonMatch text) as [block|]; [|by split; constructor].
  destruct (JSON_parse block) as [parsed|] eqn:E; [|by split; constructor].
  apply JSON_parse_noNaN in E.
  destruct (buildResult parsed) as [result|] eqn:E'; [|by split; constructor].
  by eapply buildResult_entries.
Qed.

Lemma parseAnalysisResponse_unit text :
  Forall (fun l => inUnit (Link.confidence l) = true)
         (suggestedLinks (parseAnalysisResponse text))
  /\ Forall (fun t => inUnit (Tag.confidence t) = true)
            (suggestedTags (parseAnalysisResponse text)).
Proof.
  destruct (parseAnalysisResponse_entries text) as [H1 H2]. split.
  - eapply Forall_impl; [exact H1|]. intros l (v & Hv & H).
    by eapply validateLink_unit.
  - eapply Forall_impl; [exact H2|]. intros t (v & Hv & H).
    by eapply validateTag_unit.
Qed.

End Oracle.

Section OracleText.

Import ClaudeService.

Implicit Types (s rest w : list ascii) (c : ascii) (d : doc).

Lemma skipSpace_pad w s : isPad w = true -> skipSpace (w ++ s) = skipSpace s.
Proof.
  induction w as [|c w IH]; simpl; [done|].
  rewrite andb_true_iff. intros [-> ?]. by apply IH.
Qed.

Lemma skipSpace_head c s : isJsonSpace c = false -> skipSpace (c :: s) = c :: s.
Proof. simpl. by intros ->. Qed.

Lemma opens_facts c :
  opens c = true ->
  isJsonSpace c = false /\ ceqb c "]" = false /\ ceqb c "}" = false.
Proof. by destruct c as [[] [] [] [] [] [] [] []]. Qed.

Lemma digit_facts c :
  isDigit c = true ->
  ceqb c "{" = false /\ ceqb c "[" = false /\ ceqb c DQ = false
  /\ ceqb c "t" = false /\ ceqb c "f" = false /\ ceqb c "n" = false
  /\ ceqb c "-" = false /\ ceqb c "+" = false /\ ceqb c "." = false
  /\ ceqb c "e" = false /\ ceqb c "E" = false.
Proof. by destruct c as [[] [] [] [] [] [] [] []]. Qed.

Lemma delimited_facts c rest :
  delimited (c :: rest) = true ->
  isDigit c = false /\ ceqb c "." = false /\ ceqb c "e" = false
  /\ ceqb c "E" = false.
Proof. unfold delimited. by destruct c as [[] [] [] [] [] [] [] []]. Qed.

Lemma digitRun_digits ds rest :
  isDigits ds = true ->
  match rest with c :: _ => isDigit c = false | [] => True end ->
  digitRun (ds ++ rest) = (ds, rest).
Proof.
  intros Hds Hrest. induction ds as [|c ds IH]; simpl.
  - destruct rest as [|c rest]; [done|]. simpl. by rewrite Hrest.
  - simpl in Hds. apply andb_true_iff in Hds as [-> Hds].
    by rewrite IH.
Qed.

Lemma hexValue_hexDigit n : (n < 16)%N -> hexValue (hexDigit n) = Some n.
Proof.
  intros H.
  assert (In n [0; 1; 2; 3; 4; 5; 6; 7; 8; 9; 10; 11; 12; 13; 14; 15]%N) as Hn.
  { destruct n as [|p]; [by left|].
    do 4 (destruct p as [p|p|]; try lia; simpl; try tauto). }
  simpl in Hn. by repeat (destruct Hn as [<-|Hn]; [reflexivity|]).
Qed.

Lemma code_ascii_of_N u : (u < 256)%N -> code (ascii_of_N u) = u.
Proof. apply N_ascii_embedding. Qed.

Lemma hex_digits u :
  (u < 65536)%N ->
  (u / 4096 < 16 /\ u / 256 mod 16 < 16 /\ u / 16 mod 16 < 16 /\ u mod 16 < 16
   /\ ((u / 4096 * 16 + u / 256 mod 16) * 16 + u / 16 mod 16) * 16 + u mod 16
      = u)%N.
Proof.
  intros H.
  repeat split; try (apply N.mod_lt; lia).
  - apply N.Div0.div_lt_upper_bound. lia.
  - pose proof (N.div_mod u 16 ltac:(lia)).
    pose proof (N.div_mod (u / 16) 16 ltac:(lia)).
    pose proof (N.div_mod (u / 16 / 16) 16 ltac:(lia)).
    rewrite !N.Div0.div_div in *.
    change (16 * 16)%N with 256%N in *. change (256 * 16)%N with 4096%N in *.
    lia.
Qed.

Lemma parseChars_unit u s r :
  (u < 65536)%N -> parseChars s = Some r ->
  parseChars (printUnit u ++ s) = Some (consFst u r).
Proof.
  intros Hu IH. unfold printUnit.
  destruct ((u =? 34) || (u =? 92))%N eqn:E1.
  { apply orb_true_iff in E1 as [E|E]; apply N.eqb_eq in E; subst u;
      cbn [app]; cbn [parseChars];
      change (ascii_of_N 34) with DQ; change (ascii_of_N 92) with "\"%char.
    - change (ceqb "\" DQ) with false. change (ceqb "\" "\") with true.
      change (ceqb DQ "u") with false. change (unescape DQ) with (Some DQ).
      cbv iota. by rewrite IH.
    - change (ceqb "\" DQ) with false. change (ceqb "\" "\") with true.
      change (ceqb "\" "u") with false.
      change (unescape "\") with (Some "\"%char).
      cbv iota. by rewrite IH. }
  apply orb_false_iff in E1 as [E34 E92].
  apply N.eqb_neq in E34, E92.
  destruct ((32 <=? u) && (u <? 256))%N eqn:E2.
  { apply andb_true_iff in E2 as [Hlo Hhi].
    apply N.leb_le in Hlo. apply N.ltb_lt in Hhi.
    cbn [app]. cbn [parseChars].
    assert (ceqb (ascii_of_N u) DQ = false) as ->.
    { apply ceqb_false. intros E. apply (f_equal code) in E.
      rewrite code_ascii_of_N in E by done. by subst u. }
    assert (ceqb (ascii_of_N u) "\" = false) as ->.
    { apply ceqb_false. intros E. apply (f_equal code) in E.
      rewrite code_ascii_of_N in E by done. by subst u. }
    rewrite code_ascii_of_N by done.
    assert ((u <? 32)%N = false) as -> by (apply N.ltb_ge; lia).
    by rewrite IH. }
  destruct (hex_digits u Hu) as (H3 & H2 & H1 & H0 & Hsum).
  cbn [app]. cbn [parseChars].
  change (ceqb "\" DQ) with false. change (ceqb "\" "\") with true.
  change (ceqb "u" "u") with true. cbv iota.
  rewrite !hexValue_hexDigit by done. by rewrite IH, Hsum.
Qed.

(** A printed string literal is read back. *)
Lemma parseChars_print (units : list N) rest :
  isUnits units = true ->
  parseChars (flat_map printUnit units ++ DQ :: rest) = Some (units, rest).
Proof.
  induction units as [|u units IH]; intros H.
  - simpl. by change (ceqb DQ DQ) with true.
  - simpl in H. apply andb_true_iff in H as [Hu H].
    apply N.ltb_lt in Hu. cbn [flat_map]. rewrite <- app_assoc.
    by rewrite (parseChars_unit u _ _ Hu (IH H)).
Qed.

End OracleText.

Section OracleNumber.

Import ClaudeService.

Implicit Types (s rest w : list ascii) (c : ascii) (d : doc).

Lemma isDigits_head_opens ds rest :
  isDigits ds = true -> ds <> [] ->
  exists c s, ds ++ rest = c :: s /\ isDigit c = true.
Proof.
  destruct ds as [|c ds]; [done|]. simpl. rewrite andb_true_iff.
  intros [? ?] _. by exists c, (ds ++ rest).
Qed.

(** A printed number literal is read back. *)
Lemma parseNumber_print negative int frac exponent rest :
  wellFormed (DNumber negative int frac exponent) = true ->
  delimited rest = true ->
  parseNumber (printNumber negative int frac exponent ++ rest)
  = Some (valueOf (DNumber negative int frac exponent), rest).
Proof.
  intros Hwf Hrest. cbn [wellFormed] in Hwf.
  apply andb_true_iff in Hwf as [Hwf Hex].
  apply andb_true_iff in Hwf as [Hwf Hfrac].
  apply andb_true_iff in Hwf as [Hint Hlead].
  assert (match rest with c :: _ => isDigit c = false | [] => True end) as Hr.
  { destruct rest as [|c rest']; [done|]. exact (proj1 (delimited_facts _ _ Hrest)). }
  (* the exponent *)
  set (expText := match exponent with
                  | None => []
                  | Some (expNegative, ex) =>
                      "e"%char :: (if expNegative then js "-" else []) ++ ex
                  end).
  set (expValue := match exponent with
                   | None => 0%Z
                   | Some (expNegative, ex) =>
                       if expNegative then (- digitsValue ex)%Z
                       else digitsValue ex
                   end).
  assert (match expText ++ rest with
          | c :: s' =>
              if ceqb c "e" || ceqb c "E" then
                let '(expNegative, s4) :=
                  match s' with
                  | g :: s'' =>
                      if ceqb g "-" then (true, s'')
                      else if ceqb g "+" then (false, s'')
                      else (false, s')
                  | [] => (false, s')
                  end in
                let '(ex, s5) := digitRun s4 in
                if nonEmpty ex
                then Some (if expNegative then (- digitsValue ex)%Z
                           else digitsValue ex, s5)
                else None
              else Some (0%Z, expText ++ rest)
          | [] => Some (0%Z, expText ++ rest)
          end = Some (expValue, rest)) as Hexp.
  { unfold expText, expValue. destruct exponent as [[expNegative ex]|].
    - apply andb_true_iff in Hex as [Hex Hne].
      destruct ex as [|e ex']; [done|].
      pose proof Hex as Hex'. simpl in Hex'.
      apply andb_true_iff in Hex' as [He _].
      apply digit_facts in He as (_ & _ & _ & _ & _ & _ & Hm & Hp & _).
      cbn [app]. change (ceqb "e" "e" || ceqb "e" "E") with true. cbv iota.
      destruct expNegative; cbn [js list_ascii_of_string app].
      + change (ceqb "-" "-") with true. cbv iota.
        change (e :: ex' ++ rest) with ((e :: ex') ++ rest).
        by rewrite digitRun_digits.
      + rewrite Hm, Hp.
        change (e :: ex' ++ rest) with ((e :: ex') ++ rest).
        by rewrite digitRun_digits.
    - cbn [app]. destruct rest as [|c rest']; [done|].
      apply delimited_facts in Hrest as (_ & _ & -> & ->). done. }
  assert (match expText ++ rest with
          | c :: _ => isDigit c = false /\ ceqb c "." = false
          | [] => True
          end) as Hhead.
  { unfold expText. destruct exponent as [[expNegative ex]|]; [done|].
    cbn [app]. destruct rest as [|c rest']; [done|].
    by destruct (delimited_facts _ _ Hrest) as (? & ? & _). }
  (* the fraction *)
  set (fracText := match frac with
                   | [] => []
                   | _ :: _ => "."%char :: frac
                   end).
  assert (match fracText ++ expText ++ rest with
          | c :: s' =>
              if ceqb c "." then
                let '(frac, s3) := digitRun s' in
                if nonEmpty frac then Some (frac, s3) else None
              else Some ([], fracText ++ expText ++ rest)
          | [] => Some ([], fracText ++ expText ++ rest)
          end = Some (frac, expText ++ rest)) as Hfr.
  { unfold fracText. destruct frac as [|f frac'].
    - cbn [app]. destruct (expText ++ rest) as [|c r]; [done|].
      by destruct Hhead as [_ ->].
    - cbn [app]. change (ceqb "." ".") with true. cbv iota.
      change (f :: frac' ++ expText ++ rest)
        with ((f :: frac') ++ expText ++ rest).
      rewrite digitRun_digits; [done|done|].
      destruct (expText ++ rest); [done|]. by destruct Hhead. }
  assert (match fracText ++ expText ++ rest with
          | c :: _ => isDigit c = false
          | [] => True
          end) as Hhead'.
  { unfold fracText. destruct frac as [|f frac']; [|done].
    cbn [app]. destruct (expText ++ rest); [done|]. by destruct Hhead. }
  (* the integer part *)
  destruct int as [|i int']; [done|].
  pose proof Hint as Hi. simpl in Hi. apply andb_true_iff in Hi as [Hi _].
  assert (match int' with [] => true | _ :: _ => negb (ceqb i "0") end = true)
    as Hlead' by done.
  set (digits := (i :: int') ++ fracText ++ expText ++ rest).
  assert (printNumber negative (i :: int') frac exponent ++ rest
          = if negative then "-"%char :: digits else digits) as ->.
  { unfold printNumber, digits. fold fracText expText.
    destruct negative; cbn [js list_ascii_of_string app];
      by rewrite <- ?app_assoc. }
  unfold parseNumber.
  assert (match (if negative then "-"%char :: digits else digits) with
          | c :: s' =>
              if ceqb c "-" then (true, s')
              else (false, if negative then "-"%char :: digits else digits)
          | [] => (false, if negative then "-"%char :: digits else digits)
          end = (negative, digits)) as ->.
  { destruct negative; [done|]. unfold digits. cbn [app].
    apply digit_facts in Hi as (_ & _ & _ & _ & _ & _ & -> & _). done. }
  cbv beta iota zeta. unfold digits.
  rewrite digitRun_digits by done.
  cbv beta iota zeta.
  assert (negb match i :: int' with
               | [] => false
               | [_] => true
               | d :: _ :: _ => negb (ceqb d "0")
               end = false) as ->.
  { destruct int'; [done|]. by rewrite Hlead'. }
  cbv beta iota zeta. rewrite Hfr. cbv beta iota zeta. rewrite Hexp. done.
Qed.

End OracleNumber.

Section OracleValue.

Import ClaudeService.

Implicit Types (s rest w : list ascii) (c : ascii) (d : doc).

Lemma parseValue_array fuel s' :
  parseValue (S fuel) ("["%char :: s')
  = match skipSpace s' with
    | d :: s'' =>
        if ceqb d "]" then Some (JArray [], s'')
        else (fun r => (JArray r.1, r.2))
               <$> parseElements (parseValue fuel) (S (length s')) s'
    | [] => None
    end.
Proof. reflexivity. Qed.

Lemma parseValue_object fuel s' :
  parseValue (S fuel) ("{"%char :: s')
  = match skipSpace s' with
    | d :: s'' =>
        if ceqb d "}" then Some (JObject [], s'')
        else (fun r => (JObject r.1, r.2))
               <$> parseMembers (parseValue fuel) (S (length s')) s'
    | [] => None
    end.
Proof. reflexivity. Qed.

Lemma parseValue_string fuel s' :
  parseValue (S fuel) (DQ :: s')
  = (fun r => (JString r.1, r.2)) <$> parseChars s'.
Proof. reflexivity. Qed.

Lemma parseValue_number fuel c s :
  isDigit c || ceqb c "-" = true ->
  parseValue (S fuel) (c :: s) = parseNumber (c :: s).
Proof. by destruct c as [[] [] [] [] [] [] [] []]. Qed.

Lemma delimited_pad w c rest :
  isPad w = true ->
  ceqb c "," || ceqb c "]" || ceqb c "}" = true ->
  delimited (w ++ c :: rest) = true.
Proof.
  destruct w as [|x w]; simpl.
  - intros _ H.
    by destruct (isJsonSpace c), (ceqb c ","), (ceqb c "]"), (ceqb c "}").
  - rewrite andb_true_iff. by intros [-> _] _.
Qed.

Lemma skipSpace_sep w c rest :
  isPad w = true -> isJsonSpace c = false ->
  skipSpace (w ++ c :: rest) = c :: rest.
Proof.
  intros Hw Hc. rewrite skipSpace_pad by done. by apply skipSpace_head.
Qed.

(** The first character of a printed value opens a value. *)
Lemma print_opens d :
  wellFormed d = true -> exists c s, print d = c :: s /\ opens c = true.
Proof.
  destruct d as [|b|negative int frac exponent|units|pad items|pad members];
    intros Hwf.
  - by eexists _, _.
  - destruct b; by eexists _, _.
  - cbn [wellFormed] in Hwf.
    apply andb_true_iff in Hwf as [Hwf _].
    apply andb_true_iff in Hwf as [Hwf _].
    apply andb_true_iff in Hwf as [Hint Hlead].
    destruct int as [|i int']; [done|].
    simpl in Hint. apply andb_true_iff in Hint as [Hi _].
    cbn [print]. unfold printNumber. destruct negative.
    + by eexists _, _.
    + eexists _, _. split; [done|]. unfold opens. rewrite Hi.
      by rewrite !orb_true_r.
  - by eexists _, _.
  - by eexists _, _.
  - by eexists _, _.
Qed.

Lemma joinWith_cons sep x y l :
  joinWith sep (x :: y :: l) = x ++ sep :: joinWith sep (y :: l).
Proof. done. Qed.

Lemma joinWith_map_cons {A : Type} sep (f : A -> list ascii) x y l :
  joinWith sep (map f (x :: y :: l))
  = f x ++ sep :: joinWith sep (map f (y :: l)).
Proof. done. Qed.

Lemma joinWith_count sep l : length l <= S (length (joinWith sep l)).
Proof.
  induction l as [|x [|y l] IH]; [simpl; lia|simpl; lia|].
  rewrite joinWith_cons, length_app. simpl length in *. lia.
Qed.

Lemma joinWith_elem sep l x :
  In x l -> length x <= length (joinWith sep l).
Proof.
  induction l as [|y [|z l] IH]; [done| |].
  - intros [->|[]]. done.
  - intros Hx. rewrite joinWith_cons, length_app. simpl length.
    destruct Hx as [->|Hx]; [lia|]. specialize (IH Hx). simpl in IH. lia.
Qed.

(** The elements of a printed array are read back by a parser [value]
    that reads each of them back. *)
Lemma parseElements_print (value : list ascii -> option (json * list ascii))
    (items : list (padded doc)) n rest :
  Forall (fun i : padded doc =>
            isPad i.1.1 = true /\ isPad i.2 = true
            /\ wellFormed i.1.2 = true
            /\ forall r, delimited r = true ->
                         value (print i.1.2 ++ r) = Some (valueOf i.1.2, r))
         items ->
  items <> [] -> length items <= n ->
  parseElements value n
    (joinWith "," (map (fun '(w1, d', w2) => w1 ++ print d' ++ w2) items)
     ++ "]"%char :: rest)
  = Some (map (fun '(_, d', _) => valueOf d') items, rest).
Proof.
  intros Hitems. revert n.
  induction Hitems as [|[[w1 d] w2] items (Hw1 & Hw2 & Hwf & Hd) _ IH];
    intros n Hne Hn; [done|].
  destruct n as [|n]; [simpl in Hn; lia|].
  simpl in Hw1, Hw2, Hwf, Hd.
  destruct (print_opens d Hwf) as (c & s & Hc & Hopen).
  apply opens_facts in Hopen as (Hsp & _).
  assert (forall tail, skipSpace (w1 ++ print d ++ tail) = print d ++ tail)
    as Hskip.
  { intros tail. rewrite skipSpace_pad by done. rewrite Hc. cbn [app].
    by rewrite skipSpace_head. }
  destruct items as [|i items].
  - cbn [map joinWith parseElements]. rewrite <- !app_assoc.
    rewrite Hskip.
    rewrite Hd by (by apply delimited_pad).
    rewrite skipSpace_sep by done.
    by change (ceqb "]" ",") with false.
  - rewrite joinWith_map_cons. cbn [parseElements].
    rewrite <- !app_assoc.
    rewrite Hskip.
    rewrite <- app_comm_cons.
    rewrite Hd by (by apply delimited_pad).
    rewrite skipSpace_sep by done.
    change (ceqb "," ",") with true. cbv iota.
    rewrite IH; [done|done|]. simpl in Hn. simpl. lia.
Qed.

(** The same for the members of a printed object. *)
Lemma parseMembers_print (value : list ascii -> option (json * list ascii))
    (members : list (padded (list N) * padded doc)) n rest :
  Forall (fun m : padded (list N) * padded doc =>
            isPad m.1.1.1 = true /\ isUnits m.1.1.2 = true
            /\ isPad m.1.2 = true
            /\ isPad m.2.1.1 = true /\ isPad m.2.2 = true
            /\ wellFormed m.2.1.2 = true
            /\ forall r, delimited r = true ->
                         value (print m.2.1.2 ++ r) = Some (valueOf m.2.1.2, r))
         members ->
  members <> [] -> length members <= n ->
  parseMembers value n
    (joinWith ","
       (map (fun '(key, (w1, d', w2)) =>
               printPadded printString key ++ ":"%char :: w1 ++ print d' ++ w2)
            members)
     ++ "}"%char :: rest)
  = Some (map (fun '((_, key, _), (_, d', _)) => (key, valueOf d')) members,
          rest).
Proof.
  intros Hmembers. revert n.
  induction Hmembers
    as [|[[[k1 key] k2] [[w1 d] w2]] members
         (Hk1 & Hkey & Hk2 & Hw1 & Hw2 & Hwf & Hd) _ IH];
    intros n Hne Hn; [done|].
  destruct n as [|n]; [simpl in Hn; lia|].
  simpl in Hk1, Hkey, Hk2, Hw1, Hw2, Hwf, Hd.
  destruct (print_opens d Hwf) as (c & s & Hc & Hopen).
  apply opens_facts in Hopen as (Hsp & _).
  assert (forall tail,
            delimited (w2 ++ tail) = true ->
            skipSpace (printPadded printString (k1, key, k2)
                       ++ ":"%char :: w1 ++ print d ++ w2 ++ tail)
            = DQ :: flat_map printUnit key
                 ++ DQ :: k2 ++ ":"%char :: w1 ++ print d ++ w2 ++ tail) as Hhead.
  { intros tail _. unfold printPadded, printString. simpl.
    rewrite <- !app_assoc. rewrite skipSpace_pad by done. cbn [app].
    rewrite skipSpace_head by done. by rewrite <- !app_assoc. }
  assert (forall tail,
            delimited (w2 ++ tail) = true ->
            value (skipSpace (w1 ++ print d ++ w2 ++ tail))
            = Some (valueOf d, w2 ++ tail)) as Hvalue.
  { intros tail Htail. rewrite skipSpace_pad by done.
    rewrite Hc at 1. cbn [app]. rewrite skipSpace_head by done.
    rewrite app_comm_cons, <- Hc. by apply Hd. }
  destruct members as [|m members].
  - cbn [map joinWith parseMembers]. rewrite <- !app_assoc.
    rewrite <- app_comm_cons. rewrite <- !app_assoc.
    rewrite Hhead by (by apply delimited_pad).
    change (ceqb DQ DQ) with true. cbv iota.
    rewrite parseChars_print by done.
    rewrite skipSpace_sep by done.
    change (ceqb ":" ":") with true. cbv iota.
    rewrite Hvalue by (by apply delimited_pad).
    rewrite skipSpace_sep by done.
    by change (ceqb "}" ",") with false.
  - rewrite joinWith_map_cons. cbn [parseMembers].
    rewrite <- !app_assoc.
    rewrite <- app_comm_cons. rewrite <- !app_assoc.
    rewrite <- app_comm_cons.
    rewrite Hhead by (by apply delimited_pad).
    change (ceqb DQ DQ) with true. cbv iota.
    rewrite parseChars_print by done.
    rewrite skipSpace_sep by done.
    change (ceqb ":" ":") with true. cbv iota.
    rewrite Hvalue by (by apply delimited_pad).
    rewrite skipSpace_sep by done.
    change (ceqb "," ",") with true. cbv iota.
    rewrite IH; [done|done|]. simpl in Hn. simpl. lia.
Qed.

End OracleValue.

Section OracleRoundTrip.

Import ClaudeService.

Implicit Types (s rest w : list ascii) (c : ascii) (d : doc).

Lemma list_max_elem (l : list nat) (x : nat) : In x l -> x <= list_max l.
Proof.
  intros Hx. pose proof (proj1 (list_max_le l (list_max l)) (le_n _)) as H.
  rewrite List.Forall_forall in H. by apply H.
Qed.

Lemma list_max_bound (l : list nat) (n : nat) :
  (forall x, In x l -> x <= n) -> list_max l <= n.
Proof. intros H. apply list_max_le. by apply List.Forall_forall. Qed.

(** A printed value followed by a delimiter is read back, with fuel above
    its depth. *)
Lemma parseValue_print fuel d rest :
  wellFormed d = true -> depth d < fuel -> delimited rest = true ->
  parseValue fuel (print d ++ rest) = Some (valueOf d, rest).
Proof.
  revert d rest. induction fuel as [|fuel IH]; intros d rest Hwf Hdepth Hrest;
    [lia|].
  destruct d as [|b|negative int frac exponent|units|pad items|pad members].
  - reflexivity.
  - by destruct b.
  - destruct (print_opens _ Hwf) as (c & s & Hc & Hopen).
    rewrite <- (parseNumber_print _ _ _ _ rest Hwf Hrest).
    cbn [print] in *. rewrite Hc. cbn [app]. apply parseValue_number.
    cbn [wellFormed] in Hwf.
    apply andb_true_iff in Hwf as [Hwf _].
    apply andb_true_iff in Hwf as [Hwf _].
    apply andb_true_iff in Hwf as [Hint Hlead].
    destruct int as [|i int']; [done|].
    simpl in Hint. apply andb_true_iff in Hint as [Hi _].
    unfold printNumber in Hc.
    destruct negative; cbn [js list_ascii_of_string app] in Hc;
      injection Hc as <- _; [done|]. by rewrite Hi.
  - cbn [print valueOf]. unfold printString. cbn [app].
    rewrite parseValue_string, <- app_assoc. cbn [app].
    by rewrite parseChars_print.
  - cbn [wellFormed] in Hwf. apply andb_true_iff in Hwf as [Hpad Hitems].
    cbn [print valueOf]. rewrite <- app_comm_cons, <- app_assoc. cbn [app].
    rewrite parseValue_array.
    destruct items as [|i items].
    { rewrite skipSpace_sep by done. by change (ceqb "]" "]") with true. }
    assert (Forall (fun i : padded doc =>
                      isPad i.1.1 = true /\ isPad i.2 = true
                      /\ wellFormed i.1.2 = true
                      /\ forall r, delimited r = true ->
                                   parseValue fuel (print i.1.2 ++ r)
                                   = Some (valueOf i.1.2, r))
                   (i :: items)) as Hall.
    { apply List.Forall_forall. intros [[w1 d'] w2] Hin.
      apply forallb_Forall_true in Hitems.
      rewrite List.Forall_forall in Hitems. pose proof (Hitems _ Hin) as H.
      cbv beta iota in H.
      apply andb_true_iff in H as [H Hw2]. apply andb_true_iff in H as [Hw1 Hd'].
      simpl. repeat split; try done.
      intros r Hr. apply IH; [done| |done].
      cbn [depth] in Hdepth.
      assert (depth d' <= list_max (map (fun '(_, d0, _) => depth d0)
                                        (i :: items))); [|lia].
      apply list_max_elem.
      apply (in_map (fun '(_, d0, _) => depth d0) _ _ Hin). }
    set (items' := i :: items) in *.
    set (text := joinWith "," (map (fun '(w1, d', w2) => w1 ++ print d' ++ w2)
                                   items')).
    assert (exists c s, skipSpace (text ++ "]"%char :: rest) = c :: s
                        /\ ceqb c "]" = false) as (c & s & -> & ->).
    { inversion_clear Hall as [|? ? (Hw1 & Hw2 & Hwf' & _) _].
      destruct i as [[w1 d'] w2]. simpl in Hw1, Hwf'.
      destruct (print_opens d' Hwf') as (c & s & Hc & Hopen).
      apply opens_facts in Hopen as (Hsp & Hc' & _).
      unfold text, items'. destruct items as [|i' items].
      - cbn [map joinWith]. rewrite <- !app_assoc.
        rewrite skipSpace_pad by done. rewrite Hc. cbn [app].
        rewrite skipSpace_head by done. by eexists _, _.
      - rewrite joinWith_map_cons. rewrite <- !app_assoc.
        rewrite skipSpace_pad by done. rewrite Hc. cbn [app].
        rewrite skipSpace_head by done. by eexists _, _. }
    unfold text. rewrite parseElements_print; [done|done|done|].
    rewrite length_app.
    pose proof (joinWith_count ","
                  (map (fun '(w1, d', w2) => w1 ++ print d' ++ w2) items')) as H.
    rewrite length_map in H. unfold padded in *. lia.
  - cbn [wellFormed] in Hwf. apply andb_true_iff in Hwf as [Hpad Hmembers].
    cbn [print valueOf]. rewrite <- app_comm_cons, <- app_assoc. cbn [app].
    rewrite parseValue_object.
    destruct members as [|m members].
    { rewrite skipSpace_sep by done. by change (ceqb "}" "}") with true. }
    assert (Forall (fun m : padded (list N) * padded doc =>
                      isPad m.1.1.1 = true /\ isUnits m.1.1.2 = true
                      /\ isPad m.1.2 = true
                      /\ isPad m.2.1.1 = true /\ isPad m.2.2 = true
                      /\ wellFormed m.2.1.2 = true
                      /\ forall r, delimited r = true ->
                                   parseValue fuel (print m.2.1.2 ++ r)
                                   = Some (valueOf m.2.1.2, r))
                   (m :: members)) as Hall.
    { apply List.Forall_forall. intros [[[k1 key] k2] [[w1 d'] w2]] Hin.
      apply forallb_Forall_true in Hmembers.
      rewrite List.Forall_forall in Hmembers. pose proof (Hmembers _ Hin) as H.
      cbv beta iota in H.
      repeat (let H' := fresh in apply andb_true_iff in H as [H H']).
      simpl. repeat split; try done.
      intros r Hr. apply IH; [done| |done].
      cbn [depth] in Hdepth.
      assert (depth d' <= list_max (map (fun '(_, (_, d0, _)) => depth d0)
                                        (m :: members))); [|lia].
      apply list_max_elem.
      apply (in_map (fun '(_, (_, d0, _)) => depth d0) _ _ Hin). }
    set (members' := m :: members) in *.
    set (text := joinWith ","
                   (map (fun '(key, (w1, d', w2)) =>
                           printPadded printString key
                           ++ ":"%char :: w1 ++ print d' ++ w2)
                        members')).
    assert (exists c s, skipSpace (text ++ "}"%char :: rest) = c :: s
                        /\ ceqb c "}" = false) as (c & s & -> & ->).
    { inversion_clear Hall as [|? ? (Hk1 & _) _].
      destruct m as [[[k1 key] k2] [[w1 d'] w2]]. simpl in Hk1.
      unfold text, members'. destruct members as [|m' members].
      - cbn [map joinWith]. unfold printPadded, printString. simpl.
        rewrite <- !app_assoc. rewrite skipSpace_pad by done. cbn [app].
        rewrite skipSpace_head by done. by eexists _, _.
      - rewrite joinWith_map_cons. unfold printPadded, printString. simpl.
        rewrite <- !app_assoc. rewrite skipSpace_pad by done. cbn [app].
        rewrite skipSpace_head by done. by eexists _, _. }
    unfold text. rewrite parseMembers_print; [done|done|done|].
    rewrite length_app.
    pose proof (joinWith_count ","
                  (map (fun '(key, (w1, d', w2)) =>
                          printPadded printString key
                          ++ ":"%char :: w1 ++ print d' ++ w2)
                       members')) as H.
    rewrite length_map in H. unfold padded in *. lia.
Qed.

(** The text of a tree is at least as long as the tree is deep. *)
Lemma depth_length d : depth d <= length (print d).
Proof.
  assert (forall n d, depth d <= n -> depth d <= length (print d)) as H;
    [|by apply (H (depth d))].
  clear d. induction n as [|n IH]; intros d Hn; [lia|].
  destruct d as [| | | |pad items|pad members]; try (simpl; lia).
  - cbn [depth print] in *. cbn [length].
    rewrite length_app. cbn [length].
    assert (list_max (map (fun '(_, d', _) => depth d') items)
            <= length match items with
                      | [] => pad
                      | _ :: _ =>
                          joinWith ","
                            (map (fun '(w1, d', w2) => w1 ++ print d' ++ w2)
                                 items)
                      end); [|lia].
    apply list_max_bound. intros x Hx.
    apply in_map_iff in Hx as ([[w1 d'] w2] & <- & Hin).
    destruct items as [|i items]; [done|].
    assert (depth d' <= n) as Hd'.
    { pose proof (list_max_elem _ _
                    (in_map (fun '(_, d0, _) => depth d0) _ _ Hin)) as H.
      cbv beta iota in H. lia. }
    apply IH in Hd'.
    pose proof (joinWith_elem ","
                  (map (fun '(w1, d', w2) => w1 ++ print d' ++ w2) (i :: items))
                  _ (in_map (fun '(w1, d', w2) => w1 ++ print d' ++ w2) _ _ Hin))
      as H.
    cbv beta iota in H. rewrite !length_app in H. lia.
  - cbn [depth print] in *. cbn [length].
    rewrite length_app. cbn [length].
    assert (list_max (map (fun '(_, (_, d', _)) => depth d') members)
            <= length match members with
                      | [] => pad
                      | _ :: _ =>
                          joinWith ","
                            (map (fun '(key, (w1, d', w2)) =>
                                    printPadded printString key
                                    ++ ":"%char :: w1 ++ print d' ++ w2)
                                 members)
                      end); [|lia].
    apply list_max_bound. intros x Hx.
    apply in_map_iff in Hx as ([key [[w1 d'] w2]] & <- & Hin).
    destruct members as [|m members]; [done|].
    assert (depth d' <= n) as Hd'.
    { pose proof (list_max_elem _ _
                    (in_map (fun '(_, (_, d0, _)) => depth d0) _ _ Hin)) as H.
      cbv beta iota in H. lia. }
    apply IH in Hd'.
    pose proof (joinWith_elem ","
                  (map (fun '(key, (w1, d', w2)) =>
                          printPadded printString key
                          ++ ":"%char :: w1 ++ print d' ++ w2) (m :: members))
                  _ (in_map (fun '(key, (w1, d', w2)) =>
                               printPadded printString key
                               ++ ":"%char :: w1 ++ print d' ++ w2) _ _ Hin))
      as H.
    remember (joinWith ","
                (map (fun '(key, (w1, d', w2)) =>
                        printPadded printString key
                        ++ ":"%char :: w1 ++ print d' ++ w2) (m :: members)))
      as text.
    cbv beta iota in H. rewrite length_app in H. cbn [length] in H.
    rewrite !length_app in H. lia.
Qed.

(** [JSON.parse] reads every well-formed text, with white space around
    it, as the value that the text stands for. *)
Lemma JSON_parse_print lead d trail :
  isPad lead = true -> wellFormed d = true -> isPad trail = true ->
  JSON_parse (lead ++ print d ++ trail) = Some (valueOf d).
Proof.
  intros Hlead Hwf Htrail. unfold JSON_parse.
  destruct (print_opens d Hwf) as (c & s & Hc & Hopen).
  apply opens_facts in Hopen as (Hsp & _).
  rewrite skipSpace_pad by done.
  rewrite Hc at 2. cbn [app]. rewrite skipSpace_head by done.
  rewrite app_comm_cons, <- Hc.
  rewrite parseValue_print; [|done| |].
  - rewrite <- (app_nil_r trail), skipSpace_pad by done. done.
  - pose proof (depth_length d). rewrite !length_app. lia.
  - destruct trail as [|x trail]; [done|]. simpl in *.
    apply andb_true_iff in Htrail as [-> _]. done.
Qed.

End OracleRoundTrip.

Section OracleClaims.

Import ClaudeService.

(** C10: every value other than [null] that [JSON.parse] can build (no NaN
    inside) is accepted by [validateLink] and by [validateTag], and the
    object returned is normalized.  Its confidence is within [[0, 1]]: it
    is the number read when that number lies strictly between 0 and 1, it
    is 0 when the number is at most 0 (or is -0), 1 when the number is at
    least 1, and 0.5 when the field is not a number.  Each text field is
    the string of the parsed value or the empty string, and the location
    is [inline] only for the string ["inline"].  On [null] both
    validators throw.  So every suggestion of [parseAnalysisResponse] is
    the normal form of an entry of the parsed response and has its
    confidence within [[0, 1]]. *)
Theorem C10_shape_normalized (v : json) :
  noNaN v = true -> v <> JNull ->
  (exists l, validateLink v = Normal l
     /\ inUnit (Link.confidence l) = true
     /\ (forall n, field "confidence" v = Some (JNumber n) ->
         (Num.le n Num.zero = true -> Link.confidence l = Fin 0)
         /\ (Num.le Num.one n = true -> Link.confidence l = Fin 1)
         /\ (Num.lt Num.zero n = true -> Num.lt n Num.one = true ->
             Link.confidence l = n))
     /\ (field "confidence" v = Some JMinusZero -> Link.confidence l = Fin 0)
     /\ ((forall n, field "confidence" v <> Some (JNumber n)) ->
         field "confidence" v <> Some JMinusZero ->
         Link.confidence l = Fin (1 # 2))
     /\ Link.targetText l
        = match field "targetText" v with Some (JString s) => s | _ => [] end
     /\ Link.linkTarget l
        = match field "linkTarget" v with Some (JString s) => s | _ => [] end
     /\ Link.reasoning l
        = match field "reasoning" v with Some (JString s) => s | _ => [] end)
  /\ (exists t, validateTag v = Normal t
     /\ inUnit (Tag.confidence t) = true
     /\ (forall n, field "confidence" v = Some (JNumber n) ->
         (Num.le n Num.zero = true -> Tag.confidence t = Fin 0)
         /\ (Num.le Num.one n = true -> Tag.confidence t = Fin 1)
         /\ (Num.lt Num.zero n = true -> Num.lt n Num.one = true ->
             Tag.confidence t = n))
     /\ (field "confidence" v = Some JMinusZero -> Tag.confidence t = Fin 0)
     /\ ((forall n, field "confidence" v <> Some (JNumber n)) ->
         field "confidence" v <> Some JMinusZero ->
         Tag.confidence t = Fin (1 # 2))
     /\ Tag.tag t = match field "tag" v with Some (JString s) => s | _ => [] end
     /\ (Tag.location t = inline
         <-> field "location" v = Some (JString (wide (js "inline"))))
     /\ (Tag.location t = frontmatter
         <-> field "location" v <> Some (JString (wide (js "inline"))))
     /\ Tag.reasoning t
        = match field "reasoning" v with Some (JString s) => s | _ => [] end)
  /\ validateLink JNull = Throw
  /\ validateTag JNull = Throw
  /\ (forall text,
     Forall (fun l => inUnit (Link.confidence l) = true
                      /\ exists w, noNaN w = true /\ validateLink w = Normal l)
            (suggestedLinks (parseAnalysisResponse text))
     /\ Forall (fun t => inUnit (Tag.confidence t) = true
                         /\ exists w, noNaN w = true /\ validateTag w = Normal t)
               (suggestedTags (parseAnalysisResponse text))).
Proof.
  intros Hv Hnull. split; [|split; [|split; [done|split; [done|]]]].
  - eexists. split; [by apply validateLink_fields|].
    cbn [Link.confidence Link.targetText Link.linkTarget Link.reasoning].
    split; [by apply clampConfidence_unit, field_confidence_noNaN|].
    split; [|split; [|split; [|done]]].
    + intros n ->. apply clamp_cases.
    + by intros ->.
    + apply clampConfidence_default.
  - eexists. split; [by apply validateTag_fields|].
    cbn [Tag.confidence Tag.tag Tag.location Tag.reasoning].
    split; [by apply clampConfidence_unit, field_confidence_noNaN|].
    split; [|split; [|split; [|split; [done|]]]].
    + intros n ->. apply clamp_cases.
    + by intros ->.
    + apply clampConfidence_default.
    + destruct (field "location" v) as [[| | | |s| |]|]; try (by repeat split).
      destruct (bool_decide (s = wide (js "inline"))) eqn:E.
      * apply bool_decide_eq_true in E as ->. by repeat split.
      * apply bool_decide_eq_false in E.
        repeat split; try done; congruence.
  - intros text.
    destruct (parseAnalysisResponse_entries text) as [H1 H2]. split.
    + eapply Forall_impl; [exact H1|]. intros l (w & Hw & H).
      split; [by eapply validateLink_unit|by exists w].
    + eapply Forall_impl; [exact H2|]. intros t (w & Hw & H).
      split; [by eapply validateTag_unit|by exists w].
Qed.

(** The theorem on the object
    [{"targetText": "cats", "confidence": 1.5}]: the confidence of the
    link is 1. *)
Lemma C10_shape_normalized_witness :
  let v := JObject [(wide (js "targetText"), JString (wide (js "cats")));
                    (wide (js "confidence"), JNumber (Fin (3 # 2)))] in
  noNaN v = true /\ v <> JNull
  /\ exists l, validateLink v = Normal l
               /\ Link.targetText l = wide (js "cats")
               /\ Link.confidence l = Fin 1.
Proof.
  intros v. split; [reflexivity|]. split; [discriminate|].
  destruct (C10_shape_normalized v eq_refl ltac:(discriminate))
    as [(l & Hl & _ & Hn & _ & _ & Ht & _) _].
  exists l. split; [exact Hl|]. split; [exact Ht|].
  exact (proj1 (proj2 (Hn (Fin (3 # 2)) eq_refl)) eq_refl).
Defined.

Lemma find_char_Some c s i :
  find [c] s = Some i ->
  exists a b, s = a ++ c :: b /\ ~ In c a /\ length a = i.
Proof.
  revert i. induction s as [|d s IH]; intros i; simpl; [done|].
  destruct (ceqb c d) eqn:E; simpl.
  - intros [= <-]. apply ceqb_true in E as ->. exists [], s. simpl. tauto.
  - destruct (find [c] s) as [j|]; [|done]. simpl. intros [= <-].
    destruct (IH j eq_refl) as (a & b & -> & Ha & <-).
    exists (d :: a), b. split; [done|]. split; [|done].
    apply ceqb_false in E. intros [?|?]; [congruence|done].
Qed.

Lemma find_char_None c s : find [c] s = None -> ~ In c s.
Proof.
  induction s as [|d s IH]; simpl; [tauto|].
  destruct (ceqb c d) eqn:E; simpl; [done|].
  destruct (find [c] s); [done|]. intros _ [?|?]; [|by apply IH].
  apply ceqb_false in E. congruence.
Qed.

Lemma lastIndexOf_Some c s j :
  lastIndexOf c s = Some j ->
  exists a b, s = a ++ c :: b /\ ~ In c b /\ length a = j.
Proof.
  revert j. induction s as [|d s IH]; intros j; simpl; [done|].
  destruct (lastIndexOf c s) as [i|] eqn:E.
  - intros [= <-]. destruct (IH i eq_refl) as (a & b & -> & Hb & <-).
    by exists (d :: a), b.
  - destruct (ceqb d c) eqn:Ed; [|done]. intros [= <-].
    apply ceqb_true in Ed as ->. exists [], s. split; [done|]. split; [|done].
    clear IH. induction s as [|e s IH]; simpl in *; [tauto|].
    destruct (lastIndexOf c s); [done|].
    destruct (ceqb e c) eqn:Ee; [done|]. apply ceqb_false in Ee.
    intros [?|?]; [congruence|by apply IH].
Qed.

Lemma lastIndexOf_None c s : lastIndexOf c s = None -> ~ In c s.
Proof.
  induction s as [|d s IH]; simpl; [tauto|].
  destruct (lastIndexOf c s); [done|].
  destruct (ceqb d c) eqn:Ed; [done|]. apply ceqb_false in Ed.
  intros _ [?|?]; [congruence|by apply IH].
Qed.

Lemma take_snoc {A : Type} (l k : list A) (x : A) :
  take (S (length l)) (l ++ x :: k) = l ++ [x].
Proof. induction l as [|y l IH]; simpl; [done|]. by rewrite IH. Qed.

(** The span of [jsonMatch]: from the first opening brace to the last
    closing brace. *)
Lemma jsonMatch_Some text block :
  jsonMatch text = Some block ->
  exists pre body post,
    text = pre ++ block ++ post /\ block = "{"%char :: body ++ ["}"%char]
    /\ ~ In "{"%char pre /\ ~ In "}"%char post.
Proof.
  unfold jsonMatch.
  destruct (find (js "{") text) as [i|] eqn:E; [|done].
  apply find_char_Some in E as (pre & b & -> & Hpre & <-).
  rewrite drop_app_length.
  destruct (lastIndexOf _ _) as [j|] eqn:E'; [|done]. intros [= <-].
  apply lastIndexOf_Some in E' as (a & post & Hs & Hpost & <-).
  destruct a as [|c body]; simpl in Hs; [by injection Hs|].
  injection Hs as <- ->.
  exists pre, body, post. simpl.
  rewrite take_snoc. repeat split; try done.
  by rewrite <- app_assoc.
Qed.

Lemma find_char_app c pre r :
  ~ In c pre -> find [c] (pre ++ c :: r) = Some (length pre).
Proof.
  induction pre as [|d pre IH]; simpl; intros H.
  - by rewrite ceqb_refl.
  - destruct (ceqb c d) eqn:E; [apply ceqb_true in E as ->; destruct H; by left|].
    simpl.
    rewrite IH by tauto. done.
Qed.

Lemma lastIndexOf_app c a post :
  ~ In c post -> lastIndexOf c (a ++ c :: post) = Some (length a).
Proof.
  intros H. induction a as [|d a IH]; simpl.
  - destruct (lastIndexOf c post) eqn:E.
    + apply lastIndexOf_Some in E as (x & y & -> & _). destruct H.
      rewrite in_app_iff. right. by left.
    + by rewrite ceqb_refl.
  - by rewrite IH.
Qed.

Lemma jsonMatch_span pre body post :
  ~ In "{"%char pre -> ~ In "}"%char post ->
  jsonMatch (pre ++ "{"%char :: body ++ "}"%char :: post)
  = Some ("{"%char :: body ++ ["}"%char]).
Proof.
  intros Hpre Hpost. unfold jsonMatch.
  change (js "{") with ["{"%char].
  rewrite find_char_app, drop_app_length by done.
  change ("{"%char :: body ++ "}"%char :: post)
    with (("{"%char :: body) ++ "}"%char :: post).
  rewrite lastIndexOf_app by done.
  simpl. by rewrite take_snoc.
Qed.


Lemma jsonMatch_block body :
  jsonMatch ("{"%char :: body ++ ["}"%char])
  = Some ("{"%char :: body ++ ["}"%char]).
Proof. apply (jsonMatch_span [] body []); by intros []. Qed.

(** The answer depends on the span only. *)
Lemma parseAnalysisResponse_span pre body post :
  ~ In "{"%char pre -> ~ In "}"%char post ->
  parseAnalysisResponse (pre ++ "{"%char :: body ++ "}"%char :: post)
  = parseAnalysisResponse ("{"%char :: body ++ ["}"%char]).
Proof.
  intros Hpre Hpost. unfold parseAnalysisResponse, parseBody.
  rewrite jsonMatch_span by done.
  by rewrite jsonMatch_block.
Qed.

Lemma parseAnalysisResponse_block body :
  parseAnalysisResponse ("{"%char :: body ++ ["}"%char])
  = match JSON_parse ("{"%char :: body ++ ["}"%char]) with
    | Some parsed =>
        match buildResult parsed with
        | Normal result => result
        | Throw => emptyResult
        end
    | None => emptyResult
    end.
Proof.
  unfold parseAnalysisResponse, parseBody. rewrite jsonMatch_block.
  by destruct (JSON_parse _).
Qed.



End OracleClaims.

(* ================================================================== *)
(** ** The change log *)
(* ================================================================== *)

Section Changelog.

Import ChangelogService.

Lemma Forall_filter_keep {A : Type} (P : A -> Prop) (f : A -> bool) (l : list A) :
  Forall P l -> Forall P (List.filter f l).
Proof.
  rewrite !List.Forall_forall. intros H x Hx. apply filter_In in Hx as [Hx _]. eauto.
Qed.

Lemma Forall_filter_true {A : Type} (f : A -> bool) (l : list A) :
  Forall (fun x => f x = true) (List.filter f l).
Proof.
  rewrite List.Forall_forall. intros x Hx. by apply filter_In in Hx as [_ Hx].
Qed.

Lemma ltb_length_nonempty {A : Type} (l : list A) :
  (0 <? length l) = true <-> l <> [].
Proof. destruct l; simpl; split; try done. Qed.

Lemma saveChangelog_storage st : storage (saveChangelog st) = storage st.
Proof. unfold saveChangelog. by destruct (vault st !! changelogPath) as [[]|]. Qed.

Lemma saveChangelog_currentSession st :
  currentSession (saveChangelog st) = currentSession st.
Proof. unfold saveChangelog. by destruct (vault st !! changelogPath) as [[]|]. Qed.

(** What the change log file holds after [saveChangelog] is the storage
    in memory. *)
Lemma saveChangelog_persisted st s :
  persisted (saveChangelog st) = Some s -> s = storage st.
Proof.
  unfold saveChangelog, persisted.
  destruct (vault st !! changelogPath) as [[]|] eqn:E; simpl;
    rewrite ?lookup_insert_eq, ?E; congruence.
Qed.

Lemma saveChangelog_other st path :
  path <> changelogPath ->
  vault (saveChangelog st) !! path = vault st !! path.
Proof.
  intros Hp. unfold saveChangelog.
  destruct (vault st !! changelogPath) as [[]|]; simpl;
    by rewrite ?lookup_insert_ne.
Qed.

Lemma saveChangelog_noEmpty st :
  noEmptySession (storage st) -> noEmptyState (saveChangelog st).
Proof.
  intros H. split.
  - by rewrite saveChangelog_storage.
  - intros s Hs. apply saveChangelog_persisted in Hs. by subst s.
Qed.

Lemma endSession_empty now st session :
  currentSession st = Some session -> changes session = [] ->
  storage (endSession now st) = storage st
  /\ persisted (endSession now st) = persisted st
  /\ currentSession (endSession now st) = None.
Proof. unfold endSession. intros -> Hc. simpl. by rewrite Hc. Qed.

Lemma endSession_noEmpty now st : noEmptyState st -> noEmptyState (endSession now st).
Proof.
  intros [Hs Hp]. unfold endSession.
  destruct (currentSession st) as [session|]; [|done]. simpl.
  destruct (0 <? length (changes session)) eqn:E; [|done].
  apply ltb_length_nonempty in E.
  match goal with
  | |- noEmptyState {| vault := vault (saveChangelog ?x); currentSession := _;
                       storage := _ |} =>
      assert (noEmptyState (saveChangelog x)) as [H1 H2]; [|by split]
  end.
  apply saveChangelog_noEmpty. unfold noEmptySession. simpl.
  assert (Forall (fun s => changes s <> [])
            (sessions (storage st) ++ [
                  {| sessionId := sessionId session;
                     startTime := startTime session;
                     endTime := Some now;
                     changes := changes session |}])) as Hall.
  { apply Forall_app. split; [done|]. by constructor. }
  destruct (MAX_SESSIONS <? _); [|done].
  by apply Forall_drop.
Qed.

Lemma rollbackChange_noEmpty changeId st :
  noEmptyState st -> noEmptyState (rollbackChange changeId st).2.
Proof.
  intros Hst. unfold rollbackChange.
  destruct (findChange _ _) as [[change session]|]; [|done].
  destruct (truthy _) as [before|]; [|done].
  destruct (vault st !! filePath change) as [[]|]; [| |done|done]; simpl;
    apply saveChangelog_noEmpty; unfold noEmptySession; simpl;
    (eapply Forall_impl; [apply Forall_filter_true|]);
    intros s Hs; by apply ltb_length_nonempty in Hs.
Qed.

Lemma rollbackSession_noEmpty sessionId' st :
  noEmptyState st -> noEmptyState (rollbackSession sessionId' st).2.
Proof.
  intros Hst. unfold rollbackSession.
  destruct (getSession _ _) as [session|]; [|done].
  destruct (fold_left _ _ _) as [restored rolledBack]. simpl.
  apply saveChangelog_noEmpty. unfold noEmptySession. simpl.
  apply Forall_filter_keep. exact (proj1 Hst).
Qed.

Lemma isNote_true path : isNote path = true <-> path <> changelogPath.
Proof.
  unfold isNote. rewrite negb_true_iff. apply bool_decide_eq_false.
Qed.

Lemma writeNote_persisted path content st :
  path <> changelogPath ->
  persisted (writeNote path content st) = persisted st.
Proof.
  intros Hp. unfold writeNote.
  destruct (vault st !! path) as [[]|]; try done;
    unfold persisted; simpl; by rewrite lookup_insert_ne.
Qed.

(** The folder of the change log is not the change log file. *)
Lemma ensureChangelogFolder_log st :
  vault (ensureChangelogFolder st) !! changelogPath
  = vault st !! changelogPath.
Proof.
  unfold ensureChangelogFolder.
  destruct (vault st !! CHANGELOG_FOLDER); [done|]. simpl.
  by rewrite lookup_insert_ne.
Qed.

Lemma initialize_noEmpty vault0 :
  (forall s, persisted (created vault0) = Some s -> noEmptySession s) ->
  noEmptyState (initialize (created vault0)).
Proof.
  intros Hp. unfold initialize, loadChangelog.
  rewrite ensureChangelogFolder_log.
  unfold noEmptyState, persisted in *.
  assert (storage (ensureChangelogFolder (created vault0))
          = {| version := 1; sessions := [] |}) as Hsto.
  { unfold ensureChangelogFolder.
    by destruct (vault (created vault0) !! CHANGELOG_FOLDER). }
  destruct (vault (created vault0) !! changelogPath) as [[]|] eqn:E;
    cbn [storage vault]; rewrite ?ensureChangelogFolder_log, ?E, ?Hsto;
    (split; [first [by apply Hp|constructor]|done]).
Qed.

Lemma exec_noEmpty st c : noEmptyState st -> noEmptyState (exec st c).
Proof.
  intros Hst. destruct c; simpl.
  - apply initialize_noEmpty. exact (proj2 Hst).
  - done.
  - by apply endSession_noEmpty.
  - unfold pushChange. by destruct (currentSession st).
  - unfold recordAfter. by destruct (currentSession st).
  - unfold pushChange. by destruct (currentSession st).
  - by apply rollbackChange_noEmpty.
  - by apply rollbackSession_noEmpty.
  - destruct (isNote path) eqn:Hp; [|done]. apply isNote_true in Hp.
    destruct Hst as [Hs Hq]. split.
    + unfold writeNote. by destruct (vault st !! path) as [[]|].
    + by rewrite writeNote_persisted.
  - destruct (isNote path) eqn:Hp; [|done]. apply isNote_true in Hp.
    destruct Hst as [Hs Hq]. split; [done|].
    unfold persisted in *. simpl.
    destruct node; by rewrite ?lookup_insert_ne, ?lookup_delete_ne.
Qed.

Lemma run_noEmpty calls st : noEmptyState st -> noEmptyState (run calls st).
Proof.
  revert st. induction calls as [|c calls IH]; intros st Hst; [done|].
  simpl. apply IH. by apply exec_noEmpty.
Qed.

Lemma construct_persisted vault0 stored :
  persisted (construct vault0 stored) = stored.
Proof.
  unfold construct, created, withLog, persisted. simpl.
  destruct stored; by rewrite ?lookup_insert_eq, ?lookup_delete_eq.
Qed.

End Changelog.

(** C6: whatever calls are made on the service, started over any vault
    and over a change log file that holds no empty session (or over no
    file), neither the persisted change log nor the storage in memory
    ever holds a session with zero changes.  [endSession] on a session
    without changes persists nothing, and [rollbackChange] persists only
    sessions that still have changes. *)
Theorem C6_no_empty_session_persisted (calls : list call)
    (vault : gmap string ChangelogService.TAbstractFile)
    (stored : option ChangelogService.ChangelogStorage) :
  (forall s, stored = Some s -> noEmptySession s) ->
  (forall s, ChangelogService.persisted (run calls (construct vault stored)) = Some s ->
             noEmptySession s)
  /\ noEmptySession (ChangelogService.storage (run calls (construct vault stored)))
  /\ (forall st now session,
        ChangelogService.currentSession st = Some session ->
        ChangelogService.changes session = [] ->
        ChangelogService.persisted (ChangelogService.endSession now st)
        = ChangelogService.persisted st
        /\ ChangelogService.storage (ChangelogService.endSession now st)
           = ChangelogService.storage st)
  /\ (forall st changeId,
        noEmptySession
          (ChangelogService.storage (ChangelogService.rollbackChange changeId st).2)
        \/ (ChangelogService.rollbackChange changeId st).1 = false).
Proof.
  intros Hstored.
  assert (noEmptyState (run calls (construct vault stored))) as [Hs Hp].
  { apply run_noEmpty. split; [constructor|].
    by rewrite construct_persisted. }
  split; [done|]. split; [done|]. split.
  - intros st now session H1 H2.
    destruct (endSession_empty now st session H1 H2) as (? & ? & ?). done.
  - intros st changeId. unfold ChangelogService.rollbackChange.
    destruct (ChangelogService.findChange _ _) as [[change session]|]; [|by right].
    destruct (ChangelogService.truthy _) as [before|]; [|by right].
    destruct (ChangelogService.vault st !! ChangelogService.filePath change)
      as [[]|]; [| |by right|by right];
      left; simpl; unfold ChangelogService.save;
      rewrite saveChangelog_storage; unfold noEmptySession; simpl;
      (eapply Forall_impl; [apply Forall_filter_true|]);
      intros s Hlen; by apply ltb_length_nonempty in Hlen.
Qed.

(** The theorem over no change log file, on a session that is started and
    ended without any change, and on one with a change that is then
    rolled back. *)
Lemma C6_no_empty_session_persisted_witness :
  (forall s, @None ChangelogService.ChangelogStorage = Some s -> noEmptySession s)
  /\ noEmptySession
       (ChangelogService.storage
          (run [StartSession 1 "a" 1; EndSession 2;
                StartSession 3 "b" 3;
                RecordBefore 4 "c" 4 "a.md" (js "hello");
                EndSession 5; RollbackChange "4-c"]
             (construct (oneNote (js "hello")) None))).
Proof.
  split; [discriminate|].
  refine (proj1 (proj2 (C6_no_empty_session_persisted _ _ None _))).
  discriminate.
Defined.

Section Rollback.

Import ChangelogService.

Lemma hasId_true changeId c : hasId changeId c = true <-> id c = changeId.
Proof. unfold hasId. apply bool_decide_eq_true. Qed.

Lemma hasId_false changeId c : hasId changeId c = false <-> id c <> changeId.
Proof. unfold hasId. apply bool_decide_eq_false. Qed.

Lemma find_none_fresh changeId changes :
  Forall (fun c => id c <> changeId) changes ->
  List.find (hasId changeId) changes = None.
Proof.
  induction 1 as [|c l Hc _ IH]; simpl; [done|].
  apply hasId_false in Hc. by rewrite Hc.
Qed.

Lemma find_app_Some {A : Type} (f : A -> bool) l1 l2 x :
  List.find f l1 = Some x -> List.find f (l1 ++ l2) = Some x.
Proof.
  induction l1 as [|y l1 IH]; simpl; [done|]. destruct (f y); [done|apply IH].
Qed.

Lemma find_app_None {A : Type} (f : A -> bool) l1 l2 :
  List.find f l1 = None -> List.find f (l1 ++ l2) = List.find f l2.
Proof.
  induction l1 as [|y l1 IH]; simpl; [done|]. destruct (f y); [done|apply IH].
Qed.

Lemma findChange_fresh changeId older session :
  Forall (fun s => Forall (fun c => id c <> changeId) (changes s)) older ->
  findChange changeId (older ++ [session])
  = (fun c => (c, session)) <$> List.find (hasId changeId) (changes session).
Proof.
  induction 1 as [|s l Hs _ IH]; simpl.
  - by destruct (List.find _ _).
  - by rewrite (find_none_fresh _ _ Hs).
Qed.

(** What [rollbackChange] does once the change has been found. *)
Lemma rollbackChange_restores st changeId change session content old :
  findChange changeId (sessions (storage st)) = Some (change, session) ->
  beforeContent change = Some content -> content <> [] ->
  vault st !! filePath change = Some (TFile old) ->
  filePath change <> changelogPath ->
  (rollbackChange changeId st).1 = true
  /\ vault (rollbackChange changeId st).2 !! filePath change
     = Some (TFile content).
Proof.
  intros Hfind Hbefore Hne Hfile Hpath. unfold rollbackChange.
  rewrite Hfind, Hbefore. destruct content as [|c content]; [done|]. simpl.
  rewrite Hfile. simpl. split; [done|]. unfold save.
  rewrite saveChangelog_other by done. apply lookup_insert_eq.
Qed.

Lemma findChange_None changeId sessions' :
  Forall (fun s => Forall (fun c => id c <> changeId) (changes s)) sessions' ->
  findChange changeId sessions' = None.
Proof.
  induction 1 as [|s l Hs _ IH]; simpl; [done|].
  by rewrite (find_none_fresh _ _ Hs).
Qed.

(** While the session is open, its changes are not in the storage. *)
Lemma rollbackChange_not_found st changeId :
  findChange changeId (sessions (storage st)) = None ->
  rollbackChange changeId st = (false, st).
Proof. unfold rollbackChange. by intros ->. Qed.

Lemma recorded_new changes entry content :
  Forall (fun c => id c <> id entry) changes ->
  beforeContent entry = Some content ->
  recorded (id entry) (filePath entry) content (changes ++ [entry]).
Proof.
  intros Hfresh Hbefore. exists entry. split; [|done].
  rewrite find_app_None by (by apply find_none_fresh). simpl.
  unfold hasId. by rewrite bool_decide_eq_true_2.
Qed.

Lemma recorded_push changeId path content changes entry :
  recorded changeId path content changes ->
  recorded changeId path content (changes ++ [entry]).
Proof.
  intros (c & Hfind & ? & ?). exists c. split; [|done]. by apply find_app_Some.
Qed.

Lemma recorded_complete changeId path content changes cid after type' desc det :
  recorded changeId path content changes ->
  recorded changeId path content (completeChange cid after type' desc det changes).
Proof.
  intros (c & Hfind & Hpath & Hbefore).
  induction changes as [|e changes IH]; simpl in *; [done|].
  destruct (hasId cid e) eqn:Hcid.
  - destruct (hasId changeId e) eqn:He.
    + injection Hfind as ->. eexists. simpl.
      unfold hasId at 1. simpl. apply hasId_true in He.
      rewrite bool_decide_eq_true_2 by done. done.
    + unfold recorded. simpl. unfold hasId at 1. simpl.
      apply hasId_false in He. rewrite bool_decide_eq_false_2 by done.
      by exists c.
  - destruct (hasId changeId e) eqn:He.
    + injection Hfind as ->. exists c. simpl. by rewrite He.
    + destruct (IH Hfind) as (c' & ? & ? & ?). exists c'. simpl. by rewrite He.
Qed.

(** The calls made inside the session keep the session open, keep the
    record of the change and leave the storage alone. *)
Lemma exec_inSession changeId path content st c :
  inSession c = true ->
  (exists s, currentSession st = Some s
             /\ recorded changeId path content (changes s)) ->
  (exists s, currentSession (exec st c) = Some s
             /\ recorded changeId path content (changes s))
  /\ storage (exec st c) = storage st.
Proof.
  intros Hc (s & Hs & Hrec). destruct c; try done; simpl.
  - unfold pushChange. rewrite Hs. simpl. split; [|done].
    eexists. split; [done|]. simpl. by apply recorded_push.
  - unfold recordAfter. rewrite Hs. simpl. split; [|done].
    eexists. split; [done|]. simpl. by apply recorded_complete.
  - unfold pushChange. rewrite Hs. simpl. split; [|done].
    eexists. split; [done|]. simpl. by apply recorded_push.
  - destruct (isNote path0); [|eauto].
    unfold writeNote. destruct (vault st !! path0) as [[]|]; simpl; eauto.
  - destruct (isNote path0); eauto.
Qed.

Lemma run_inSession changeId path content calls st :
  forallb inSession calls = true ->
  (exists s, currentSession st = Some s
             /\ recorded changeId path content (changes s)) ->
  (exists s, currentSession (run calls st) = Some s
             /\ recorded changeId path content (changes s))
  /\ storage (run calls st) = storage st.
Proof.
  revert st. induction calls as [|c calls IH]; intros st Hcalls Hst; simpl.
  - done.
  - simpl in Hcalls. apply andb_true_iff in Hcalls as [Hc Hcalls].
    destruct (exec_inSession _ _ _ _ _ Hc Hst) as [Hst' Hsto].
    destruct (IH _ Hcalls Hst') as [? ?]. split; [done|congruence].
Qed.

Lemma lastSessions_snoc older session :
  exists kept, lastSessions (older ++ [session]) = kept ++ [session]
               /\ kept = drop (length (older ++ [session]) - MAX_SESSIONS) older.
Proof.
  unfold lastSessions. eexists. split; [|done].
  rewrite drop_app_le; [done|]. rewrite length_app. simpl. unfold MAX_SESSIONS. lia.
Qed.

(** [endSession] moves the session that holds the record to the end of
    the storage. *)
Lemma endSession_recorded changeId path content now st s :
  currentSession st = Some s ->
  recorded changeId path content (changes s) ->
  Forall (fun s' => Forall (fun c => id c <> changeId) (changes s'))
         (sessions (storage st)) ->
  exists change session,
    findChange changeId (sessions (storage (endSession now st)))
    = Some (change, session)
    /\ filePath change = path /\ beforeContent change = Some content.
Proof.
  intros Hs (c & Hfind & Hpath & Hbefore) Hfresh.
  unfold endSession. rewrite Hs. simpl.
  assert (changes s <> []) as Hne by (by destruct (changes s)).
  apply ltb_length_nonempty in Hne. rewrite Hne.
  set (s' := {| sessionId := sessionId s; startTime := startTime s;
                endTime := Some now; changes := changes s |}).
  exists c, s'. rewrite saveChangelog_storage. simpl. split; [|done].
  destruct (MAX_SESSIONS <? _).
  - destruct (lastSessions_snoc (sessions (storage st)) s') as (kept & -> & ->).
    rewrite findChange_fresh by (by apply Forall_drop). simpl. by rewrite Hfind.
  - rewrite findChange_fresh by done. simpl. by rewrite Hfind.
Qed.

End Rollback.

(** C2, as stated: right after the patch, with the session still open,
    [rollbackChange] would succeed and restore the content.  The change is
    only in the open session, [rollbackChange] looks in the stored
    sessions, finds nothing and returns [false]; the note keeps the
    patched content. *)
Lemma C2_open_session_refuted :
  let st := (ChangelogService.startSession 1 "s" 1
               (construct (oneNote (js "I love cats.")) None)).2 in
  let recording :=
    ChangelogService.recordBefore 2 "c" 2 "a.md" (js "I love cats.") st in
  let patched :=
    ChangelogService.writeNote "a.md" (js "I love [[Cats]].") recording.2 in
  ChangelogService.currentSession patched <> None
  /\ (ChangelogService.rollbackChange recording.1 patched).1 = false
  /\ ChangelogService.vault
       (ChangelogService.rollbackChange recording.1 patched).2 !! "a.md"%string
     = Some (ChangelogService.TFile (js "I love [[Cats]]."))
  /\ ChangelogService.vault
       (ChangelogService.rollbackChange recording.1 patched).2 !! "a.md"%string
     <> Some (ChangelogService.TFile (js "I love cats.")).
Proof.
  vm_compute. repeat split; discriminate.
Qed.

(** C2, amended: a non-empty content [D] of a note (a file other than
    the change log file) recorded by [recordBefore] inside an open
    session, under an id that no known change carries, can be rolled back
    once the session has been ended, and not before.  After any calls that
    record into the session or write notes (the patch that writes [D']
    among them), [rollbackChange] on the id returned by [recordBefore]
    returns [false] and changes nothing as long as the session is open;
    after [endSession] it returns [true] and leaves the note with exactly
    [D], provided the note still exists then.  The path of the change log
    file is taken to hold no folder, where [saveChangelog] fails. *)
Theorem C2_rollback_round_trip (st : ChangelogService.state)
    (session : ChangelogService.ChangelogSession) (now : Z) (random : string)
    (stamp : Z) (path : string) (D : list ascii) (calls : list call)
    (endNow : Z) (current : list ascii) :
  ChangelogService.currentSession st = Some session ->
  freshId (ChangelogService.generateId now random) st ->
  D <> [] ->
  forallb inSession calls = true ->
  path <> ChangelogService.changelogPath ->
  ChangelogService.vault st !! ChangelogService.changelogPath
  <> Some ChangelogService.TFolder ->
  let recording := ChangelogService.recordBefore now random stamp path D st in
  let patched := run calls recording.2 in
  let ended := ChangelogService.endSession endNow patched in
  ChangelogService.vault ended !! path = Some (ChangelogService.TFile current) ->
  ChangelogService.rollbackChange recording.1 patched = (false, patched)
  /\ (ChangelogService.rollbackChange recording.1 ended).1 = true
  /\ ChangelogService.vault (ChangelogService.rollbackChange recording.1 ended).2
       !! path
     = Some (ChangelogService.TFile D).
Proof.
  intros Hsession Hfresh HD Hcalls Hpath _ recording patched ended Hfile.
  unfold freshId in Hfresh. rewrite Hsession in Hfresh.
  apply Forall_app in Hfresh as [Hstored Hcurrent].
  inversion_clear Hcurrent as [|? ? Hcurrent' _].
  set (changeId := ChangelogService.generateId now random) in *.
  assert (exists s, ChangelogService.currentSession recording.2 = Some s
                    /\ recorded changeId path D (ChangelogService.changes s))
    as Hrec.
  { unfold recording, ChangelogService.recordBefore, ChangelogService.pushChange.
    simpl. rewrite Hsession. eexists. split; [done|]. simpl.
    by apply (recorded_new _ (ChangelogService.Build_ChangeEntry changeId _ _ path _ _ _ _)). }
  destruct (run_inSession _ _ _ calls _ Hcalls Hrec) as [(s & Hs & Hs') Hsto].
  fold patched in Hs, Hsto.
  assert (ChangelogService.storage recording.2 = ChangelogService.storage st)
    as Hsto'.
  { unfold recording, ChangelogService.recordBefore, ChangelogService.pushChange.
    simpl. by rewrite Hsession. }
  split.
  - apply rollbackChange_not_found. rewrite Hsto, Hsto'.
    by apply findChange_None.
  - destruct (endSession_recorded changeId path D endNow _ s Hs Hs')
      as (change & session' & Hfind & Hp & Hbefore).
    { by rewrite Hsto, Hsto'. }
    fold ended in Hfind. subst path.
    by eapply rollbackChange_restores.
Qed.

(** The theorem on the note ["I love cats."], patched and completed with
    [recordAfter] inside the session. *)
Lemma C2_rollback_round_trip_witness :
  let st := (ChangelogService.startSession 1 "s" 1
               (construct (oneNote (js "I love cats.")) None)).2 in
  let calls := [WriteNote "a.md" (js "I love [[Cats]].");
                RecordAfter "2-c" (js "I love [[Cats]].")
                  ChangelogService.link_added (js "Added 1 link(s) to a")
                  (ChangelogService.LinkAddedDetails (js "cats") (js "Cats") 0 0 0)] in
  let recording :=
    ChangelogService.recordBefore 2 "c" 2 "a.md" (js "I love cats.") st in
  let patched := run calls recording.2 in
  let ended := ChangelogService.endSession 3 patched in
  ChangelogService.vault ended !! "a.md"%string
  = Some (ChangelogService.TFile (js "I love [[Cats]]."))
  /\ ChangelogService.rollbackChange recording.1 patched = (false, patched)
  /\ (ChangelogService.rollbackChange recording.1 ended).1 = true
  /\ ChangelogService.vault (ChangelogService.rollbackChange recording.1 ended).2
       !! "a.md"%string
     = Some (ChangelogService.TFile (js "I love cats.")).
Proof.
  split; [reflexivity|].
  refine (C2_rollback_round_trip _ _ 2 "c" 2 "a.md" (js "I love cats.") _ 3
            (js "I love [[Cats]].") _ _ _ _ _ _ _).
  - reflexivity.
  - repeat constructor.
  - discriminate.
  - reflexivity.
  - discriminate.
  - vm_compute. discriminate.
  - reflexivity.
Defined.

(** The same round trip on a note that was empty before the patch: the
    empty prior content is falsy, and [rollbackChange] gives up. *)
Lemma rollbackChange_empty_before :
  let st := (ChangelogService.startSession 1 "s" 1
               (construct (oneNote []) None)).2 in
  let recording := ChangelogService.recordBefore 2 "c" 2 "a.md" [] st in
  let ended :=
    ChangelogService.endSession 3
      (ChangelogService.writeNote "a.md" (js "#idea") recording.2) in
  (ChangelogService.rollbackChange recording.1 ended).1 = false
  /\ ChangelogService.vault (ChangelogService.rollbackChange recording.1 ended).2
       !! "a.md"%string
     = Some (ChangelogService.TFile (js "#idea")).
Proof. vm_compute. by split. Qed.

(** A change recorded on the path of the change log file itself: the
    rollback writes the prior content there, and [saveChangelog] then
    writes the change log, now without any session, over it. *)
Example rollbackChange_on_log_path :
  let st :=
    run [StartSession 1 "s" 1;
         RecordBefore 2 "c" 2 ChangelogService.changelogPath (js "D");
         EndSession 3]
      (construct (oneNote (js "n")) None) in
  let after := ChangelogService.rollbackChange "2-c" st in
  ChangelogService.persisted st <> None
  /\ after.1 = true
  /\ ChangelogService.vault after.2 !! ChangelogService.changelogPath
     = Some (ChangelogService.TLogFile
               {| ChangelogService.version := 1;
                  ChangelogService.sessions := [] |}).
Proof. vm_compute. by repeat split. Qed.

(** The scenario of the specification: a session with three changes, one
    of whose notes is deleted before the rollback.  The two other notes
    get their prior content back, the count is 2 and the session is
    gone. *)
Example rollbackSession_one_note_deleted :
  let st :=
    run [StartSession 1 "s" 1;
         RecordBefore 2 "a" 2 "a.md" (js "A"); WriteNote "a.md" (js "A+");
         RecordBefore 3 "b" 3 "b.md" (js "B"); WriteNote "b.md" (js "B+");
         RecordBefore 4 "c" 4 "c.md" (js "C"); WriteNote "c.md" (js "C+");
         EndSession 5;
         SetNote "b.md" None]
      (construct (threeNotes (js "A") (js "B") (js "C")) None) in
  let after := ChangelogService.rollbackSession "1-s" st in
  after.1 = 2
  /\ ChangelogService.vault after.2 !! "a.md"%string
     = Some (ChangelogService.TFile (js "A"))
  /\ ChangelogService.vault after.2 !! "b.md"%string = None
  /\ ChangelogService.vault after.2 !! "c.md"%string
     = Some (ChangelogService.TFile (js "C"))
  /\ ChangelogService.sessions (ChangelogService.storage after.2) = [].
Proof. vm_compute. by repeat split. Qed.

(** Newest first: of two changes to the same note, the older prior
    content is the one left in the note. *)
Example rollbackSession_newest_first :
  let st :=
    run [StartSession 1 "s" 1;
         RecordBefore 2 "a" 2 "a.md" (js "v0"); WriteNote "a.md" (js "v1");
         RecordBefore 3 "b" 3 "a.md" (js "v1"); WriteNote "a.md" (js "v2");
         EndSession 4]
      (construct (oneNote (js "v0")) None) in
  let after := ChangelogService.rollbackSession "1-s" st in
  after.1 = 2
  /\ ChangelogService.vault after.2 !! "a.md"%string
     = Some (ChangelogService.TFile (js "v0")).
Proof. vm_compute. by split. Qed.

(** C7 on a note that was empty before the patch.  The change has a prior
    content, the empty string; [rollbackSession] tests it for truth,
    takes it for absent, restores nothing and returns 0, and removes the
    session all the same: the patched note can no longer be rolled back. *)
Lemma C7_empty_prior_content_skipped :
  let patched :=
    VaultOperations.applyTags []
      [mkTag (js "#idea") frontmatter [] (Fin (8 # 10))] in
  let st :=
    run [StartSession 1 "s" 1;
         RecordBefore 2 "c" 2 "a.md" [];
         WriteNote "a.md" patched;
         EndSession 3]
      (construct (oneNote []) None) in
  let after := ChangelogService.rollbackSession "1-s" st in
  map (fun s => map ChangelogService.beforeContent (ChangelogService.changes s))
      (ChangelogService.sessions (ChangelogService.storage st))
  = [[Some []]]
  /\ patched <> []
  /\ ChangelogService.vault st !! "a.md"%string
     = Some (ChangelogService.TFile patched)
  /\ after.1 = 0
  /\ ChangelogService.vault after.2 !! "a.md"%string
     = Some (ChangelogService.TFile patched)
  /\ ChangelogService.sessions (ChangelogService.storage after.2) = [].
Proof. vm_compute. by repeat split. Qed.

(* ================================================================== *)
(** ** Link patching: spans and occurrences *)
(* ================================================================== *)

Section Spans.

Import VaultOperations.

Implicit Types (s p q r t m a b x y run : list ascii) (c : ascii).

Lemma lc_bracket c : isBracket (lc c) = isBracket c.
Proof. by destruct c as [[] [] [] [] [] [] [] []]. Qed.

Lemma noBracket_In s c : noBracket s = true -> In c s -> isBracket c = false.
Proof.
  unfold noBracket. intros H Hc.
  apply forallb_Forall_true in H. rewrite List.Forall_forall in H.
  apply H in Hc. by destruct (isBracket c).
Qed.

Lemma noBracket_open s : noBracket s = true -> ~ In "["%char s.
Proof. intros H Hc. by apply (noBracket_In _ _ H) in Hc. Qed.

Lemma noBracket_close s : noBracket s = true -> ~ In "]"%char s.
Proof. intros H Hc. by apply (noBracket_In _ _ H) in Hc. Qed.

Lemma noBracket_app s t :
  noBracket (s ++ t) = noBracket s && noBracket t.
Proof. apply forallb_app. Qed.

Lemma noBracket_lower s t :
  toLowerCase s = toLowerCase t -> noBracket t = true -> noBracket s = true.
Proof.
  revert t. induction s as [|c s IH]; intros [|d t]; simpl; try done.
  intros [= Hc Hs]. rewrite !andb_true_iff. intros [Hd Ht].
  split; [|by eapply IH].
  by rewrite <- (lc_bracket c), Hc, lc_bracket.
Qed.

(** A text [m] without the code unit [c] lies on one side of any
    occurrence of [c]. *)
Lemma separate c x y b m a :
  x ++ c :: y = b ++ m ++ a -> ~ In c m ->
  (exists d, b = x ++ c :: d /\ y = d ++ m ++ a)
  \/ (exists d, a = d ++ c :: y /\ x = b ++ m ++ d).
Proof.
  revert b m. induction x as [|e x IH]; intros b m H Hm; simpl in *.
  - destruct b as [|e b]; simpl in *.
    + destruct m as [|e m]; simpl in *.
      * right. exists []. by rewrite <- H.
      * injection H as -> _. destruct Hm. by left.
    + injection H as -> ->. left. by exists b.
  - destruct b as [|e' b]; simpl in *.
    + destruct m as [|e' m]; simpl in *.
      * right. exists (e :: x). by rewrite <- H.
      * injection H as -> H.
        destruct (IH [] m H) as [(d & Hd & _)|(d & -> & ->)].
        -- intros ?. apply Hm. by right.
        -- by destruct x.
        -- right. by exists d.
    + injection H as -> H.
      destruct (IH b m H Hm) as [(d & -> & ->)|(d & -> & ->)].
      * left. by exists d.
      * right. by exists d.
Qed.

Lemma closesLink_true q :
  closesLink q = true
  <-> exists run q', q = run ++ js "]]" ++ q' /\ ~ In "]"%char run.
Proof.
  induction q as [|c q IH]; simpl.
  - split; [done|]. intros ([|] & ? & ? & _); done.
  - destruct (ceqb c "]") eqn:E.
    + apply ceqb_true in E as ->. destruct q as [|d q].
      * split; [done|]. intros ([|e [|]] & ? & ? & H); simplify_eq.
      * rewrite ceqb_true. split.
        -- intros ->. exists [], q. split; [done|simpl; tauto].
        -- intros ([|e run] & q' & H & Hrun); simpl in *; simplify_eq; [done|].
           destruct Hrun. by left.
    + apply ceqb_false in E. rewrite IH. split.
      * intros (run & q' & -> & Hrun). exists (c :: run), q'. split; [done|].
        intros [?|?]; [congruence|done].
      * intros ([|e run] & q' & H & Hrun); simpl in *; simplify_eq.
        exists run, q'. split; [done|]. intros ?. apply Hrun. by right.
Qed.

Lemma closesLink_app run q : ~ In "]"%char run -> closesLink (run ++ js "]]" ++ q) = true.
Proof. intros H. apply closesLink_true. eauto. Qed.

Lemma closesLink_skip x q : ~ In "]"%char x -> closesLink (x ++ q) = closesLink q.
Proof.
  induction x as [|c x IH]; simpl; [done|]. intros H.
  destruct (ceqb c "]") eqn:E.
  - apply ceqb_true in E as ->. destruct H. by left.
  - apply IH. intros ?. apply H. by right.
Qed.

Lemma insideSpan_true t s :
  insideSpan t s = true
  <-> exists x m y q, s = x ++ m ++ y ++ js "]]" ++ q
                      /\ ~ In "]"%char x /\ ~ In "]"%char y
                      /\ toLowerCase m = toLowerCase t.
Proof.
  induction s as [|c s IH].
  - simpl. rewrite orb_false_r, andb_true_iff, startsWithCI_true. split.
    + intros [(m & r & Hs & Hm) Hc]. symmetry in Hs.
      apply app_eq_nil in Hs as [-> ->].
      apply toLowerCase_eq_length in Hm. simpl in Hm.
      destruct t; [|done]. simpl in Hc. done.
    + intros (x & m & y & q & H & _). symmetry in H.
      apply app_eq_nil in H as [_ H]. apply app_eq_nil in H as [_ H].
      apply app_eq_nil in H as [_ H]. done.
  - cbn [insideSpan]. rewrite orb_true_iff, andb_true_iff, startsWithCI_true.
    split.
    + intros [[(m & r & Hs & Hm) Hc]|H].
      * rewrite Hs in Hc. rewrite <- (toLowerCase_eq_length _ _ Hm) in Hc.
        rewrite drop_app_length in Hc.
        apply closesLink_true in Hc as (y & q & -> & Hy).
        exists [], m, y, q. rewrite Hs. repeat split; try done. simpl; tauto.
      * destruct (ceqb c "]") eqn:E; [done|]. apply ceqb_false in E.
        apply IH in H as (x & m & y & q & -> & Hx & Hy & Hm).
        exists (c :: x), m, y, q. split; [done|]. split; [|done].
        intros [?|?]; [congruence|done].
    + intros ([|e x] & m & y & q & H & Hx & Hy & Hm); simpl in H.
      * left. split; [by exists m, (y ++ js "]]" ++ q)|].
        rewrite H, <- (toLowerCase_eq_length _ _ Hm), drop_app_length.
        by apply closesLink_app.
      * injection H as <- ->. right.
        destruct (ceqb c "]") eqn:E.
        { apply ceqb_true in E as ->. destruct Hx. by left. }
        apply IH. exists x, m, y, q. split; [done|]. split; [|done].
        intros ?. apply Hx. by right.
Qed.

Lemma alreadyLinked_true t s :
  alreadyLinked t s = true
  <-> exists p x m y q, s = p ++ js "[[" ++ x ++ m ++ y ++ js "]]" ++ q
                        /\ ~ In "]"%char x /\ ~ In "]"%char y
                        /\ toLowerCase m = toLowerCase t.
Proof.
  induction s as [|c s IH].
  - simpl. split; [done|]. intros ([|] & ? & ? & ? & ? & ? & _); done.
  - cbn [alreadyLinked]. rewrite orb_true_iff, andb_true_iff, ceqb_true. split.
    + intros [[-> H]|H].
      * destruct s as [|d s]; [done|].
        apply andb_true_iff in H as [Hd H]. apply ceqb_true in Hd as ->.
        apply insideSpan_true in H as (x & m & y & q & -> & ?).
        by exists [], x, m, y, q.
      * apply IH in H as (p & x & m & y & q & -> & ?).
        by exists (c :: p), x, m, y, q.
    + intros ([|e p] & x & m & y & q & H & Hrest); simpl in H.
      * injection H as -> ->. left. split; [done|]. rewrite ceqb_refl. simpl.
        apply insideSpan_true. by exists x, m, y, q.
      * injection H as <- ->. right. apply IH. by exists p, x, m, y, q.
Qed.

End Spans.

Section LinkPatch.

Import VaultOperations.

Implicit Types (s p q r t m a b x y run k : list ascii) (c : ascii)
  (l : SuggestedLink).

(** Where a text without bracket lies with respect to a link span: after
    it, before it, or inside its run. *)
Lemma span_location p run q b m a :
  p ++ js "[[" ++ run ++ js "]]" ++ q = b ++ m ++ a ->
  noBracket m = true -> (m = [] -> b = []) ->
  (exists k, a = k ++ js "[[" ++ run ++ js "]]" ++ q /\ p = b ++ m ++ k)
  \/ (exists k, b = p ++ js "[[" ++ run ++ js "]]" ++ k /\ q = k ++ m ++ a)
  \/ (exists k1 k2, run = k1 ++ m ++ k2 /\ b = p ++ js "[[" ++ k1
                    /\ a = k2 ++ js "]]" ++ q).
Proof.
  intros H Hm Hnil. simpl in H.
  pose proof (noBracket_open _ Hm) as Ho.
  pose proof (noBracket_close _ Hm) as Hc.
  destruct (separate _ _ _ _ _ _ H Ho) as [(k & -> & H1)|(k & -> & ->)];
    [|left; by exists k].
  destruct (separate "[" [] _ _ _ _ H1 Ho) as [(k' & -> & H2)|(k' & _ & H2)].
  2:{ symmetry in H2. apply app_eq_nil in H2 as [_ H2].
      apply app_eq_nil in H2 as [H2 _]. apply Hnil in H2. by destruct p. }
  simpl in H2.
  destruct (separate _ _ _ _ _ _ H2 Hc) as [(k2 & -> & H3)|(k2 & -> & ->)].
  2:{ right. right. by exists k', k2. }
  destruct (separate "]" [] _ _ _ _ H3 Hc) as [(k3 & -> & ->)|(k3 & _ & H4)].
  2:{ symmetry in H4. apply app_eq_nil in H4 as [_ H4].
      apply app_eq_nil in H4 as [H4 _]. apply Hnil in H4. by destruct p. }
  right. left. exists k3. simpl. by rewrite <- ?app_assoc.
Qed.

(** The two outcomes of [applyLink]. *)
Lemma applyLink_cases r l :
  (applyLink r l = r
   /\ (includes (js "[[" ++ linkTarget l ++ js "]]") r = true
       \/ includes (js "[[" ++ linkTarget l ++ js "|") r = true
       \/ alreadyLinked (targetText l) r = true
       \/ findCI (targetText l) r = None))
  \/ (exists b m a disp,
         r = b ++ m ++ a
         /\ toLowerCase m = toLowerCase (targetText l)
         /\ (m = [] -> b = [])
         /\ alreadyLinked (targetText l) r = false
         /\ (disp = linkTarget l \/ disp = linkTarget l ++ js "|" ++ m)
         /\ applyLink r l = b ++ js "[[" ++ disp ++ js "]]" ++ a).
Proof.
  unfold applyLink.
  destruct (includes (js "[[" ++ linkTarget l ++ js "]]") r) eqn:E1;
    [left; by eauto|].
  destruct (includes (js "[[" ++ linkTarget l ++ js "|") r) eqn:E2;
    [left; by eauto|].
  simpl orb. cbv iota.
  destruct (alreadyLinked (targetText l) r) eqn:E3; [left; by eauto 6|].
  destruct (findCI (targetText l) r) as [i|] eqn:E4; [|left; by eauto 6].
  right. pose proof E4 as E5.
  apply findCI_Some in E5 as (b & m & a & -> & <- & Hm).
  pose proof (toLowerCase_eq_length _ _ Hm) as Hlen.
  rewrite drop_app_length, <- Hlen, take_app_length, take_app_length.
  rewrite app_assoc, <- length_app, drop_app_length, <- app_assoc.
  exists b, m, a. eexists. split; [done|]. split; [done|]. split.
  { intros ->. destruct (targetText l); [|done].
    rewrite findCI_nil in E4. injection E4 as E4. by destruct b. }
  split; [done|]. split; [|done].
  destruct (negb _); eauto.
Qed.

Lemma settled_skip r l : settled r l -> applyLink r l = r.
Proof.
  intros Hs.
  assert (includes (js "[[" ++ linkTarget l ++ js "]]") r = true
          \/ includes (js "[[" ++ linkTarget l ++ js "|") r = true
          \/ alreadyLinked (targetText l) r = true
          \/ findCI (targetText l) r = None) as H.
  { destruct Hs as [(p & run & q & -> & Hrun & Hto)
                   |[(p & run & q & -> & Hrun & (x & m & y & -> & Hm))|H]];
      [destruct Hto as [-> | (alias & ->)]| |].
    - left. apply includes_true. exists p, q. by rewrite <- !app_assoc.
    - right. left. apply includes_true.
      exists p, (alias ++ js "]]" ++ q). by rewrite <- !app_assoc.
    - right. right. left. apply alreadyLinked_true.
      exists p, x, m, y, q. rewrite <- !app_assoc. split; [done|].
      rewrite !in_app_iff in Hrun. tauto.
    - tauto. }
  unfold applyLink.
  destruct H as [-> | [-> | [-> | ->]]]; try done.
  - by rewrite orb_true_r.
  - by destruct (_ || _).
  - by repeat case_match.
Qed.

End LinkPatch.

Section LinkInvariants.

Import VaultOperations.

Implicit Types (s p q r t m a b x y run k disp : list ascii) (c : ascii)
  (l : SuggestedLink).

(** A patch that [alreadyLinked] did not stop leaves every span of the
    text in place. *)
Lemma hasSpan_kept (P : list ascii -> Prop) t b m a disp :
  noBracket m = true -> (m = [] -> b = []) ->
  toLowerCase m = toLowerCase t ->
  alreadyLinked t (b ++ m ++ a) = false ->
  hasSpan P (b ++ m ++ a) ->
  hasSpan P (b ++ js "[[" ++ disp ++ js "]]" ++ a).
Proof.
  intros Hm Hnil Hmt Hnot (p & run & q & H & Hrun & HP).
  symmetry in H.
  destruct (span_location _ _ _ _ _ _ H Hm Hnil)
    as [(k & -> & ->)|[(k & -> & ->)|(k1 & k2 & -> & -> & ->)]].
  - exists (b ++ js "[[" ++ disp ++ js "]]" ++ k), run, q.
    split; [by rewrite <- !app_assoc|done].
  - exists p, run, (k ++ js "[[" ++ disp ++ js "]]" ++ a).
    split; [by rewrite <- !app_assoc|done].
  - assert (alreadyLinked t ((p ++ js "[[" ++ k1) ++ m ++ k2 ++ js "]]" ++ q) = true)
      as Ht; [|congruence].
    apply alreadyLinked_true. exists p, k1, m, k2, q.
    split; [by rewrite <- !app_assoc|]. rewrite !in_app_iff in Hrun. tauto.
Qed.

(** A text without bracket that occurs in the patched text occurs in the
    text before or after the new link, or in the new link. *)
Lemma occurrence_in_patch b disp a u t v :
  b ++ js "[[" ++ disp ++ js "]]" ++ a = u ++ t ++ v ->
  noBracket t = true -> t <> [] ->
  (exists k, b = u ++ t ++ k)
  \/ (exists k, a = k ++ t ++ v)
  \/ (exists k1 k2, disp = k1 ++ t ++ k2).
Proof.
  intros H Ht Hne.
  destruct (span_location _ _ _ _ _ _ H Ht)
    as [(k & -> & ->)|[(k & -> & ->)|(k1 & k2 & -> & -> & ->)]]; eauto.
  done.
Qed.

Lemma settled_kept r l l2 :
  plainLink l = true -> plainLink l2 = true ->
  settled r l -> settled (applyLink r l2) l.
Proof.
  intros Hl Hl2 Hs. apply andb_true_iff in Hl as [HT HL].
  apply andb_true_iff in Hl2 as [HT2 HL2].
  destruct (applyLink_cases r l2)
    as [[-> _]|(b & m & a & disp & -> & Hm & Hnil & Hnot & Hdisp & ->)];
    [done|].
  pose proof (noBracket_lower _ _ Hm HT2) as Hmb.
  destruct Hs as [Hs|[Hs|Hs]].
  - left. by eapply hasSpan_kept.
  - right. left. by eapply hasSpan_kept.
  - destruct (findCI (targetText l) (b ++ js "[[" ++ disp ++ js "]]" ++ a))
      as [i|] eqn:E; [|by right; right].
    right. left.
    apply findCI_Some in E as (u & t & v & H & _ & Ht).
    assert (t <> []) as Hne.
    { intros ->. apply toLowerCase_eq_length in Ht.
      destruct (targetText l); [|done]. by rewrite findCI_nil in Hs. }
    destruct (occurrence_in_patch _ _ _ _ _ _ H (noBracket_lower _ _ Ht HT) Hne)
      as [(k & ->)|[(k & ->)|(k1 & k2 & Hk)]].
    + exfalso. eapply (findCI_None _ _ u t (k ++ m ++ a)); [done|done|].
      by rewrite <- !app_assoc.
    + exfalso. eapply (findCI_None _ _ (b ++ m ++ k) t v); [done|done|].
      by rewrite <- !app_assoc.
    + exists b, disp, a. split; [done|].
      assert (noBracket disp = true) as Hd.
      { destruct Hdisp as [-> | ->]; [done|].
        rewrite !noBracket_app, HL2, Hmb. done. }
      split; [by apply noBracket_close|]. by exists k1, t, k2.
Qed.

Lemma linksClosed_true s :
  linksClosed s = true
  <-> forall p q, s = p ++ js "[[" ++ q -> closesLink q = true.
Proof.
  induction s as [|c s IH].
  - split; [|done]. intros _ [|] ? ?; done.
  - cbn [linksClosed]. rewrite andb_true_iff, IH. split.
    + intros [Hhead Htail] [|e p] q H; simpl in H.
      * injection H as -> ->. by rewrite ceqb_refl in Hhead.
      * injection H as <- ->. by eapply Htail.
    + intros H. split.
      * destruct (ceqb c "[") eqn:Ec; [|done]. apply ceqb_true in Ec as ->.
        destruct s as [|e q]; [done|].
        destruct (ceqb e "[") eqn:Ee; [|done]. apply ceqb_true in Ee as ->.
        by apply (H []).
      * intros p q ->. by apply (H (c :: p)).
Qed.

Lemma closesLink_replace k c rest x :
  closesLink (k ++ c :: rest) = true -> c <> "]"%char ->
  closesLink x = true -> closesLink (k ++ x) = true.
Proof.
  intros H Hc Hx. induction k as [|e k IH]; simpl in *; [done|].
  destruct (ceqb e "]"); [|by apply IH].
  destruct k as [|e' k]; simpl in *; [|done].
  apply ceqb_true in H. congruence.
Qed.

(** A patch keeps every ["[["] of the text closed. *)
Lemma linksClosed_patch b m a disp :
  linksClosed (b ++ m ++ a) = true ->
  noBracket m = true -> (m = [] -> b = []) -> noBracket disp = true ->
  linksClosed (b ++ js "[[" ++ disp ++ js "]]" ++ a) = true.
Proof.
  intros Hr Hm Hnil Hd. rewrite linksClosed_true in Hr.
  apply linksClosed_true. intros p q H.
  pose proof (noBracket_close _ Hd) as Hdc.
  pose proof (noBracket_open _ Hd) as Hdo.
  apply app_eq_app in H as (k & [[-> H]|[-> H]]).
  - destruct k as [|c1 [|c2 k]]; simpl in H; simplify_eq.
    + by apply closesLink_app.
    + apply (closesLink_app ("["%char :: disp)). intros [?|?]; done.
    + destruct m as [|c m].
      { specialize (Hnil eq_refl). by destruct p. }
      eapply closesLink_replace.
      * apply (Hr p (k ++ (c :: m) ++ a)). by rewrite <- !app_assoc.
      * intros ->. by pose proof (noBracket_In _ "]"%char Hm (or_introl eq_refl)).
      * apply (closesLink_app ("["%char :: "["%char :: disp)).
        intros [?|[?|?]]; done.
  - simpl in H.
    destruct (separate "]" ("["%char :: "["%char :: disp) ("]"%char :: a)
                k (js "[[") q) as [(k2 & -> & H2)|(k2 & -> & H2)].
    { exact H. }
    { intros [?|[?|[]]]; done. }
    + destruct (separate "]" [] a k2 (js "[[") q H2)
        as [(k3 & -> & ->)|(k3 & _ & H3)].
      { intros [?|[?|[]]]; done. }
      * apply (Hr (b ++ m ++ k3)). by rewrite <- !app_assoc.
      * by destruct k2.
    + destruct k as [|c1 [|c2 k]]; simpl in H2; simplify_eq;
        first [by apply closesLink_app
              |destruct Hdo; rewrite ?in_app_iff; simpl; tauto].
Qed.

Lemma applyLink_display l b m a disp :
  plainLink l = true -> toLowerCase m = toLowerCase (targetText l) ->
  disp = linkTarget l \/ disp = linkTarget l ++ js "|" ++ m ->
  noBracket m = true /\ noBracket disp = true.
Proof.
  intros Hl Hm Hdisp. apply andb_true_iff in Hl as [HT HL].
  pose proof (noBracket_lower _ _ Hm HT) as Hmb. split; [done|].
  destruct Hdisp as [-> | ->]; [done|]. by rewrite !noBracket_app, HL, Hmb.
Qed.

Lemma linksClosed_applyLink r l :
  plainLink l = true -> linksClosed r = true ->
  linksClosed (applyLink r l) = true.
Proof.
  intros Hl Hr.
  destruct (applyLink_cases r l)
    as [[-> _]|(b & m & a & disp & -> & Hm & Hnil & Hnot & Hdisp & ->)];
    [done|].
  destruct (applyLink_display _ b m a _ Hl Hm Hdisp) as [? ?].
  by apply (linksClosed_patch b m a disp).
Qed.

(** Once a suggestion has been looked at, the text is settled for it. *)
Lemma settled_own r l :
  plainLink l = true -> linksClosed r = true -> settled (applyLink r l) l.
Proof.
  intros Hl Hr. pose proof Hl as Hl'. apply andb_true_iff in Hl' as [HT HL].
  destruct (applyLink_cases r l)
    as [[-> H]|(b & m & a & disp & -> & Hm & Hnil & Hnot & Hdisp & ->)].
  - destruct H as [H|[H|[H|H]]].
    + left. apply includes_true in H as (p & q & ->).
      exists p, (linkTarget l), q. split; [by rewrite <- !app_assoc|].
      split; [by apply noBracket_close|by left].
    + left. apply includes_true in H as (p & q & ->).
      rewrite linksClosed_true in Hr.
      assert (closesLink (linkTarget l ++ js "|" ++ q) = true) as Hc.
      { apply (Hr p). by rewrite <- !app_assoc. }
      apply closesLink_true in Hc as (run & q' & Hq & Hrun).
      destruct (separate "]" run ("]"%char :: q') [] (linkTarget l ++ js "|") q)
        as [(k & Hk & _)|(k & -> & ->)].
      { simpl in Hq |- *. rewrite <- app_assoc. simpl. by rewrite Hq. }
      { rewrite in_app_iff. intros [?|[?|[]]]; [|done].
        by apply (noBracket_close _ HL). }
      { by destruct run. }
      exists p, ((linkTarget l ++ js "|") ++ k), q'.
      split; [by rewrite <- !app_assoc|]. split; [done|].
      right. exists k. by rewrite <- !app_assoc.
    + right. left. apply alreadyLinked_true in H
        as (p & x & m & y & q & -> & Hx & Hy & Hm).
      exists p, (x ++ m ++ y), q. split; [by rewrite <- !app_assoc|].
      split; [|by exists x, m, y].
      pose proof (noBracket_close _ (noBracket_lower _ _ Hm HT)).
      rewrite !in_app_iff. tauto.
    + by right; right.
  - destruct (applyLink_display _ b m a _ Hl Hm Hdisp) as [Hmb Hd].
    left. exists b, disp, a. split; [done|]. split; [by apply noBracket_close|].
    destruct Hdisp as [-> | ->]; [by left|right; by exists m].
Qed.

Lemma fold_settled ls r done :
  linksClosed r = true ->
  forallb plainLink ls = true -> forallb plainLink done = true ->
  Forall (settled r) done ->
  Forall (settled (fold_left applyLink ls r)) (done ++ ls).
Proof.
  revert r done. induction ls as [|l ls IH]; intros r done Hr Hls Hdone Hs.
  - by rewrite app_nil_r.
  - simpl in Hls. apply andb_true_iff in Hls as [Hl Hls]. simpl.
    rewrite (cons_middle l done ls), app_assoc. apply IH.
    + by apply linksClosed_applyLink.
    + done.
    + by rewrite forallb_app, Hdone; simpl; rewrite Hl.
    + apply Forall_app. split; [|constructor; [by apply settled_own|done]].
      rewrite List.Forall_forall in Hs. apply List.Forall_forall. intros l' Hl'.
      apply settled_kept; [|done|by apply Hs].
      by apply (proj1 (forallb_forall _ _) Hdone).
Qed.

Lemma fold_fixed ls r :
  (forall l, In l ls -> applyLink r l = r) -> fold_left applyLink ls r = r.
Proof.
  induction ls as [|l ls IH]; intros H; simpl; [done|].
  rewrite (H l) by (by left). apply IH. intros l' Hl'. apply H. by right.
Qed.

Lemma In_insertLink content (new : SuggestedLink) sorted l :
  In l (insertLink content new sorted) <-> l = new \/ In l sorted.
Proof.
  induction sorted as [|old sorted IH]; simpl; [naive_solver|].
  destruct (_ <=? _)%Z; simpl; [naive_solver|]. rewrite IH. naive_solver.
Qed.

Lemma In_sortLinks content links l :
  In l (sortLinks content links) <-> In l links.
Proof.
  induction links as [|new links IH]; simpl; [done|].
  rewrite In_insertLink, IH. naive_solver.
Qed.

(** A patched text is settled for the suggestion that patched it,
    whatever the suggestion. *)
Lemma applyLink_idempotent r l : applyLink (applyLink r l) l = applyLink r l.
Proof.
  destruct (applyLink_cases r l)
    as [[H _]|(b & m & a & disp & -> & Hm & Hnil & Hnot & Hdisp & ->)];
    [by rewrite !H|].
  set (r' := b ++ js "[[" ++ disp ++ js "]]" ++ a).
  assert (includes (js "[[" ++ linkTarget l ++ js "]]") r' = true
          \/ includes (js "[[" ++ linkTarget l ++ js "|") r' = true) as H.
  { destruct Hdisp as [-> | ->].
    - left. apply includes_true. exists b, a. by rewrite <- !app_assoc.
    - right. apply includes_true. exists b, (m ++ js "]]" ++ a).
      unfold r'. by rewrite <- !app_assoc. }
  unfold applyLink at 1. destruct H as [-> | ->]; [done|by rewrite orb_true_r].
Qed.

Lemma applyLinks_plain_idempotent content links :
  forallb plainLink links = true -> linksClosed content = true ->
  applyLinks (applyLinks content links) links = applyLinks content links.
Proof.
  intros Hl Hc. unfold applyLinks at 1 3.
  set (r := fold_left applyLink (sortLinks content links) content).
  assert (Forall (settled r) (sortLinks content links)) as Hs.
  { apply (fold_settled _ _ []); try done.
    apply forallb_forall. intros l Hin. apply In_sortLinks in Hin.
    by apply (proj1 (forallb_forall _ _) Hl). }
  apply fold_fixed. intros l Hin. apply settled_skip.
  rewrite List.Forall_forall in Hs. apply Hs.
  apply In_sortLinks. by apply In_sortLinks in Hin.
Qed.

End LinkInvariants.

(** C3, as stated: [applyLinks] would be idempotent for every content and
    every list of suggestions.  Here the second suggestion has a target
    text that ends in a bracket: it matches across the start of the link
    made for the first one and splits its ["[[Cats]]"], so that a second
    run links ["Cats"] once more. *)
Lemma C3_idempotence_refuted :
  let content := js "I love cats" in
  let links := [mkLink (js "cats") (js "Cats") [] (Fin (9 # 10));
                mkLink (js "love [") (js "X") [] (Fin (9 # 10))] in
  VaultOperations.applyLinks content links = js "I [[X|love []][Cats]]"
  /\ VaultOperations.applyLinks (VaultOperations.applyLinks content links) links
     = js "I [[X|love []][[[Cats]]]]"
  /\ VaultOperations.applyLinks (VaultOperations.applyLinks content links) links
     <> VaultOperations.applyLinks content links.
Proof. vm_compute. by repeat split. Qed.

(** The same with suggestions free of brackets, on a content with a
    ["[["] that nothing closes: the filter accepts both suggestions, the
    first run breaks the unclosed ["[[Cats|"] that had kept ["dogs"]
    from being linked, and the second run links it. *)
Example idempotence_unclosed_link :
  let content := js "[[Cats| dogs" in
  let links := [mkLink (js "dogs") (js "Cats") [] (Fin (9 # 10));
                mkLink (js "at") (js "X") [] (Fin (9 # 10))] in
  LinkingEngine.toApply
    (LinkingEngine.filterLinks (Fin (7 # 10)) links content [js "Cats"; js "X"])
  = links
  /\ forallb plainLink links = true
  /\ linksClosed content = false
  /\ VaultOperations.applyLinks content links = js "[[C[[X|at]]s| dogs"
  /\ VaultOperations.applyLinks (VaultOperations.applyLinks content links) links
     = js "[[C[[X|at]]s| [[Cats|dogs]]".
Proof. vm_compute. by repeat split. Qed.

(** C3, amended: [applyLinks] is idempotent for a single suggestion,
    whatever it is and whatever the content, since the link it makes is
    found by the already-linked test of the next run; and it is idempotent
    for any list of suggestions whose target texts and link targets hold
    no square bracket, on any content in which every ["[["] opens a link
    span (is followed by ["]]"] before any other closing bracket). *)
Theorem C3_applyLinks_idempotent (content : list ascii)
    (links : list SuggestedLink) :
  length links <= 1
  \/ (forallb plainLink links = true /\ linksClosed content = true) ->
  VaultOperations.applyLinks (VaultOperations.applyLinks content links) links
  = VaultOperations.applyLinks content links.
Proof.
  intros [Hlen|[Hplain Hclosed]].
  - destruct links as [|l [|l' links]]; [done| |simpl in Hlen; lia].
    apply applyLink_idempotent.
  - by apply applyLinks_plain_idempotent.
Qed.

(** The theorem on three suggestions over a content that already holds a
    link. *)
Lemma C3_applyLinks_idempotent_witness :
  let content := js "Cats chase birds; see [[Dogs|my dog]] and [the vet]." in
  let links := [mkLink (js "birds") (js "Birds") [] (Fin (9 # 10));
                mkLink (js "cats") (js "Cats") [] (Fin (9 # 10));
                mkLink (js "dog") (js "Dogs") [] (Fin (9 # 10))] in
  (forallb plainLink links = true /\ linksClosed content = true)
  /\ VaultOperations.applyLinks content links
     = js "[[Cats]] chase [[Birds]]; see [[Dogs|my dog]] and [the vet]."
  /\ VaultOperations.applyLinks (VaultOperations.applyLinks content links) links
     = VaultOperations.applyLinks content links.
Proof.
  split; [split; reflexivity|]. split; [reflexivity|].
  apply C3_applyLinks_idempotent. right. split; reflexivity.
Defined.

(* ================================================================== *)
(** ** Tag patching: the header tag field *)
(* ================================================================== *)

Section TagText.

Import VaultOperations.

Implicit Types (s x y n : list ascii) (c : ascii).

Lemma getSubstitution_plain matched before after captures t :
  ~ In "$"%char t -> getSubstitution matched before after captures t = t.
Proof.
  induction t as [|c t IH]; intros H; [done|]. cbn [getSubstitution].
  destruct (ceqb c "$") eqn:E.
  - apply ceqb_true in E as ->. destruct H. by left.
  - simpl. f_equal. apply IH. intros ?. apply H. by right.
Qed.

Lemma split_nonempty c s : split c s <> [].
Proof. destruct s as [|d s]; simpl; [done|]. by repeat case_match. Qed.

Lemma split_plain c x : ~ In c x -> split c x = [x].
Proof.
  induction x as [|d x IH]; intros H; simpl; [done|].
  destruct (ceqb d c) eqn:E.
  - apply ceqb_true in E as ->. destruct H. by left.
  - rewrite IH; [done|]. intros ?. apply H. by right.
Qed.

Lemma split_app_sep c x y : split c (x ++ c :: y) = split c x ++ split c y.
Proof.
  induction x as [|d x IH]; simpl.
  - by rewrite ceqb_refl.
  - destruct (ceqb d c); [by rewrite IH|]. rewrite IH.
    pose proof (split_nonempty c x). by destruct (split c x).
Qed.

Lemma join_cons sep x y (rest : list (list ascii)) :
  join sep (x :: y :: rest) = x ++ sep ++ join sep (y :: rest).
Proof. done. Qed.

Lemma split_join x (xs : list (list ascii)) :
  split "," (join (js ", ") (x :: xs))
  = split "," x ++ flat_map (fun y => split "," (" "%char :: y)) xs.
Proof.
  revert x. induction xs as [|y xs IH]; intros x.
  - simpl. by rewrite app_nil_r.
  - rewrite join_cons. change (js ", ") with (","%char :: [" "%char]).
    cbn [app]. rewrite split_app_sep. f_equal.
    change (" "%char :: join (","%char :: [" "%char]) (y :: xs))
      with ([" "%char] ++ join (js ", ") (y :: xs)).
    destruct xs as [|z xs].
    + simpl. by rewrite app_nil_r.
    + rewrite join_cons, app_assoc, <- join_cons.
      change (([" "%char] ++ y) :: z :: xs) with ((" "%char :: y) :: z :: xs).
      by rewrite IH.
Qed.

Lemma tagChar_not_space c : isTagChar c = true -> isSpace c = false.
Proof. by destruct c as [[] [] [] [] [] [] [] []]. Qed.

Lemma letter_tagChar c : isLetter c = true -> isTagChar c = true.
Proof. by destruct c as [[] [] [] [] [] [] [] []]. Qed.

Lemma lc_tagChar c : isTagChar (lc c) = isTagChar c.
Proof. by destruct c as [[] [] [] [] [] [] [] []]. Qed.

Lemma lc_letter c : isLetter (lc c) = isLetter c.
Proof. by destruct c as [[] [] [] [] [] [] [] []]. Qed.

Lemma validTagName_chars n :
  validTagName n = true -> n <> [] /\ Forall (fun c => isTagChar c = true) n.
Proof.
  destruct n as [|c n]; simpl; [done|]. rewrite andb_true_iff. intros [Hc Hn].
  split; [done|]. constructor; [by apply letter_tagChar|].
  by apply forallb_Forall_true.
Qed.

Lemma validTagName_lower x n :
  toLowerCase x = toLowerCase n -> validTagName n = true -> validTagName x = true.
Proof.
  destruct x as [|c x], n as [|d n]; simpl; try done.
  intros [= Hc Hx]. rewrite !andb_true_iff. intros [Hd Hn]. split.
  - by rewrite <- lc_letter, Hc, lc_letter.
  - clear Hc Hd. revert n Hx Hn. induction x as [|e x IH]; intros [|f n]; simpl;
      try done.
    intros [= He Hx]. rewrite !andb_true_iff. intros [Hf Hn]. split; [|by eapply IH].
    by rewrite <- lc_tagChar, He, lc_tagChar.
Qed.

Lemma trimStart_head c s : isSpace c = false -> trimStart (c :: s) = c :: s.
Proof. simpl. by intros ->. Qed.

Lemma trim_no_space s :
  Forall (fun c => isSpace c = false) s -> trimStart s = s /\ trimEnd s = s.
Proof.
  intros H. assert (forall t, Forall (fun c => isSpace c = false) t -> trimStart t = t)
    as Hs.
  { intros [|c t] Ht; [done|]. inversion_clear Ht. by apply trimStart_head. }
  split; [by apply Hs|]. unfold trimEnd. rewrite Hs; [apply rev_involutive|].
  apply List.Forall_forall. intros c Hc. apply in_rev in Hc.
  rewrite List.Forall_forall in H. by apply H.
Qed.

Lemma validTagName_no_space n :
  validTagName n = true -> Forall (fun c => isSpace c = false) n.
Proof.
  intros H. apply validTagName_chars in H as [_ H].
  eapply Forall_impl; [done|]. intros c. apply tagChar_not_space.
Qed.

Lemma trim_valid n : validTagName n = true -> trim n = n.
Proof.
  intros H. apply validTagName_no_space, trim_no_space in H as [H1 H2].
  unfold trim. by rewrite H1, H2.
Qed.

Lemma trim_space_valid n : validTagName n = true -> trim (" "%char :: n) = n.
Proof.
  intros H. unfold trim. simpl.
  apply validTagName_no_space, trim_no_space in H as [H1 H2]. by rewrite H1, H2.
Qed.

Lemma validTagName_no_char c n :
  isTagChar c = false -> validTagName n = true -> ~ In c n.
Proof.
  intros Hc H Hin. apply validTagName_chars in H as [_ H].
  rewrite List.Forall_forall in H. apply H in Hin. congruence.
Qed.

(** Reading back the tag field that [tagsLine] writes finds every
    well-formed name that was written. *)
Lemma parse_tagsLine (xs : list (list ascii)) n :
  In n xs -> validTagName n = true ->
  In n (parseFrontmatterTags (js "[" ++ join (js ", ") xs ++ js "]")).
Proof.
  intros Hin Hn. unfold parseFrontmatterTags. simpl startsWith. cbv iota.
  unfold slice1m1. simpl tail. rewrite removelast_last.
  apply filter_In. split; [|by destruct n].
  apply in_map_iff.
  pose proof (validTagName_no_char ","%char n eq_refl Hn) as Hcomma.
  destruct xs as [|x xs]; [done|]. rewrite split_join.
  destruct Hin as [->|Hin].
  - exists n. split; [by apply trim_valid|].
    rewrite split_plain by done. by left.
  - exists (" "%char :: n). split; [by apply trim_space_valid|].
    apply in_app_iff. right. apply in_flat_map. exists n. split; [done|].
    rewrite split_plain; [by left|]. intros [?|?]; done.
Qed.

End TagText.

Section Header.

Import VaultOperations.

Implicit Types (s x y h p u v : list ascii) (c : ascii).

Lemma startsWith_app_long p u v :
  length p <= length u -> startsWith p (u ++ v) = startsWith p u.
Proof.
  revert u. induction p as [|c p IH]; intros [|d u] H; simpl in *; try done;
    [lia|].
  rewrite IH by lia. done.
Qed.

Lemma startsWith_app_sep p u v c :
  ~ In c p -> startsWith p (u ++ c :: v) = startsWith p u.
Proof.
  revert u. induction p as [|d p IH]; intros u H; [by destruct u|].
  destruct u as [|e u]; simpl.
  - destruct (ceqb d c) eqn:E; [|done]. apply ceqb_true in E as ->.
    destruct H. by left.
  - rewrite IH; [done|]. intros ?. apply H. by right.
Qed.

Lemma find_minimal p s i a b :
  find p s = Some i -> s = a ++ p ++ b -> i <= length a.
Proof.
  revert i a. induction s as [|c s IH]; intros i a; simpl.
  - destruct (startsWith p []); [|done]. intros [= <-] _. lia.
  - destruct (startsWith p (c :: s)) eqn:E; [intros [= <-] _; lia|].
    destruct (find p s) as [j|] eqn:F; [|done]. simpl. intros [= <-] H.
    destruct a as [|c' a]; simpl in H.
    + rewrite H, startsWith_app in E. done.
    + injection H as -> H. simpl. pose proof (IH j a eq_refl H). lia.
Qed.

Lemma find_fence_intro h rest :
  includes fence (h ++ LF :: js "--") = false ->
  find fence (h ++ fence ++ rest) = Some (length h).
Proof.
  induction h as [|c h IH]; intros H.
  - done.
  - cbn [app find].
    assert (startsWith fence (c :: h ++ fence ++ rest) = false) as ->.
    { destruct (startsWith fence (c :: h ++ fence ++ rest)) eqn:E; [|done].
      assert (includes fence ((c :: h) ++ LF :: js "--") = true); [|congruence].
      change (c :: h ++ fence ++ rest)
        with (((c :: h) ++ LF :: js "--") ++ "-"%char :: rest) in E
        || (replace (c :: h ++ fence ++ rest)
              with (((c :: h) ++ LF :: js "--") ++ "-"%char :: rest) in E
              by (simpl; rewrite <- app_assoc; done)).
      rewrite startsWith_app_long in E
        by (rewrite length_app; simpl; lia).
      apply startsWith_true in E as [r E]. apply includes_true.
      exists [], r. by rewrite E. }
    rewrite IH; [done|].
    destruct (includes fence (h ++ LF :: js "--")) eqn:E; [|done].
    apply includes_true in E as (a & b & E).
    assert (includes fence ((c :: h) ++ LF :: js "--") = true); [|congruence].
    apply includes_true. exists (c :: a), b.
    change ((c :: h) ++ LF :: js "--") with (c :: (h ++ LF :: js "--")).
    by rewrite E.
Qed.

Lemma drop_app_app {A : Type} (a f b : list A) :
  drop (length a + length f) (a ++ f ++ b) = b.
Proof. by rewrite app_assoc, <- length_app, drop_app_length. Qed.

Lemma frontmatterMatch_body body :
  frontmatterMatch (js "---" ++ [LF] ++ body)
  = match find fence body with
    | Some i => Some (take i body, drop (i + 4) body)
    | None => None
    end.
Proof. done. Qed.

Lemma frontmatterMatch_intro h rest :
  includes fence (h ++ LF :: js "--") = false ->
  frontmatterMatch (js "---" ++ [LF] ++ h ++ fence ++ rest) = Some (h, rest).
Proof.
  intros H. rewrite frontmatterMatch_body, find_fence_intro by done.
  rewrite take_app_length.
  change (length h + 4) with (length h + length fence).
  by rewrite drop_app_app.
Qed.

Lemma frontmatterMatch_elim s h rest :
  frontmatterMatch s = Some (h, rest) ->
  s = js "---" ++ [LF] ++ h ++ fence ++ rest
  /\ includes fence (h ++ LF :: js "--") = false.
Proof.
  intros H.
  assert (exists body, s = js "---" ++ [LF] ++ body) as [body ->].
  { unfold frontmatterMatch in H.
    destruct (startsWith (js "---" ++ [LF]) s) eqn:E; [|done].
    apply startsWith_true in E as [body ->]. exists body.
    by rewrite <- app_assoc. }
  rewrite frontmatterMatch_body in H.
  destruct (find fence body) as [i|] eqn:F; [|done]. injection H as <- <-.
  pose proof F as F'. apply find_Some in F' as (a & b & -> & <-).
  rewrite take_app_length.
  change (length a + 4) with (length a + length fence).
  rewrite drop_app_app. split; [done|].
  destruct (includes fence (a ++ LF :: js "--")) eqn:E; [|done].
  apply includes_true in E as (a' & b' & E).
  assert (length a <= length a').
  { eapply (find_minimal _ _ _ a' (b' ++ "-"%char :: b) F).
    transitivity ((a ++ LF :: js "--") ++ "-"%char :: b).
    - simpl. by rewrite <- app_assoc.
    - rewrite E. by rewrite <- !app_assoc. }
  apply (f_equal (@length ascii)) in E. rewrite !length_app in E.
  simpl in E. lia.
Qed.

Lemma findAtLineStart_Some p b s i :
  findAtLineStart p b s = Some i ->
  exists before rest, s = before ++ p ++ rest /\ length before = i.
Proof.
  revert b i. induction s as [|c s IH]; intros b i; simpl.
  - destruct (b && startsWith p []) eqn:E; [|done]. intros [= <-].
    apply andb_true_iff in E as [_ E]. apply startsWith_true in E as [r ->].
    by exists [], r.
  - destruct (b && startsWith p (c :: s)) eqn:E.
    + intros [= <-]. apply andb_true_iff in E as [_ E].
      apply startsWith_true in E as [r ->]. by exists [], r.
    + destruct (findAtLineStart p (isLineTerminator c) s) as [j|] eqn:F; [|done].
      simpl. intros [= <-]. destruct (IH _ _ F) as (before & rest & -> & <-).
      by exists (c :: before), rest.
Qed.

Lemma findAtLineStart_zero p b s :
  findAtLineStart p b s = Some 0 <-> b && startsWith p s = true.
Proof.
  destruct s as [|c s]; simpl.
  - by destruct (b && startsWith p []).
  - destruct (b && startsWith p (c :: s)); [done|].
    by destruct (findAtLineStart p (isLineTerminator c) s).
Qed.

Lemma findAtLineStart_replace p b x y y' :
  findAtLineStart p b (x ++ p ++ y) = Some (length x) ->
  findAtLineStart p b (x ++ p ++ y') = Some (length x).
Proof.
  revert b. induction x as [|c x IH]; intros b.
  - cbn [app length]. rewrite !findAtLineStart_zero, !startsWith_app. done.
  - cbn [app findAtLineStart length].
    assert (forall z, startsWith p (c :: x ++ p ++ z)
                      = startsWith p ((c :: x) ++ p)) as Hz.
    { intros z. rewrite (app_assoc x p z), app_comm_cons.
      apply startsWith_app_long. rewrite length_app. simpl. lia. }
    rewrite !Hz.
    destruct (b && startsWith p ((c :: x) ++ p)); [done|].
    destruct (findAtLineStart p _ (x ++ p ++ y)) as [j|] eqn:F; [|done].
    simpl. intros [= ->]. by rewrite (IH _ F).
Qed.

Lemma findAtLineStart_append p b x y :
  findAtLineStart p b x = None -> ~ In LF p -> p <> [] ->
  findAtLineStart p b (x ++ LF :: p ++ y) = Some (S (length x)).
Proof.
  intros Hx Hp Hne. revert b Hx. induction x as [|c x IH]; intros b Hx.
  - cbn [app findAtLineStart length].
    assert (startsWith p (LF :: p ++ y) = false) as ->.
    { destruct p as [|d p]; [done|]. simpl.
      destruct (ceqb d LF) eqn:E; [|done]. apply ceqb_true in E as ->.
      destruct Hp. by left. }
    rewrite andb_false_r.
    assert (findAtLineStart p (isLineTerminator LF) (p ++ y) = Some 0) as ->; [|done].
    apply findAtLineStart_zero. by rewrite startsWith_app.
  - cbn [app findAtLineStart length]. cbn [findAtLineStart] in Hx.
    change (c :: x ++ LF :: p ++ y) with ((c :: x) ++ LF :: p ++ y).
    rewrite startsWith_app_sep by done.
    destruct (b && startsWith p (c :: x)); [done|].
    destruct (findAtLineStart p (isLineTerminator c) x) eqn:F; [done|].
    by rewrite (IH _ F).
Qed.

Lemma lineOf_split s :
  exists rest,
    s = lineOf s ++ rest
    /\ (rest = [] \/ exists c r, rest = c :: r /\ isLineTerminator c = true)
    /\ Forall (fun c => isLineTerminator c = false) (lineOf s).
Proof.
  induction s as [|c s (rest & IH1 & IH2 & IH3)]; simpl.
  - exists []. repeat split; [by left|constructor].
  - destruct (isLineTerminator c) eqn:E.
    + exists (c :: s). repeat split; [right; by eauto|constructor].
    + exists rest. split; [simpl; by f_equal|]. split; [done|by constructor].
Qed.

Lemma lineOf_app x rest :
  Forall (fun c => isLineTerminator c = false) x ->
  (rest = [] \/ exists c r, rest = c :: r /\ isLineTerminator c = true) ->
  lineOf (x ++ rest) = x.
Proof.
  intros Hx Hrest. induction Hx as [|c x Hc _ IH]; simpl.
  - destruct Hrest as [->|(c & r & -> & Hc)]; simpl; [done|by rewrite Hc].
  - by rewrite Hc, IH.
Qed.

(** What [replaceTagsLine] does when the header has a tag line. *)
Lemma replaceTagsLine_Some header i newline :
  findAtLineStart (js "tags:") true header = Some i ->
  ~ In "$"%char newline ->
  exists before old after,
    header = before ++ (js "tags:" ++ old) ++ after
    /\ length before = i
    /\ old = lineOf (drop (i + 5) header)
    /\ Forall (fun c => isLineTerminator c = false) old
    /\ (after = [] \/ exists c r, after = c :: r /\ isLineTerminator c = true)
    /\ replaceTagsLine header newline = before ++ newline ++ after.
Proof.
  intros Hi Hn. unfold replaceTagsLine. rewrite Hi.
  apply findAtLineStart_Some in Hi as (before & rest0 & -> & <-).
  change 5 with (length (js "tags:")).
  rewrite (app_assoc before), <- (length_app before), drop_app_length.
  destruct (lineOf_split rest0) as (after & Hrest0 & Hafter & Hold).
  exists before, (lineOf rest0), after.
  rewrite <- app_assoc.
  split; [by rewrite <- !app_assoc, <- Hrest0|]. split; [done|].
  split; [done|]. split; [done|]. split; [done|].
  rewrite getSubstitution_plain by done.
  rewrite take_app_length. f_equal. f_equal.
  rewrite length_app.
  rewrite Hrest0 at 2.
  rewrite (app_assoc before), (app_assoc _ (lineOf rest0)).
  rewrite <- (app_assoc before).
  replace (length before + (length (js "tags:") + length (lineOf rest0)))
    with (length (before ++ js "tags:" ++ lineOf rest0))
    by (rewrite !length_app; lia).
  by rewrite drop_app_length.
Qed.

End Header.

Section HeaderRewrite.

Import VaultOperations.

Implicit Types (s x y h p u v : list ascii) (c : ascii).

Lemma within_trimStart s : within (trimStart s) s.
Proof.
  unfold within in *.
  induction s as [|d s IH]; simpl; [done|]. destruct (isSpace d); [|done].
  intros c Hc. right. by apply IH.
Qed.

Lemma within_trim s : within (trim s) s.
Proof.
  unfold within in *.
  intros c Hc. unfold trim, trimEnd in Hc. apply in_rev in Hc.
  apply within_trimStart in Hc. apply in_rev in Hc. by apply within_trimStart.
Qed.

Lemma within_split sep s piece : In piece (split sep s) -> within piece s.
Proof.
  unfold within in *.
  revert piece. induction s as [|d s IH]; intros piece; simpl.
  - intros [<-|[]]. done.
  - destruct (ceqb d sep).
    + intros [<-|H] c Hc; [done|]. right. by eapply IH.
    + pose proof (split_nonempty sep s) as Hne.
      destruct (split sep s) as [|first others]; [done|].
      intros [<-|H] c Hc.
      * destruct Hc as [Hc|Hc]; [by left|]. right. apply (IH first); [by left|done].
      * right. apply (IH piece); [by right|done].
Qed.

Lemma within_removelast s : within (removelast s) s.
Proof.
  unfold within in *.
  induction s as [|d s IH]; [done|]. intros c Hc. simpl in Hc.
  destruct s as [|e s]; [done|]. destruct Hc as [Hc|Hc]; [by left|].
  right. by apply IH.
Qed.

Lemma within_parse value e :
  In e (parseFrontmatterTags value) -> within e value.
Proof.
  unfold within in *.
  unfold parseFrontmatterTags. intros He c Hc.
  destruct (startsWith (js "[") value).
  - apply filter_In in He as [He _]. apply in_map_iff in He as (piece & <- & He).
    apply within_trim in Hc. apply (within_split _ _ _ He) in Hc.
    unfold slice1m1 in Hc. apply within_removelast in Hc.
    destruct value; [done|]. by right.
  - apply filter_In in He as [He _]. destruct He as [<-|[]].
    by apply within_trim in Hc.
Qed.

Lemma within_lineOf s : within (lineOf s) s.
Proof.
  unfold within in *.
  induction s as [|d s IH]; simpl; [done|].
  destruct (isLineTerminator d); [done|].
  intros c [Hc|Hc]; [by left|]. right. by apply IH.
Qed.

Lemma within_drop k s : within (drop k s) s.
Proof.
  unfold within in *.
  revert k. induction s as [|d s IH]; intros [|k] c Hc; simpl in *; try done.
  right. by eapply IH.
Qed.

Lemma tagsField_within header value :
  tagsField header = Some value ->
  within value header
  /\ Forall (fun c => isLineTerminator c = false) value.
Proof.
  unfold within in *.
  unfold tagsField. destruct (findAtLineStart _ _ _) as [i|]; [|done].
  simpl. intros [= <-]. split.
  - intros c Hc. apply within_lineOf, within_trimStart, within_drop in Hc. done.
  - by destruct (lineOf_split (trimStart (drop (i + 5) header))) as (? & _ & _ & ?).
Qed.

Lemma join_Forall (P : ascii -> Prop) sep (xs : list (list ascii)) :
  Forall P sep -> Forall (Forall P) xs -> Forall P (join sep xs).
Proof.
  intros Hsep Hxs. induction Hxs as [|x xs Hx Hxs' IH]; [constructor|].
  destruct xs as [|y xs]; [done|]. rewrite join_cons.
  apply Forall_app. split; [done|]. apply Forall_app. by split.
Qed.

Lemma no_fence_line x :
  ~ In LF x -> includes fence (x ++ LF :: js "--") = false.
Proof.
  intros Hx. destruct (includes _ _) eqn:E; [|done]. exfalso.
  apply includes_true in E as (a & b & E).
  destruct (separate LF a (js "---" ++ b) [] x (LF :: js "--"))
    as [(k & Hk & _)|(k & Hk & _)]; [exact (eq_sym E)|done|by destruct a|].
  apply (f_equal (@length ascii)) in Hk. rewrite length_app in Hk.
  simpl in Hk. lia.
Qed.

Lemma no_fence_replace before old new after :
  includes fence ((before ++ (js "tags:" ++ old) ++ after) ++ LF :: js "--")
  = false ->
  ~ In LF new ->
  includes fence ((before ++ (js "tags:" ++ new) ++ after) ++ LF :: js "--")
  = false.
Proof.
  intros Hold Hnew. destruct (includes fence ((before ++ _) ++ _)) eqn:E at 1;
    [|done]. exfalso.
  apply includes_true in E as (a & b & E).
  destruct (separate LF a (js "---" ++ b) before (js "tags:" ++ new)
              (after ++ LF :: js "--")) as [(k & -> & Hk)|(k & Hk & ->)].
  { rewrite <- !app_assoc in E. exact (eq_sym E). }
  { intros [?|[?|[?|[?|[?|?]]]]]; done. }
  - destruct k as [|c1 [|c2 [|c3 k]]]; simpl in Hk; simplify_eq.
    apply not_true_iff_false in Hold. apply Hold.
    apply includes_true. eexists a, _. rewrite <- !app_assoc. simpl. done.
  - apply not_true_iff_false in Hold. apply Hold.
    apply includes_true. exists (before ++ (js "tags:" ++ old) ++ k), b.
    rewrite <- !app_assoc, Hk. done.
Qed.

Lemma no_fence_append header line :
  includes fence (header ++ LF :: js "--") = false ->
  ~ In LF line ->
  includes fence ((header ++ LF :: js "tags:" ++ line) ++ LF :: js "--") = false.
Proof.
  intros Hold Hline. destruct (includes fence ((header ++ _) ++ _)) eqn:E;
    [|done]. exfalso.
  apply includes_true in E as (a & b & E).
  destruct (separate LF a (js "---" ++ b) (header ++ [LF]) (js "tags:" ++ line)
              (LF :: js "--")) as [(k & Hk1 & Hk2)|(k & Hk & _)].
  { rewrite <- !app_assoc in E |- *. exact (eq_sym E). }
  { intros [?|[?|[?|[?|[?|?]]]]]; done. }
  - destruct k as [|c1 [|c2 [|c3 k]]]; simpl in Hk2; simplify_eq.
    destruct k as [|c k _] using rev_ind.
    + change (a ++ LF :: ["-"; "-"; "-"]%char)
        with (a ++ [LF; "-"; "-"]%char ++ ["-"%char]) in Hk1.
      rewrite app_assoc in Hk1. by apply app_inj_tail in Hk1 as [_ ?].
    + change (a ++ LF :: "-"%char :: "-"%char :: "-"%char :: k ++ [c])
        with (a ++ (LF :: js "---" ++ k) ++ [c]) in Hk1.
      rewrite app_assoc in Hk1. apply app_inj_tail in Hk1 as [-> _].
      apply not_true_iff_false in Hold. apply Hold.
      apply includes_true. eexists a, _. by rewrite <- !app_assoc.
  - apply (f_equal (@length ascii)) in Hk. rewrite length_app in Hk.
    simpl in Hk. lia.
Qed.

(** The tag field read back from a header in which [tagsLine] was
    written. *)
Lemma tagsField_written before inner after :
  findAtLineStart (js "tags:") true
    (before ++ js "tags:" ++ js " [" ++ inner ++ js "]" ++ after)
  = Some (length before) ->
  Forall (fun c => isLineTerminator c = false) inner ->
  (after = [] \/ exists c r, after = c :: r /\ isLineTerminator c = true) ->
  tagsField (before ++ js "tags:" ++ js " [" ++ inner ++ js "]" ++ after)
  = Some (js "[" ++ inner ++ js "]").
Proof.
  intros Hfind Hinner Hafter. unfold tagsField. rewrite Hfind.
  change (Some (lineOf (trimStart (drop (length before + 5)
            (before ++ js "tags:" ++ js " [" ++ inner ++ js "]" ++ after))))
          = Some (js "[" ++ inner ++ js "]")).
  f_equal. change 5 with (length (js "tags:")).
  rewrite (drop_app_app before (js "tags:") (js " [" ++ inner ++ js "]" ++ after)).
  replace (trimStart (js " [" ++ inner ++ js "]" ++ after))
    with ((js "[" ++ inner ++ js "]") ++ after)
    by (simpl; by rewrite <- app_assoc).
  apply lineOf_app; [|done].
  constructor; [done|]. apply Forall_app. split; [done|]. by constructor.
Qed.

End HeaderRewrite.

Section InlineTags.

Import VaultOperations.

Implicit Types (s e pre post : list ascii) (c w : ascii).

Lemma tagRun_name tl post :
  forallb isTagChar tl = true -> tagEnds post -> tagRun (tl ++ post) = tl.
Proof.
  intros Htl Hpost. induction tl as [|c tl IH]; simpl in *.
  - destruct post as [|c post]; [done|]. simpl in *. by rewrite Hpost.
  - apply andb_true_iff in Htl as [-> Htl]. by rewrite IH.
Qed.

Lemma tagRun_split s :
  exists post,
    s = tagRun s ++ post /\ tagEnds post
    /\ forallb isTagChar (tagRun s) = true.
Proof.
  induction s as [|c s (post & IH1 & IH2 & IH3)]; simpl.
  - by exists [].
  - destruct (isTagChar c) eqn:E.
    + exists post. simpl. rewrite E. split; [by f_equal|done].
    + exists (c :: s). by simpl.
Qed.

Lemma tagRun_take s : take (length (tagRun s)) s = tagRun s.
Proof.
  induction s as [|c s IH]; simpl; [done|].
  destruct (isTagChar c); simpl; [by f_equal|done].
Qed.

Lemma tagRun_nospace s : Forall (fun c => isSpace c = false) (tagRun s).
Proof.
  induction s as [|c s IH]; simpl; [constructor|].
  destruct (isTagChar c) eqn:E; [|constructor].
  constructor; [by apply tagChar_not_space|done].
Qed.

Lemma space_not_hash c : isSpace c = true -> ceqb c "#" = false.
Proof. by destruct c as [[] [] [] [] [] [] [] []]. Qed.

Lemma letter_nospace c : isLetter c = true -> isSpace c = false.
Proof. by destruct c as [[] [] [] [] [] [] [] []]. Qed.

(** What one successful attempt of the inline tag pattern has matched. *)
Lemma inlineTagAt_Some atStart s e len :
  inlineTagAt atStart s = Some (e, len) ->
  validTagName e = true
  /\ ((atStart = true /\ tagAtHead e s)
      \/ exists w post,
           s = w :: "#"%char :: e ++ post /\ isSpace w = true /\ tagEnds post)
  /\ Forall (fun c => isSpace c = false) (take (len - 1) (tail s)).
Proof.
  destruct s as [|c s]; [done|]. simpl.
  destruct (atStart && ceqb c "#") eqn:E.
  - apply andb_true_iff in E as [-> E]. apply ceqb_true in E as ->.
    destruct s as [|l s]; [done|]. destruct (isLetter l) eqn:El; [|done].
    intros [= <- <-]. destruct (tagRun_split s) as (post & H1 & H2 & H3).
    split; [by simpl; rewrite El, H3|]. split.
    + left. split; [done|]. exists post. split; [|done].
      simpl. by rewrite <- H1.
    + simpl. rewrite tagRun_take. constructor; [by apply letter_nospace|].
      apply tagRun_nospace.
  - destruct (isSpace c) eqn:Ec; [|done].
    destruct s as [|h [|l s]]; [done|done|].
    destruct (ceqb h "#" && isLetter l) eqn:Eh; [|done].
    apply andb_true_iff in Eh as [Eh El]. apply ceqb_true in Eh as ->.
    intros [= <- <-]. destruct (tagRun_split s) as (post & H1 & H2 & H3).
    split; [by simpl; rewrite El, H3|]. split.
    + right. exists c, post. split; [|done]. simpl. by rewrite <- H1.
    + simpl. rewrite tagRun_take. constructor; [done|].
      constructor; [by apply letter_nospace|]. apply tagRun_nospace.
Qed.

Lemma inlineTagMatches_cons atStart skip c s :
  inlineTagMatches atStart skip (c :: s)
  = match skip with
    | S k => inlineTagMatches false k s
    | O =>
        match inlineTagAt atStart (c :: s) with
        | Some (name, len) => name :: inlineTagMatches false (len - 1) s
        | None => inlineTagMatches false 0 s
        end
    end.
Proof. done. Qed.

Lemma tagLater_cons e c s : tagLater e s -> tagLater e (c :: s).
Proof.
  intros (pre & w & post & -> & Hw & Hpost). by exists (c :: pre), w, post.
Qed.

Lemma tagLater_head e c s : tagAtHead e s -> isSpace c = true -> tagLater e (c :: s).
Proof. intros (post & -> & Hpost) Hc. by exists [], c, post. Qed.

Lemma tagLater_app e p s : tagLater e s -> tagLater e (p ++ s).
Proof. intros H. induction p as [|c p IH]; [done|]. by apply tagLater_cons. Qed.

(** Every capture of the inline tag pattern is an inline tag of the
    text. *)
Lemma inlineTagMatches_sound e s :
  forall atStart skip,
    In e (inlineTagMatches atStart skip s) ->
    validTagName e = true
    /\ ((atStart = true /\ tagAtHead e s) \/ tagLater e s).
Proof.
  induction s as [|c s IH]; intros atStart skip; [done|].
  rewrite inlineTagMatches_cons.
  assert (forall k, In e (inlineTagMatches false k s) ->
            validTagName e = true
            /\ ((atStart = true /\ tagAtHead e (c :: s)) \/ tagLater e (c :: s)))
    as Hrest.
  { intros k Hk. apply IH in Hk as [Hv [[? _]|Hk]]; [done|].
    split; [done|]. right. by apply tagLater_cons. }
  destruct skip as [|k]; [|apply Hrest].
  destruct (inlineTagAt atStart (c :: s)) as [[name len]|] eqn:E; [|apply Hrest].
  intros [<-|H]; [|by eapply Hrest].
  apply inlineTagAt_Some in E as (Hv & [H|(w & post & H & Hw & Hpost)] & _).
  - split; [done|by left].
  - split; [done|]. right. by exists [], w, post.
Qed.

(** Every inline tag that stands after a white space is captured, as long
    as the part of the previous match that is still to be skipped holds
    no white space. *)
Lemma inlineTagMatches_later e pre :
  validTagName e = true ->
  forall w post atStart skip,
    isSpace w = true -> tagEnds post ->
    Forall (fun c => isSpace c = false) (take skip (pre ++ w :: "#"%char :: e ++ post)) ->
    In e (inlineTagMatches atStart skip (pre ++ w :: "#"%char :: e ++ post)).
Proof.
  intros Hv w post. induction pre as [|c pre IH];
    intros atStart skip Hw Hpost Hskip.
  - destruct skip as [|k].
    2:{ simpl in Hskip. inversion_clear Hskip. congruence. }
    destruct e as [|l tl]; [done|]. simpl in Hv.
    apply andb_true_iff in Hv as [Hl Htl].
    simpl. rewrite (space_not_hash w Hw), andb_false_r, Hw, Hl. simpl.
    left. by rewrite tagRun_name.
  - change ((c :: pre) ++ w :: "#"%char :: e ++ post)
      with (c :: pre ++ w :: "#"%char :: e ++ post) in *.
    rewrite inlineTagMatches_cons. destruct skip as [|k].
    + destruct (inlineTagAt atStart _) as [[name len]|] eqn:E.
      * right. apply IH; [done|done|].
        by apply inlineTagAt_Some in E as (_ & _ & E).
      * apply IH; [done|done|]. by rewrite take_0.
    + apply IH; [done|done|]. simpl in Hskip. by inversion_clear Hskip.
Qed.

Lemma inlineTagMatches_complete e s :
  inlineTagIn e s -> In e (inlineTagMatches true 0 s).
Proof.
  intros [Hv [(post & -> & Hpost)|(pre & w & post & -> & Hw & Hpost)]].
  - destruct e as [|l tl]; [done|]. simpl in Hv.
    apply andb_true_iff in Hv as [Hl Htl].
    simpl. rewrite Hl. left. by rewrite tagRun_name.
  - apply inlineTagMatches_later; [done|done|done|]. by rewrite take_0.
Qed.

End InlineTags.

Section TagSteps.

Import VaultOperations.

Implicit Types (s e pre post tail p rest : list ascii) (c w : ascii).

Lemma trimStart_app a c b :
  isSpace c = false -> trimStart (a ++ c :: b) = trimStart a ++ c :: b.
Proof.
  intros Hc. induction a as [|d a IH]; simpl; [by rewrite Hc|].
  by destruct (isSpace d).
Qed.

Lemma trimEnd_app x c y :
  isSpace c = false -> trimEnd (x ++ c :: y) = x ++ c :: trimEnd y.
Proof.
  intros Hc. unfold trimEnd. rewrite rev_app_distr. simpl rev.
  rewrite <- app_assoc. simpl app. rewrite trimStart_app by done.
  rewrite rev_app_distr. simpl rev. rewrite rev_involutive.
  by rewrite <- app_assoc.
Qed.

Lemma trimStart_split s :
  exists ws, s = ws ++ trimStart s /\ Forall (fun c => isSpace c = true) ws.
Proof.
  induction s as [|c s (ws & IH1 & IH2)]; simpl; [by exists []|].
  destruct (isSpace c) eqn:E.
  - exists (c :: ws). split; [simpl; by f_equal|by constructor].
  - by exists [].
Qed.

Lemma trimEnd_split s :
  exists ws, s = trimEnd s ++ ws /\ Forall (fun c => isSpace c = true) ws.
Proof.
  destruct (trimStart_split (rev s)) as (ws & H1 & H2).
  exists (rev ws). split; [|by apply Forall_rev].
  unfold trimEnd. rewrite <- rev_app_distr, <- H1. by rewrite rev_involutive.
Qed.

Lemma tagEnds_trimEnd post tail :
  tagEnds post -> tagEnds tail -> tagEnds (trimEnd post ++ tail).
Proof.
  intros Hpost Htail. destruct (trimEnd_split post) as (ws & H & _).
  destruct (trimEnd post) as [|c t]; [done|]. by rewrite H in Hpost.
Qed.

Lemma valid_snoc e :
  validTagName e = true -> exists e' l, e = e' ++ [l] /\ isSpace l = false.
Proof.
  intros H. pose proof (validTagName_no_space e H) as Hs.
  destruct e as [|c e _] using rev_ind; [done|].
  exists e, c. split; [done|].
  apply Forall_app in Hs as [_ Hs]. by inversion_clear Hs.
Qed.

(** Trimming the end of the text and appending to it keeps its inline
    tags. *)
Lemma inlineTagIn_trimEnd e s tail :
  inlineTagIn e s -> tagEnds tail -> inlineTagIn e (trimEnd s ++ tail).
Proof.
  intros [Hv H] Htail. split; [done|].
  destruct (valid_snoc e Hv) as (e' & l & -> & Hl).
  destruct H as [(post & -> & Hpost)|(pre & w & post & -> & Hw & Hpost)].
  - left. exists (trimEnd post ++ tail). split; [|by apply tagEnds_trimEnd].
    replace ("#"%char :: (e' ++ [l]) ++ post)
      with (("#"%char :: e') ++ l :: post) by (by rewrite <- ?app_assoc; simpl; rewrite <- ?app_assoc).
    rewrite trimEnd_app by done. by rewrite <- ?app_assoc; simpl; rewrite <- ?app_assoc.
  - right. exists pre, w, (trimEnd post ++ tail).
    split; [|by split; [|apply tagEnds_trimEnd]].
    replace (pre ++ w :: "#"%char :: (e' ++ [l]) ++ post)
      with ((pre ++ w :: "#"%char :: e') ++ l :: post)
      by (by rewrite <- ?app_assoc; simpl; rewrite <- ?app_assoc).
    rewrite trimEnd_app by done. by rewrite <- ?app_assoc; simpl; rewrite <- ?app_assoc.
Qed.

(** Text put in front of the content, ending with a white space, keeps
    its inline tags. *)
Lemma inlineTagIn_prepend e p w s :
  inlineTagIn e s -> isSpace w = true -> inlineTagIn e ((p ++ [w]) ++ s).
Proof.
  intros [Hv H] Hw. split; [done|]. right.
  destruct H as [(post & -> & Hpost)|H].
  - exists p, w, post. by rewrite <- app_assoc.
  - by apply tagLater_app.
Qed.

(** An inline tag of a text whose first part holds no [#] and ends with
    something else than a white space stands in the second part. *)
Lemma inlineTagIn_rest e p c rest :
  inlineTagIn e ((p ++ [c]) ++ rest) ->
  ~ In "#"%char (p ++ [c]) -> isSpace c = false ->
  tagLater e rest.
Proof.
  intros [Hv [(post & H & Hpost)|(pre & w & post & H & Hw & Hpost)]] Hp Hc.
  - destruct Hp. rewrite <- app_assoc in H. destruct p; simpl in *.
    + left. congruence.
    + left. congruence.
  - destruct (separate "#"%char (pre ++ [w]) (e ++ post) [] (p ++ [c]) rest)
      as [(d & Hd & _)|(d & -> & Hd)]; [|done|by destruct pre|].
    { rewrite <- app_assoc. simpl. by rewrite <- H. }
    simpl in Hd. destruct d as [|x d _] using rev_ind.
    + rewrite app_nil_r in Hd. apply app_inj_tail in Hd as [_ ->]. congruence.
    + rewrite !app_assoc in Hd. apply app_inj_tail in Hd as [_ ->].
      exists d, x, post. by rewrite <- app_assoc.
Qed.

Lemma join_In sep x (xs : list (list ascii)) :
  In x xs ->
  exists a b,
    join sep xs = a ++ x ++ b
    /\ (a = [] \/ exists a', a = a' ++ sep)
    /\ (b = [] \/ exists b', b = sep ++ b').
Proof.
  induction xs as [|y xs IH]; [done|]. intros [->|H].
  - exists []. destruct xs as [|z xs].
    + exists []. simpl. rewrite app_nil_r. by split; [|split; left].
    + exists (sep ++ join sep (z :: xs)). rewrite join_cons.
      split; [done|]. split; [by left|]. right. by eexists.
  - destruct (IH H) as (a & b & E & Ha & Hb).
    destruct xs as [|z xs]; [done|]. rewrite join_cons, E.
    exists (y ++ sep ++ a), b. split; [by rewrite <- !app_assoc|].
    split; [|done]. right. destruct Ha as [->|(a' & ->)].
    + exists y. by rewrite app_nil_r.
    + exists (y ++ sep ++ a'). by rewrite <- !app_assoc.
Qed.

(** The tags that [applyTags] appends are inline tags of the result. *)
Lemma inlineTagIn_appended n names s :
  In n names -> validTagName n = true ->
  inlineTagIn n
    (s ++ [LF; LF] ++ join (js " ") (map (fun x => js "#" ++ x) names)).
Proof.
  intros Hn Hv. split; [done|]. right.
  destruct (join_In (js " ") (js "#" ++ n) (map (fun x => js "#" ++ x) names))
    as (a & b & -> & Ha & Hb).
  { apply in_map_iff. by exists n. }
  assert (tagEnds b) as Hb'. { by destruct Hb as [->|(b' & ->)]. }
  destruct Ha as [->|(a' & ->)].
  - exists (s ++ [LF]), LF, b. split; [|done].
    by rewrite <- ?app_assoc; simpl; rewrite <- ?app_assoc.
  - exists (s ++ [LF; LF] ++ a'), " "%char, b. split; [|done].
    by rewrite <- ?app_assoc; simpl; rewrite <- ?app_assoc.
Qed.

(** Trimming the end of the content and appending to it keeps the
    header block. *)
Lemma frontmatterMatch_trimEnd s header rest tail :
  frontmatterMatch s = Some (header, rest) ->
  frontmatterMatch (trimEnd s ++ tail) = Some (header, trimEnd rest ++ tail).
Proof.
  intros H. apply frontmatterMatch_elim in H as [-> Hnf].
  replace (js "---" ++ [LF] ++ header ++ fence ++ rest)
    with ((js "---" ++ [LF] ++ header ++ LF :: js "--") ++ "-"%char :: rest)
    by (by rewrite <- ?app_assoc; simpl; rewrite <- ?app_assoc).
  rewrite trimEnd_app by done.
  replace (((js "---" ++ [LF] ++ header ++ LF :: js "--")
            ++ "-"%char :: trimEnd rest) ++ tail)
    with (js "---" ++ [LF] ++ header ++ fence ++ trimEnd rest ++ tail)
    by (by rewrite <- ?app_assoc; simpl; rewrite <- ?app_assoc).
  by apply frontmatterMatch_intro.
Qed.

Lemma headerTagIn_trimEnd e s tail :
  headerTagIn e s -> headerTagIn e (trimEnd s ++ tail).
Proof.
  intros (header & rest & value & H1 & H2 & H3).
  exists header, (trimEnd rest ++ tail), value.
  split; [by apply frontmatterMatch_trimEnd|done].
Qed.

End TagSteps.

Section AddFrontmatterTags.

Import VaultOperations.

Implicit Types (s e header rest content : list ascii) (c : ascii)
  (names all : list (list ascii)).

Lemma tagChar_lineChar c : isTagChar c = true -> lineChar c.
Proof. unfold lineChar. by destruct c as [[] [] [] [] [] [] [] []]. Qed.

Lemma valid_lineChar e : validTagName e = true -> Forall lineChar e.
Proof.
  intros H. apply validTagName_chars in H as [_ H].
  eapply Forall_impl; [done|]. apply tagChar_lineChar.
Qed.

Lemma lineChar_no_dollar s : Forall lineChar s -> ~ In "$"%char s.
Proof.
  intros H Hin. apply (proj1 (List.Forall_forall _ _) H) in Hin as [? _]. done.
Qed.

Lemma lineChar_no_LF s : Forall lineChar s -> ~ In LF s.
Proof.
  intros H Hin. apply (proj1 (List.Forall_forall _ _) H) in Hin as [_ ?]. done.
Qed.

Lemma lineChar_line s :
  Forall lineChar s -> Forall (fun c => isLineTerminator c = false) s.
Proof. intros H. eapply Forall_impl; [done|]. by intros c [_ ?]. Qed.

Lemma field_lineChar all :
  Forall (Forall lineChar) all ->
  Forall lineChar (js " [" ++ join (js ", ") all ++ js "]").
Proof.
  intros H. apply Forall_app. split; [by repeat constructor|].
  apply Forall_app. split; [|by repeat constructor].
  apply join_Forall; [by repeat constructor|done].
Qed.

Lemma plainHeader_Some content header rest :
  plainHeader content = true ->
  frontmatterMatch content = Some (header, rest) ->
  ~ In "$"%char header /\ ~ In "#"%char header.
Proof.
  unfold plainHeader. intros H E. rewrite E in H.
  apply forallb_Forall_true in H.
  split; intros Hin; apply (proj1 (List.Forall_forall _ _) H) in Hin; done.
Qed.

(** The tag names that [addFrontmatterTags] keeps or adds, read from a
    header with a tag line. *)
Lemma merged_names value names n :
  In n names ->
  exists e,
    In e (parseFrontmatterTags value
          ++ List.filter
               (fun t => negb (existsb (streq (toLowerCase t))
                                 (map toLowerCase (parseFrontmatterTags value))))
               names)
    /\ toLowerCase e = toLowerCase n.
Proof.
  intros Hn.
  destruct (existsb (streq (toLowerCase n))
              (map toLowerCase (parseFrontmatterTags value))) eqn:E.
  - apply existsb_exists in E as (x & Hx & E). apply streq_true in E.
    apply in_map_iff in Hx as (e & <- & He).
    exists e. split; [|done]. apply in_or_app. by left.
  - exists n. split; [|done]. apply in_or_app. right.
    apply filter_In. split; [done|]. by rewrite E.
Qed.

End AddFrontmatterTags.

Section NewHeader.

Import VaultOperations.

Implicit Types (s e header rest content : list ascii) (c : ascii)
  (names all : list (list ascii)).

Lemma tagsLine_field all :
  tagsLine all = js "tags:" ++ js " [" ++ join (js ", ") all ++ js "]".
Proof. done. Qed.

Lemma tagsLine_lineChar all :
  Forall (Forall lineChar) all -> Forall lineChar (tagsLine all).
Proof.
  intros H. rewrite tagsLine_field. apply Forall_app.
  split; [by repeat constructor|by apply field_lineChar].
Qed.

(** A header that consists of the tag line alone. *)
Lemma fresh_header all :
  Forall (Forall lineChar) all ->
  ~ In "$"%char (tagsLine all)
  /\ includes fence (tagsLine all ++ LF :: js "--") = false
  /\ tagsField (tagsLine all) = Some (js "[" ++ join (js ", ") all ++ js "]").
Proof.
  intros H. pose proof (tagsLine_lineChar all H) as Hl.
  split; [by apply lineChar_no_dollar|].
  split; [by apply no_fence_line, lineChar_no_LF|].
  pose proof (tagsField_written [] (join (js ", ") all) []) as Hw.
  rewrite app_nil_r in Hw. apply Hw; [done| |by left].
  apply lineChar_line, join_Forall; [by repeat constructor|done].
Qed.

(** A header without a tag line, to which one is appended. *)
Lemma appended_header header all :
  ~ In "$"%char header ->
  includes fence (header ++ LF :: js "--") = false ->
  tagsField header = None ->
  Forall (Forall lineChar) all ->
  ~ In "$"%char (header ++ [LF] ++ tagsLine all)
  /\ includes fence ((header ++ [LF] ++ tagsLine all) ++ LF :: js "--") = false
  /\ tagsField (header ++ [LF] ++ tagsLine all)
     = Some (js "[" ++ join (js ", ") all ++ js "]").
Proof.
  intros Hd Hnf Hf H. pose proof (tagsLine_lineChar all H) as Hl.
  pose proof (field_lineChar all H) as Hfield.
  split; [|split].
  - intros Hin. apply in_app_or in Hin as [Hin|[Hin|Hin]]; [done|done|].
    by apply lineChar_no_dollar in Hin.
  - apply (no_fence_append header (js " [" ++ join (js ", ") all ++ js "]"));
      [done|by apply lineChar_no_LF].
  - unfold tagsField in Hf.
    destruct (findAtLineStart (js "tags:") true header) eqn:E; [done|].
    pose proof (tagsField_written (header ++ [LF]) (join (js ", ") all) []) as Hw.
    rewrite app_nil_r, <- app_assoc in Hw. apply Hw; [| |by left].
    + rewrite length_app, Nat.add_1_r.
      apply (findAtLineStart_append (js "tags:") true header); [done| |done].
      intros [?|[?|[?|[?|[?|?]]]]]; done.
    + apply lineChar_line, join_Forall; [by repeat constructor|done].
Qed.

(** A header whose tag line is rewritten. *)
Lemma replaced_header header value all :
  ~ In "$"%char header ->
  includes fence (header ++ LF :: js "--") = false ->
  tagsField header = Some value ->
  Forall (Forall lineChar) all ->
  ~ In "$"%char (replaceTagsLine header (tagsLine all))
  /\ includes fence (replaceTagsLine header (tagsLine all) ++ LF :: js "--")
     = false
  /\ tagsField (replaceTagsLine header (tagsLine all))
     = Some (js "[" ++ join (js ", ") all ++ js "]").
Proof.
  intros Hd Hnf Hf H. pose proof (tagsLine_lineChar all H) as Hl.
  pose proof (field_lineChar all H) as Hfield.
  unfold tagsField in Hf.
  destruct (findAtLineStart (js "tags:") true header) as [i|] eqn:E; [|done].
  destruct (replaceTagsLine_Some header i (tagsLine all) E)
    as (before & old & after & Hh & Hlen & _ & _ & Hafter & ->);
    [by apply lineChar_no_dollar|].
  subst header i. split; [|split].
  - intros Hin. apply Hd.
    apply in_app_or in Hin as [Hin|Hin]; [apply in_or_app; by left|].
    apply in_app_or in Hin as [Hin|Hin]; [by apply lineChar_no_dollar in Hin|].
    apply in_or_app. right. apply in_or_app. by right.
  - apply (no_fence_replace before old (js " [" ++ join (js ", ") all ++ js "]"));
      [done|by apply lineChar_no_LF].
  - pose proof (tagsField_written before (join (js ", ") all) after) as Hw.
    rewrite tagsLine_field, <- !app_assoc. apply Hw; [|
      apply lineChar_line, join_Forall; [by repeat constructor|done]|done].
    rewrite <- app_assoc in E.
    apply (findAtLineStart_replace (js "tags:") true before (old ++ after)). done.
Qed.

(** Replacing the header block by one that holds no [$]. *)
Lemma header_replaced matched captures header' rest :
  ~ In "$"%char header' ->
  getSubstitution matched [] rest captures
    (js "---" ++ [LF] ++ header' ++ [LF] ++ js "---") ++ rest
  = js "---" ++ [LF] ++ header' ++ fence ++ rest.
Proof.
  intros H. rewrite getSubstitution_plain.
  - by rewrite <- ?app_assoc; simpl; rewrite <- ?app_assoc.
  - intros Hin. apply in_app_or in Hin as [Hin|Hin];
      [by repeat destruct Hin as [|Hin]|].
    apply in_app_or in Hin as [Hin|Hin]; [by repeat destruct Hin as [|Hin]|].
    apply in_app_or in Hin as [Hin|Hin]; [done|].
    by repeat destruct Hin as [|Hin].
Qed.

End NewHeader.

Section FrontmatterStep.

Import VaultOperations.

Implicit Types (s e n header rest content : list ascii) (c : ascii)
  (names all : list (list ascii)).

(** The shape of the result of [addFrontmatterTags]: a header block with
    a tag line that lists [all], followed by a text that keeps the inline
    tags. *)
Lemma addFrontmatterTags_shape content names :
  plainHeader content = true ->
  Forall (fun n => validTagName n = true) names ->
  exists header' rest' all,
    addFrontmatterTags content names
    = js "---" ++ [LF] ++ header' ++ fence ++ rest'
    /\ includes fence (header' ++ LF :: js "--") = false
    /\ tagsField header' = Some (js "[" ++ join (js ", ") all ++ js "]")
    /\ (forall n, In n names ->
          exists e, In e all /\ toLowerCase e = toLowerCase n)
    /\ (forall e, headerTagIn e content -> In e all)
    /\ (forall e, inlineTagIn e content -> tagLater e rest').
Proof.
  intros Hplain Hnames. unfold addFrontmatterTags.
  assert (Forall (Forall lineChar) names) as Hline.
  { eapply Forall_impl; [done|]. apply valid_lineChar. }
  destruct (frontmatterMatch content) as [[header rest]|] eqn:Hm.
  - destruct (plainHeader_Some _ _ _ Hplain Hm) as [Hd Hh].
    destruct (frontmatterMatch_elim _ _ _ Hm) as [Hc Hnf].
    assert (forall e, inlineTagIn e content -> tagLater e rest) as Hrest.
    { intros e He. rewrite Hc in He.
      apply (inlineTagIn_rest e (js "---" ++ [LF] ++ header ++ LF :: js "--")
               "-"%char rest); [| |done].
      - replace (((js "---" ++ [LF] ++ header ++ LF :: js "--") ++ ["-"%char])
                 ++ rest)
          with (js "---" ++ [LF] ++ header ++ fence ++ rest); [done|].
        by rewrite <- ?app_assoc; simpl; rewrite <- ?app_assoc.
      - intros Hin. apply in_app_or in Hin as [Hin|Hin];
          [|by repeat destruct Hin as [|Hin]].
        apply in_app_or in Hin as [Hin|Hin]; [by repeat destruct Hin as [|Hin]|].
        apply in_app_or in Hin as [Hin|Hin]; [by repeat destruct Hin as [|Hin]|].
        apply in_app_or in Hin as [Hin|Hin]; [done|].
        by repeat destruct Hin as [|Hin]. }
    assert (forall e value, headerTagIn e content ->
              tagsField header = Some value ->
              In e (parseFrontmatterTags value)) as Hold.
    { intros e value (h & r & v & H1 & H2 & H3) Hv. by simplify_eq. }
    destruct (tagsField header) as [value|] eqn:Hv; cbv zeta.
    + set (all := parseFrontmatterTags value
                  ++ List.filter
                       (fun t => negb (existsb (streq (toLowerCase t))
                          (map toLowerCase (parseFrontmatterTags value))))
                       names).
      assert (Forall (Forall lineChar) all) as Hall.
      { apply Forall_app. split.
        - apply List.Forall_forall. intros e He.
          apply List.Forall_forall. intros c Hc'.
          apply (within_parse _ _ He) in Hc'.
          destruct (tagsField_within header value Hv) as [Hw Hlt].
          split; [intros ->; by apply Hd, Hw|].
          by apply (proj1 (List.Forall_forall _ _) Hlt).
        - apply List.Forall_forall. intros e He. apply filter_In in He as [He _].
          by apply (proj1 (List.Forall_forall _ _) Hline). }
      destruct (replaced_header header value all Hd Hnf Hv Hall)
        as (H1 & H2 & H3).
      exists (replaceTagsLine header (tagsLine all)), rest, all.
      split; [by apply header_replaced|]. split; [done|]. split; [done|].
      split; [intros n Hn; by apply merged_names|].
      split; [|done]. intros e He. apply in_or_app. left. by apply Hold.
    + destruct (appended_header header names Hd Hnf Hv Hline)
        as (H1 & H2 & H3).
      exists (header ++ [LF] ++ tagsLine names), rest, names.
      split; [by apply header_replaced|]. split; [done|]. split; [done|].
      split; [intros n Hn; by exists n|].
      split; [|done]. intros e (h & r & v & E1 & E2 & _). by simplify_eq.
  - destruct (fresh_header names Hline) as (H1 & H2 & H3).
    exists (tagsLine names), ([LF; LF] ++ content), names.
    split; [done|]. split; [done|]. split; [done|].
    split; [intros n Hn; by exists n|].
    split; [intros e (h & r & v & E1 & _); by rewrite Hm in E1|].
    intros e [_ [H|H]].
    + by apply tagLater_cons, tagLater_head.
    + by apply (tagLater_app e [LF; LF]).
Qed.

Lemma headerTagIn_intro e header rest all :
  includes fence (header ++ LF :: js "--") = false ->
  tagsField header = Some (js "[" ++ join (js ", ") all ++ js "]") ->
  In e all -> validTagName e = true ->
  headerTagIn e (js "---" ++ [LF] ++ header ++ fence ++ rest).
Proof.
  intros Hnf Hf He Hv. exists header, rest, (js "[" ++ join (js ", ") all ++ js "]").
  split; [by apply frontmatterMatch_intro|]. split; [done|].
  by apply parse_tagsLine.
Qed.

(** [addFrontmatterTags] keeps the well-formed tags the content carries
    and adds the given names. *)
Lemma addFrontmatterTags_keeps content names n :
  plainHeader content = true ->
  Forall (fun n => validTagName n = true) names ->
  validTagName n = true ->
  tagKnown n content -> tagKnown n (addFrontmatterTags content names).
Proof.
  intros Hplain Hnames Hn (e & He & H).
  destruct (addFrontmatterTags_shape content names Hplain Hnames)
    as (header' & rest' & all & -> & Hnf & Hf & _ & Hold & Hinl).
  exists e. split; [done|]. destruct H as [H|H].
  - left. apply (headerTagIn_intro e header' rest' all); [done|done|by apply Hold|].
    by apply (validTagName_lower e n).
  - right. split; [by destruct H|].
    right. rewrite !app_assoc. by apply tagLater_app, Hinl.
Qed.

Lemma addFrontmatterTags_adds content names n :
  plainHeader content = true ->
  Forall (fun n => validTagName n = true) names ->
  In n names -> tagKnown n (addFrontmatterTags content names).
Proof.
  intros Hplain Hnames Hn.
  destruct (addFrontmatterTags_shape content names Hplain Hnames)
    as (header' & rest' & all & -> & Hnf & Hf & Hnew & _ & _).
  destruct (Hnew n Hn) as (e & He & Hlow).
  exists e. split; [done|]. left.
  apply (headerTagIn_intro e header' rest' all); [done|done|done|].
  apply (validTagName_lower e n); [done|].
  by apply (proj1 (List.Forall_forall _ _) Hnames).
Qed.

End FrontmatterStep.

Section ApplyTags.

Import VaultOperations.

Implicit Types (s e n content : list ascii) (c : ascii)
  (names : list (list ascii)) (t : SuggestedTag) (tags : list SuggestedTag).

Lemma tagExists_true s n :
  tagExists (extractExistingTags s) n = true <-> tagKnown n s.
Proof.
  unfold tagExists, tagKnown. rewrite existsb_exists. split.
  - intros (e & He & Hlow). apply streq_true in Hlow.
    exists e. split; [done|]. unfold extractExistingTags in He.
    apply in_app_or in He as [He|He].
    + left. destruct (frontmatterMatch s) as [[header rest]|] eqn:Hm; [|done].
      destruct (tagsField header) as [value|] eqn:Hv; [|done].
      by exists header, rest, value.
    + right. apply inlineTagMatches_sound in He as [Hv [[_ H]|H]].
      * split; [done|by left].
      * split; [done|by right].
  - intros (e & Hlow & H). exists e. split; [|by apply streq_true].
    unfold extractExistingTags. apply in_or_app. destruct H as [H|H].
    + left. destruct H as (header & rest & value & -> & -> & H). done.
    + right. by apply inlineTagMatches_complete.
Qed.

Lemma filter_none {A : Type} (f : A -> bool) (l : list A) :
  (forall x, In x l -> f x = false) -> List.filter f l = [].
Proof.
  induction l as [|x l IH]; [done|]. intros H. simpl.
  rewrite (H x) by (by left). apply IH. intros y Hy. apply H. by right.
Qed.

(** When the content carries every suggested tag, [applyTags] leaves it
    as it is. *)
Lemma applyTags_known s tags :
  (forall t, In t tags -> tagKnown (tagName t) s) -> applyTags s tags = s.
Proof.
  intros H.
  assert (List.filter
            (fun t => negb (tagExists (extractExistingTags s) (tagName t))) tags
          = []) as Hfresh.
  { apply filter_none. intros t Ht.
    apply negb_false_iff, tagExists_true. by apply H. }
  unfold applyTags. by rewrite Hfresh.
Qed.

(** Appending the inline tags keeps the tags the content carries. *)
Lemma append_keeps s n names :
  tagKnown n s ->
  tagKnown n
    (trimEnd s ++ [LF; LF] ++ join (js " ") (map (fun x => js "#" ++ x) names)).
Proof.
  intros (e & He & [H|H]); exists e; (split; [done|]).
  - left. by apply headerTagIn_trimEnd.
  - right. by apply inlineTagIn_trimEnd.
Qed.

Lemma append_adds s n names :
  In n names -> validTagName n = true ->
  tagKnown n
    (trimEnd s ++ [LF; LF] ++ join (js " ") (map (fun x => js "#" ++ x) names)).
Proof.
  intros Hn Hv. exists n. split; [done|]. right.
  by apply inlineTagIn_appended.
Qed.

(** After [applyTags] the content carries every suggested tag. *)
Lemma applyTags_carries content tags t :
  forallb plainTag tags = true -> plainHeader content = true ->
  In t tags -> tagKnown (tagName t) (applyTags content tags).
Proof.
  intros Htags Hplain Ht. unfold applyTags.
  set (fresh := List.filter
         (fun t => negb (tagExists (extractExistingTags content) (tagName t)))
         tags).
  set (front := List.filter (fun t => isFrontmatter (location t)) fresh).
  set (inl := List.filter (fun t => negb (isFrontmatter (location t))) fresh).
  assert (forall x, In x tags -> validTagName (tagName x) = true) as Hvalid.
  { intros x Hx. by apply (proj1 (forallb_forall _ _) Htags). }
  assert (Forall (fun n => validTagName n = true) (map tagName front)) as Hfront.
  { apply List.Forall_forall. intros n Hn.
    apply in_map_iff in Hn as (x & <- & Hx).
    apply Hvalid. apply filter_In in Hx as [Hx _].
    by apply filter_In in Hx as [Hx _]. }
  set (result := if nonEmpty (map tagName front)
                 then addFrontmatterTags content (map tagName front)
                 else content).
  assert (tagKnown (tagName t) content -> tagKnown (tagName t) result) as Hkeep.
  { intros H. unfold result. destruct (nonEmpty _); [|done].
    apply addFrontmatterTags_keeps; auto. }
  assert (tagKnown (tagName t) result
          \/ In (tagName t) (map tagName inl)) as Hresult.
  { destruct (tagExists (extractExistingTags content) (tagName t)) eqn:E.
    - left. by apply Hkeep, tagExists_true.
    - assert (In t fresh) as Hfresh.
      { apply filter_In. split; [done|]. by rewrite E. }
      destruct (isFrontmatter (location t)) eqn:El.
      + left. assert (In (tagName t) (map tagName front)) as Hin.
        { apply in_map, filter_In. by split. }
        unfold result. destruct (map tagName front) eqn:Ef; [done|].
        simpl nonEmpty. cbv iota. rewrite <- Ef in *.
        by apply addFrontmatterTags_adds.
      + right. apply in_map, filter_In. split; [done|]. by rewrite El. }
  replace (map (fun t0 => js "#" ++ tagName t0) inl)
    with (map (fun x => js "#" ++ x) (map tagName inl))
    by (by rewrite map_map).
  destruct (nonEmpty (map (fun x => js "#" ++ x) (map tagName inl))) eqn:En.
  - destruct Hresult as [H|H].
    + by apply append_keeps.
    + apply append_adds; [done|]. by apply Hvalid.
  - destruct Hresult as [H|H]; [done|].
    destruct (map tagName inl); [done|]. done.
Qed.

End ApplyTags.

(** C4, as stated, does not hold: an inline tag that starts with a digit
    is appended, is not recognised as an existing tag, and is appended
    again on the next run. *)
Lemma C4_idempotence_refuted :
  let content := js "Some text" in
  let tags := [mkTag (js "#2024") inline (js "year") (Fin 1)] in
  VaultOperations.applyTags content tags
    = js "Some text" ++ [LF; LF] ++ js "#2024"
  /\ VaultOperations.applyTags (VaultOperations.applyTags content tags) tags
    = js "Some text" ++ [LF; LF] ++ js "#2024" ++ [LF; LF] ++ js "#2024"
  /\ VaultOperations.applyTags (VaultOperations.applyTags content tags) tags
    <> VaultOperations.applyTags content tags.
Proof. split; [|split]; vm_compute; congruence. Qed.

(** A tag that stands after a white space in the tag line of the header
    counts as an inline tag; once the line is rewritten as a list it no
    longer does, and the tag is added on the next run. *)
Example idempotence_hash_in_header :
  let content := js "---" ++ [LF] ++ js "tags: #foo" ++ [LF] ++ js "---" ++ [LF]
                 ++ js "text" in
  let tags := [mkTag (js "bar") frontmatter (js "topic") (Fin 1);
               mkTag (js "foo") frontmatter (js "topic") (Fin 1)] in
  VaultOperations.applyTags content tags
    = js "---" ++ [LF] ++ js "tags: [#foo, bar]" ++ [LF] ++ js "---" ++ [LF]
      ++ js "text"
  /\ VaultOperations.applyTags (VaultOperations.applyTags content tags) tags
    = js "---" ++ [LF] ++ js "tags: [#foo, bar, foo]" ++ [LF] ++ js "---" ++ [LF]
      ++ js "text".
Proof. split; by vm_compute. Qed.

(** A [$1] in the header is expanded to the old header when the header
    block is written back, so the old tag line comes first and hides the
    new one. *)
Example idempotence_dollar_in_header :
  let content := js "---" ++ [LF] ++ js "a: $1" ++ [LF] ++ js "tags: [x]" ++ [LF]
                 ++ js "---" ++ [LF] ++ js "text" in
  let tags := [mkTag (js "bar") frontmatter (js "topic") (Fin 1)] in
  VaultOperations.applyTags content tags
    = js "---" ++ [LF] ++ js "a: a: $1" ++ [LF] ++ js "tags: [x]" ++ [LF]
      ++ js "tags: [x, bar]" ++ [LF] ++ js "---" ++ [LF] ++ js "text"
  /\ VaultOperations.applyTags (VaultOperations.applyTags content tags) tags
    <> VaultOperations.applyTags content tags.
Proof. split; [by vm_compute|vm_compute; congruence]. Qed.

(** C4, amended: for suggestions whose tags are well-formed tag names, on
    a content whose header block, if any, holds neither [$] nor [#],
    applying the tags twice gives the same content as applying them
    once. *)
Theorem C4_applyTags_idempotent (content : list ascii) (tags : list SuggestedTag) :
  forallb plainTag tags = true ->
  plainHeader content = true ->
  VaultOperations.applyTags (VaultOperations.applyTags content tags) tags
  = VaultOperations.applyTags content tags.
Proof.
  intros Htags Hplain. apply applyTags_known.
  intros t Ht. by apply applyTags_carries.
Qed.

Lemma C4_applyTags_idempotent_witness :
  let content := js "---" ++ [LF] ++ js "title: Cats" ++ [LF] ++ js "tags: [pets]"
                 ++ [LF] ++ js "---" ++ [LF] ++ js "I love cats #animals" in
  let tags := [mkTag (js "#Pets") frontmatter (js "topic") (Fin 1);
               mkTag (js "felines") frontmatter (js "topic") (Fin 1);
               mkTag (js "#cute/cats") inline (js "topic") (Fin 1);
               mkTag (js "Animals") inline (js "topic") (Fin 1)] in
  VaultOperations.applyTags content tags
    = js "---" ++ [LF] ++ js "title: Cats" ++ [LF] ++ js "tags: [pets, felines]"
      ++ [LF] ++ js "---" ++ [LF] ++ js "I love cats #animals" ++ [LF; LF]
      ++ js "#cute/cats"
  /\ VaultOperations.applyTags (VaultOperations.applyTags content tags) tags
     = VaultOperations.applyTags content tags.
Proof.
  split; [by vm_compute|].
  apply C4_applyTags_idempotent; by vm_compute.
Defined.
